(** * btclib: elliptic-curve group engine and ECDSA

    A shallow embedding of [btclib/curve.py] and [btclib/ecdsa.py].
    Python integers are [Z]; [%] is [Z.modulo] (floor semantics, the sign
    of the divisor); a call that can raise returns a [result]; Python
    floats are IEEE-754 binary64 values of [SpecFloat]. *)

From Stdlib Require Import ZArith List Lia Bool Znumtheory Zcong Zdivisibility.
From Stdlib Require Import Floats.SpecFloat.
From Stdlib Require NsatzTactic Cring Integral_domain.
From Stdlib Require Import Morphisms Setoid.
Import ListNotations.
Local Open Scope Z_scope.

(** ** Exceptions and the outcome of a call *)

Module Py.

(** The exception classes the two modules raise; all of them derive from
    Python's [Exception]. *)
Inductive exn : Type :=
| ValueError
| TypeError
| UserWarning
| AssertionError
| ZeroDivisionError
| OverflowError.

Inductive result (A : Type) : Type :=
| Ok (a : A)
| Raise (e : exn).
Arguments Ok {A} a.
Arguments Raise {A} e.

Definition bind {A B : Type} (c : result A) (k : A -> result B) : result B :=
  match c with
  | Ok a => k a
  | Raise e => Raise e
  end.

(** [if cond: raise e] *)
Definition raise_if (cond : bool) (e : exn) : result unit :=
  if cond then Raise e else Ok tt.

(** [assert cond] *)
Definition assert (cond : bool) : result unit :=
  raise_if (negb cond) AssertionError.

(** [try: body / except Exception: handler]; every member of [exn] is a
    subclass of [Exception], so the handler sees all of them. *)
Definition try_except {A : Type} (body : result A) (handler : result A)
  : result A :=
  match body with
  | Ok a => Ok a
  | Raise _ => handler
  end.

Definition is_ok {A : Type} (c : result A) : bool :=
  match c with Ok _ => true | Raise _ => false end.

(** [z.bit_length()] *)
Definition bit_length (z : Z) : Z :=
  match z with
  | 0 => 0
  | _ => Z.log2 (Z.abs z) + 1
  end.

(** Square-and-multiply over the binary digits of the exponent. *)
Fixpoint pow_mod_pos (b : Z) (e : positive) (m : Z) : Z :=
  match e with
  | xH => b mod m
  | xO e' => let t := pow_mod_pos b e' m in (t * t) mod m
  | xI e' => let t := pow_mod_pos b e' m in (t * t * b) mod m
  end.

(** The three-argument [pow(b, e, m)].  A zero modulus raises
    [ValueError].  A negative exponent raises [ValueError] before Python
    3.8 and returns a power of the inverse afterwards; in this code base
    the exponent is negative only in [pow(2, p-1, p)] with [p < 0], where
    the later versions return a value in [(p, 0]], never [1], so that the
    caller raises [ValueError] as well. *)
Definition pow3 (b e m : Z) : result Z :=
  if m =? 0 then Raise ValueError
  else match e with
       | 0 => Ok (1 mod m)
       | Z.pos e' => Ok (pow_mod_pos b e' m)
       | Z.neg _ => Raise ValueError
       end.

End Py.
Export Py.

Declare Scope py_scope.
Delimit Scope py_scope with py.
Notation "x <- c ;; k" := (bind c (fun x => k))
  (at level 61, c at next level, right associativity) : py_scope.
Notation "c ;;; k" := (bind c (fun _ => k))
  (at level 61, right associativity) : py_scope.
Local Open Scope py_scope.

(** ** numbertheory.py *)

Module NumberTheory.

(** Modelled from the spec: [numbertheory.mod_inv] is not part of the
    sources; the spec gives its contract, "returns the modular inverse or
    fails if gcd(a, m) <> 1".  The inverse is the one the extended
    Euclidean algorithm of the Standard Library computes, in [[0, m)]. *)
Definition mod_inv (a m : Z) : result Z :=
  if m <=? 0 then Raise ValueError
  else if Z.gcd a m =? 1 then Ok (Z.invmod a m)
  else Raise ValueError.

(** Modelled from the spec: [numbertheory.mod_sqrt] is not part of the
    sources; the spec gives its contract, "returns a square root of
    [a mod p] or fails if [a] is a non-residue".  Which of the two roots
    comes back is left open, so the curve code takes the function as a
    parameter of this class; [mod_sqrt_search] below is one instance. *)
Class ModSqrt := { mod_sqrt : Z -> Z -> result Z }.

Fixpoint sqrt_search (fuel : nat) (y a p : Z) : result Z :=
  match fuel with
  | O => Raise ValueError
  | S fuel' =>
      if (y * y) mod p =? a mod p then Ok y
      else sqrt_search fuel' (y + 1) a p
  end.

(** The least square root, by exhaustive search: an executable instance
    of the contract for small moduli. *)
Definition mod_sqrt_search : ModSqrt :=
  {| mod_sqrt := fun a p => sqrt_search (Z.to_nat p) 0 a p |}.

(** Modelled from the spec: [numbertheory.legendre_symbol] is not part
    of the sources; the spec has it return a value in [{-1, 0, 1}] and
    says no more, so the curve code takes the function as a parameter of
    this class. *)
Class Legendre := { legendre_symbol : Z -> Z -> result Z }.

End NumberTheory.
Export NumberTheory.

(** ** Python floats (IEEE-754 binary64, round to nearest, ties to even) *)

Module PyFloat.

Definition prec : Z := 53.
Definition emax : Z := 1024.

Definition float := spec_float.

(** A result that does not fit ends the computation with
    [OverflowError]: the conversion and the true division raise it
    themselves; a product or sum yields an infinity, on which the [int()]
    that follows raises it; the code handles neither.  [int()] of a NaN
    is a [ValueError]. *)
Definition finite_or_overflow (f : float) : result float :=
  match f with
  | S754_infinity _ => Raise OverflowError
  | S754_nan => Raise ValueError
  | _ => Ok f
  end.

(** [float(z)]: the nearest double; "int too large to convert to float"
    is an [OverflowError]. *)
Definition of_int (z : Z) : result float :=
  finite_or_overflow (binary_normalize prec emax z 0 false).

(** [math.sqrt(z)] for an integer argument: the argument is converted
    first; a negative argument is a [ValueError] (math domain error). *)
Definition sqrt (z : Z) : result float :=
  x <- of_int z ;;
  if z <? 0 then Raise ValueError
  else Ok (SFsqrt prec emax x).

(** [k * x] for an integer [k] and a float [x]. *)
Definition int_mul (k : Z) (x : float) : result float :=
  kf <- of_int k ;;
  finite_or_overflow (SFmul prec emax kf x).

Definition add (x y : float) : result float :=
  finite_or_overflow (SFadd prec emax x y).

(** [a / b] for two integers (true division): CPython returns the
    correctly rounded quotient, whatever the size of the operands.  The
    quotient is computed here with at least 56 significant bits and a
    sticky bit, and then rounded once. *)
Definition true_div (a b : Z) : result float :=
  if b =? 0 then Raise ZeroDivisionError
  else if a =? 0 then Ok (S754_zero false)
  else
    let neg := xorb (a <? 0) (b <? 0) in
    let a' := Z.abs a in
    let b' := Z.abs b in
    let k := Z.max 0 (57 + Z.log2 b' - Z.log2 a') in
    let num := a' * 2 ^ k in
    let q := num / b' in
    let sticky := if num mod b' =? 0 then 0 else 1 in
    let m := 2 * q + sticky in
    finite_or_overflow
      (binary_normalize prec emax (if neg then - m else m) (- (k + 1)) false).

(** [int(x)]: truncation towards zero. *)
Definition to_int (x : float) : result Z :=
  match x with
  | S754_zero _ => Ok 0
  | S754_finite s m e =>
      let mag := if 0 <=? e then Z.pos m * 2 ^ e else Z.pos m / 2 ^ (- e) in
      Ok (if s then - mag else mag)
  | S754_infinity _ => Raise OverflowError
  | S754_nan => Raise ValueError
  end.

End PyFloat.

(** ** alias.py *)

Definition Point : Type := Z * Z.
Definition JacPoint : Type := Z * Z * Z.

(** Modelled from the spec: [alias.INF] and [alias.INFJ] are not part of
    the sources.  The spec fixes what the code tests: an affine pair with
    [y = 0] denotes Infinity, and [Z = 0] denotes Infinity in Jacobian
    coordinates; the other coordinates of the two constants are left
    open and are parameters here. *)
Class Alias := { INF_x : Z; INFJ_x : Z; INFJ_y : Z }.

Definition INF {alias : Alias} : Point := (INF_x, 0).
Definition INFJ {alias : Alias} : JacPoint := (INFJ_x, INFJ_y, 0).

(** The test the code applies to an affine point: [Q[1] == 0]. *)
Definition is_inf (Q : Point) : bool := snd Q =? 0.

(** ** curve.py *)

Definition jac_x (Q : JacPoint) : Z := fst (fst Q).
Definition jac_y (Q : JacPoint) : Z := snd (fst Q).
Definition jac_z (Q : JacPoint) : Z := snd Q.

Definition _jac_from_aff (Q : Point) : JacPoint :=
  (fst Q, snd Q, if snd Q =? 0 then 0 else 1).

Module Curve.

(** The attributes of a [Curve] object. *)
Record t : Type := mk {
  sec_bits : Z;
  psize : Z;
  pIsThreeModFour : bool;
  _p : Z;
  _a : Z;
  _b : Z;
  G : Point;
  GJ : JacPoint;
  n : Z;
  nlen : Z;
  nsize : Z;
  h : Z
}.

Section Methods.
Context {alias : Alias} {number_theory : ModSqrt}.
Variable self : t.

Definition _y2 (x : Z) : Z :=
  ((x * x + _a self) * x + _b self) mod _p self.

(** [len(Q) != 2] cannot hold for a pair. *)
Definition is_on_curve (Q : Point) : result bool :=
  if snd Q =? 0 then Ok true
  else
    raise_if (negb ((0 <? snd Q) && (snd Q <? _p self))) ValueError ;;;
    Ok (_y2 (fst Q) =? (snd Q * snd Q) mod _p self).

Definition require_on_curve (Q : Point) : result unit :=
  r <- is_on_curve Q ;;
  raise_if (negb r) ValueError.

(** The last two assignments of [_add_aff], from the slope [lam]. *)
Definition chord (lam : Z) (Q R : Point) : Point :=
  let x := (lam * lam - fst Q - fst R) mod _p self in
  let y := (lam * (fst Q - x) - snd Q) mod _p self in
  (x, y).

Definition _add_aff (Q R : Point) : result Point :=
  if snd R =? 0 then Ok Q
  else if snd Q =? 0 then Ok R
  else if fst R =? fst Q then
    if snd R =? snd Q then
      i <- mod_inv (2 * snd Q) (_p self) ;;
      let lam := (3 * fst Q * fst Q + _a self) * i in
      let lam := lam mod _p self in
      Ok (chord lam Q R)
    else Ok INF
  else
    i <- mod_inv (fst R - fst Q) (_p self) ;;
    let lam := ((snd R - snd Q) * i) mod _p self in
    Ok (chord lam Q R).

(** The body of [while m > 0] in [_mult_aff], by recursion on the binary
    digits of [m]: [m & 1] is the last digit and [m >> 1] drops it.  The
    doubling of [Q] is evaluated in the last round as well. *)
Fixpoint mult_loop (m : positive) (R Q : Point) : result Point :=
  match m with
  | xH =>
      R' <- _add_aff R Q ;;
      _add_aff Q Q ;;;
      Ok R'
  | xO m' =>
      Q' <- _add_aff Q Q ;;
      mult_loop m' R Q'
  | xI m' =>
      R' <- _add_aff R Q ;;
      Q' <- _add_aff Q Q ;;
      mult_loop m' R' Q'
  end.

Definition _mult_aff (m : Z) (Q : Point) : result Point :=
  let m := m mod n self in
  if (m =? 0) || (snd Q =? 0) then Ok INF
  else match m with
       | Z.pos m' => mult_loop m' INF Q
       | _ => Ok INF
       end.

(** [Q = None] selects the generator. *)
Definition mult (m : Z) (Q : option Point) : result Point :=
  match Q with
  | None => _mult_aff m (G self)
  | Some Q => require_on_curve Q ;;; _mult_aff m Q
  end.

Definition opposite (Q : Point) : result Point :=
  require_on_curve Q ;;;
  Ok (fst Q, (_p self - snd Q) mod _p self).

Definition _aff_from_jac (Q : JacPoint) : result Point :=
  if jac_z Q =? 0 then Ok INF
  else
    let Z2 := jac_z Q * jac_z Q in
    i2 <- mod_inv Z2 (_p self) ;;
    let x := (jac_x Q * i2) mod _p self in
    i3 <- mod_inv (Z2 * jac_z Q) (_p self) ;;
    let y := (jac_y Q * i3) mod _p self in
    Ok (x, y).

Definition add (Q1 Q2 : Point) : result Point :=
  require_on_curve Q1 ;;;
  require_on_curve Q2 ;;;
  _add_aff Q1 Q2.

Definition _add_jac (Q R : JacPoint) : JacPoint :=
  let p := _p self in
  if jac_z Q =? 0 then R
  else if jac_z R =? 0 then Q
  else
    let RZ2 := jac_z R * jac_z R in
    let RZ3 := RZ2 * jac_z R in
    let QZ2 := jac_z Q * jac_z Q in
    let QZ3 := QZ2 * jac_z Q in
    if (jac_x Q * RZ2) mod p =? (jac_x R * QZ2) mod p then
      if (jac_y Q * RZ3) mod p =? (jac_y R * QZ3) mod p then
        let QY2 := jac_y Q * jac_y Q in
        let W := (3 * jac_x Q * jac_x Q + _a self * QZ2 * QZ2) mod p in
        let V := (4 * jac_x Q * QY2) mod p in
        let X := (W * W - 2 * V) mod p in
        let Y := (W * (V - X) - 8 * QY2 * QY2) mod p in
        let Z := (2 * jac_y Q * jac_z Q) mod p in
        (X, Y, Z)
      else INFJ
    else
      let T := (jac_y Q * RZ3) mod p in
      let U := (jac_y R * QZ3) mod p in
      let W := (U - T) mod p in
      let M := (jac_x Q * RZ2) mod p in
      let N := (jac_x R * QZ2) mod p in
      let V := (N - M) mod p in
      let V2 := V * V in
      let V3 := V2 * V in
      let MV2 := M * V2 in
      let X := (W * W - V3 - 2 * MV2) mod p in
      let Y := (W * (MV2 - X) - T * V3) mod p in
      let Z := (V * jac_z Q * jac_z R) mod p in
      (X, Y, Z).

Definition y (x : Z) : result Z :=
  raise_if (negb ((0 <=? x) && (x <? _p self))) ValueError ;;;
  let y2 := _y2 x in
  mod_sqrt y2 (_p self).

Definition y_odd (x : Z) (odd1even0 : Z) : result Z :=
  raise_if (negb ((odd1even0 =? 0) || (odd1even0 =? 1))) ValueError ;;;
  root <- y x ;;
  Ok (if root mod 2 =? odd1even0 then root else _p self - root).

End Methods.

(** The other methods of the class. *)
Section OtherMethods.
Context {alias : Alias} {number_theory : ModSqrt} {legendre : Legendre}.
Variable self : t.

Definition _x_aff_from_jac (Q : JacPoint) : result Z :=
  if jac_z Q =? 0 then Raise ValueError
  else
    let Z2 := jac_z Q * jac_z Q in
    i2 <- mod_inv Z2 (_p self) ;;
    Ok ((jac_x Q * i2) mod _p self).

Definition require_p_ThreeModFour : result unit :=
  raise_if (negb (pIsThreeModFour self)) ValueError.

(** [(self._p//2 >= root) == low1high0] compares a boolean with an
    integer: [True == 1] and [False == 0]. *)
Definition y_low (x : Z) (low1high0 : Z) : result Z :=
  raise_if (negb ((low1high0 =? 0) || (low1high0 =? 1))) ValueError ;;;
  root <- y self x ;;
  Ok (if Z.b2z (root <=? _p self / 2) =? low1high0 then root
      else _p self - root).

Definition y_quadratic_residue (x : Z) (quad_res : Z) : result Z :=
  raise_if (negb ((quad_res =? 0) || (quad_res =? 1))) ValueError ;;;
  require_p_ThreeModFour ;;;
  root <- y self x ;;
  l <- legendre_symbol root (_p self) ;;
  Ok (if l =? quad_res then root else _p self - root).

End OtherMethods.

(** [t_range] of the constructor. *)
Definition t_range : list Z := [56; 64; 80; 96; 112; 128; 160; 192; 256].

(** [delta = int(2 * sqrt(p))] *)
Definition hasse_delta (p : Z) : result Z :=
  s <- PyFloat.sqrt p ;;
  d <- PyFloat.int_mul 2 s ;;
  PyFloat.to_int d.

(** [exp_h = int(1/n + delta/n + p/n)], in floats, summed from the left. *)
Definition expected_h (p n delta : Z) : result Z :=
  x1 <- PyFloat.true_div 1 n ;;
  x2 <- PyFloat.true_div delta n ;;
  s12 <- PyFloat.add x1 x2 ;;
  x3 <- PyFloat.true_div p n ;;
  s <- PyFloat.add s12 x3 ;;
  PyFloat.to_int s.

(** [for i in range(1, 100): if pow(p, i, n) == 1: raise UserWarning]:
    [todo] rounds are left, the next exponent is [i]. *)
Fixpoint weak_loop (todo : nat) (i p n : Z) : result unit :=
  match todo with
  | O => Ok tt
  | S todo' =>
      v <- pow3 p i n ;;
      raise_if (v =? 1) UserWarning ;;;
      weak_loop todo' (i + 1) p n
  end.

Section Init.
Context {alias : Alias} {number_theory : ModSqrt}.

(** The object [__init__] builds from its arguments; every attribute is
    a function of the arguments, and the checks below read the
    attributes only after the constructor has assigned them. *)
Definition object (p a b : Z) (G : Point) (n h sec_bits : Z) : t :=
  let plen := bit_length p in
  let nlen := bit_length n in
  {| sec_bits := sec_bits;
     psize := (plen + 7) / 8;
     pIsThreeModFour := (p mod 4 =? 3);
     _p := p; _a := a; _b := b;
     G := G;
     GJ := (fst G, snd G, 1);
     n := n;
     nlen := nlen;
     nsize := (nlen + 7) / 8;
     h := h |}.

(** [Curve.__init__]: the checks in the order of the source; the result
    is the constructed object, or the exception of the first check that
    fails.  [pow(2, sec_bits/8)] is the float [2.0 ** (sec_bits / 8)];
    the assertion is reached with [sec_bits] in [t_range] only, all
    multiples of 8, where the power is the integer [2 ^ (sec_bits / 8)]
    exactly, and Python compares an integer with a float exactly. *)
Definition __init__ (p a b : Z) (G : Point) (n h sec_bits : Z)
    (weakness_check : bool) : result t :=
  let self := object p a b G n h sec_bits in
  (* 1) p is an odd prime *)
  raise_if (p mod 2 =? 0) ValueError ;;;
  f <- pow3 2 (p - 1) p ;;
  raise_if (negb (f =? 1)) ValueError ;;;
  (* 1) p has enough bits *)
  let plen := bit_length p in
  (if negb (sec_bits =? 0) then
     raise_if (negb (existsb (Z.eqb sec_bits) t_range)) UserWarning ;;;
     raise_if (plen <? sec_bits * 2) UserWarning
   else Ok tt) ;;;
  (* 2. a and b are in [0, p-1] *)
  raise_if (negb ((0 <=? a) && (a <? p))) ValueError ;;;
  raise_if (negb ((0 <=? b) && (b <? p))) ValueError ;;;
  (* 3. the discriminant *)
  let d := 4 * a * a * a + 27 * b * b in
  raise_if (d mod p =? 0) ValueError ;;;
  (* 4. the generator is on the curve *)
  on <- is_on_curve self G ;;
  raise_if (negb on) ValueError ;;;
  (* 5. n is prime *)
  n_bad <- (if n <? 2 then Ok true
            else if 2 <? n then
                   v <- pow3 2 (n - 1) n ;; Ok (negb (v =? 1))
                 else Ok false) ;;
  raise_if n_bad ValueError ;;;
  delta <- hasse_delta p ;;
  (if h <? 2 then
     raise_if (negb ((p + 1 - delta <=? n) && (n <=? p + 1 + delta)))
              ValueError
   else Ok tt) ;;;
  (* 6. the cofactor *)
  exp_h <- expected_h p n delta ;;
  raise_if (negb (h =? exp_h)) ValueError ;;;
  assert ((sec_bits =? 0) || (h <=? 2 ^ (sec_bits / 8))) ;;;
  (* 7. nG = INF *)
  InfMinusG <- _mult_aff self (n - 1) (Curve.G self) ;;
  Infinity <- add self InfMinusG (Curve.G self) ;;
  raise_if (negb (snd Infinity =? 0)) ValueError ;;;
  (* 8. n <> p, and the weak-curve screen *)
  assert (negb (n =? p)) ;;;
  (if weakness_check then weak_loop 99 1 p n else Ok tt) ;;;
  Ok self.

End Init.
End Curve.

(** ** ecdsa.py *)

Module Ecdsa.

(** The two collaborators the spec keeps opaque, and the digest function.
    The [Hash] argument of the source is passed on to them unchanged and
    is part of the instance here. *)
Class Collaborators := {
  Message : Type;
  HashDigest : Type;
  (** [Hash(M).digest()] *)
  digest : Message -> result HashDigest;
  (** [ecsignutils.int_from_hash(H, ec, Hash)] *)
  int_from_hash : HashDigest -> Curve.t -> result Z;
  (** [rfc6979.rfc6979(d, H, ec, Hash)] *)
  rfc6979 : Z -> HashDigest -> Curve.t -> result Z
}.

(** A DSA signature as the functions receive it: a tuple of integers of
    any length. *)
Definition ECDS : Type := list Z.

Section Functions.
Context {alias : Alias} {number_theory : ModSqrt} {env : Collaborators}.

(** Modelled from the spec: [ellipticcurves.int_from_Scalar] is not part
    of the sources; the spec has the scalar "reduced into range", that is
    modulo [n].  Octet-string scalars are outside the spec's scope. *)
Definition int_from_Scalar (ec : Curve.t) (d : Z) : result Z :=
  Ok (d mod Curve.n ec).

(** Modelled from the spec: [ellipticcurves.to_Point] is not part of the
    sources; the spec has the public point "validated to lie on curve".
    Encoded points are outside the spec's scope. *)
Definition to_Point (ec : Curve.t) (P : Point) : result Point :=
  Curve.require_on_curve ec P ;;;
  Ok P.

(** Modelled from the spec: [ellipticcurves.pointMultiply] is not part of
    the sources; it is the spec's scalar multiplication [mult(m, Q)],
    validated at the public entry point. *)
Definition pointMultiply (ec : Curve.t) (k : Z) (Q : Point) : result Point :=
  Curve.mult ec k (Some Q).

(** Modelled from the spec: [ellipticcurves.DoubleScalarMultiplication]
    is not part of the sources; the spec has [k1*Q1 + k2*Q2] "computed as
    two independent scalar multiplications and one addition, or via a
    combined double-scalar algorithm, numerically equivalent". *)
Definition DoubleScalarMultiplication (ec : Curve.t) (k1 : Z) (Q1 : Point)
    (k2 : Z) (Q2 : Point) : result Point :=
  P1 <- Curve.mult ec k1 (Some Q1) ;;
  P2 <- Curve.mult ec k2 (Some Q2) ;;
  Curve.add ec P1 P2.

Definition to_dsasig (dsasig : ECDS) (ec : Curve.t) : result (Z * Z) :=
  match dsasig with
  | [r; s] =>
      raise_if (negb ((0 <? r) && (r <? Curve.n ec))) ValueError ;;;
      raise_if (negb ((0 <? s) && (s <? Curve.n ec))) ValueError ;;;
      Ok (r, s)
  | _ => Raise TypeError
  end.

Definition _ecdsa_sign (H : HashDigest) (d : Z) (k : option Z)
    (ec : Curve.t) : result ECDS :=
  d <- int_from_Scalar ec d ;;
  raise_if (d =? 0) ValueError ;;;
  k <- match k with
       | None => rfc6979 d H ec
       | Some k => int_from_Scalar ec k
       end ;;
  R <- pointMultiply ec k (Curve.G ec) ;;
  raise_if (snd R =? 0) ValueError ;;;
  let xR := fst R in
  let r := xR mod Curve.n ec in
  raise_if (r =? 0) ValueError ;;;
  e <- int_from_hash H ec ;;
  k1 <- mod_inv k (Curve.n ec) ;;
  let s := (k1 * (e + r * d)) mod Curve.n ec in
  raise_if (s =? 0) ValueError ;;;
  Ok [r; s].

Definition ecdsa_sign (M : Message) (q : Z) (k : option Z) (ec : Curve.t)
  : result ECDS :=
  H <- digest M ;;
  _ecdsa_sign H q k ec.

Definition _ecdsa_verify (dsasig : ECDS) (H : HashDigest) (P : Point)
    (ec : Curve.t) : result bool :=
  rs <- to_dsasig dsasig ec ;;
  let r := fst rs in
  let s := snd rs in
  e <- int_from_hash H ec ;;
  P <- to_Point ec P ;;
  s1 <- mod_inv s (Curve.n ec) ;;
  let u1 := e * s1 in
  let u2 := r * s1 in
  R <- DoubleScalarMultiplication ec u1 (Curve.G ec) u2 P ;;
  if snd R =? 0 then Ok false
  else
    let xR := fst R in
    let v := xR mod Curve.n ec in
    Ok (v =? r).

Definition ecdsa_verify (dsasig : ECDS) (M : Message) (Q : Point)
    (ec : Curve.t) : result bool :=
  try_except
    (H <- digest M ;;
     _ecdsa_verify dsasig H Q ec)
    (Ok false).

(** Modelled from the spec: [EllipticCurve.yOdd] is not part of the
    sources.  [ecdsa.py] takes its curve from [ellipticcurves], whose
    class [EllipticCurve] is absent; the [Curve] of [curve.py] has the
    attributes [n] and [G] and the method [opposite] under the names
    [ecdsa.py] uses, but names the ordinate selector [y_odd], not [yOdd].
    The spec has the recovery build "R = (x, y_odd(x, 1))" at a valid
    abscissa and skip the others: [yOdd] is [Curve.y_odd].  On an object
    that lacks the method the call raises [AttributeError] in every
    round, the handler swallows it and the list stays empty. *)
Definition yOdd (ec : Curve.t) (x : Z) (odd1even0 : Z) : result Z :=
  Curve.y_odd ec x odd1even0.

(** One round of the [for j] loop of [_ecdsa_pubkey_recovery]: the [try]
    block appends to [keys] as it goes, and [except Exception: pass]
    keeps what was appended before the exception. *)
Definition recovery_round (ec : Curve.t) (r1s r1e x : Z)
    (keys : list Point) : list Point :=
  match yOdd ec x 1 with
  | Raise _ => keys
  | Ok yR =>
      let R := (x, yR) in
      match DoubleScalarMultiplication ec r1s R r1e (Curve.G ec) with
      | Raise _ => keys
      | Ok Q =>
          let keys := keys ++ [Q] in
          match Curve.opposite ec R with
          | Raise _ => keys
          | Ok R =>
              match DoubleScalarMultiplication ec r1s R r1e (Curve.G ec)
              with
              | Raise _ => keys
              | Ok Q => keys ++ [Q]
              end
          end
      end
  end.

Definition _ecdsa_pubkey_recovery (dsasig : ECDS) (H : HashDigest)
    (ec : Curve.t) : result (list Point) :=
  rs <- to_dsasig dsasig ec ;;
  let r := fst rs in
  let s := snd rs in
  e <- int_from_hash H ec ;;
  r1 <- mod_inv r (Curve.n ec) ;;
  let r1s := r1 * s in
  let r1e := - r1 * e in
  let keys := [] in
  let keys := recovery_round ec r1s r1e (r + 0 * Curve.n ec) keys in
  let keys := recovery_round ec r1s r1e (r + 1 * Curve.n ec) keys in
  Ok keys.

Definition ecdsa_pubkey_recovery (dsasig : ECDS) (M : Message)
    (ec : Curve.t) : result (list Point) :=
  H <- digest M ;;
  _ecdsa_pubkey_recovery dsasig H ec.

End Functions.
End Ecdsa.

(** ** Small instances, for evaluation *)

Module Toy.

(** The constants of [alias.py] as btclib has them. *)
Definition alias : Alias := {| INF_x := 7; INFJ_x := 7; INFJ_y := 0 |}.

(** Messages and digests are integers; the digest is the message itself,
    its integer is the digest modulo [n], and the nonce is a fixed
    function of the key and the digest with values in [[1, n-1]]. *)
Definition env : Ecdsa.Collaborators :=
  {| Ecdsa.Message := Z;
     Ecdsa.HashDigest := Z;
     Ecdsa.digest := fun M => Ok M;
     Ecdsa.int_from_hash := fun H ec => Ok (H mod Curve.n ec);
     Ecdsa.rfc6979 := fun d H ec => Ok (1 + (d + H) mod (Curve.n ec - 1)) |}.

(** The Legendre symbol by Euler's criterion. *)
Definition legendre : Legendre :=
  {| legendre_symbol := fun a p =>
       let l := a ^ ((p - 1) / 2) mod p in
       Ok (if l =? p - 1 then -1 else l) |}.

(** y^2 = x^3 + x + 6 over F_11: 13 points, cofactor 1. *)
Definition ec11 : Curve.t := Curve.object 11 1 6 (2, 4) 13 1 0.

(** y^2 = x^3 + x + 4 over F_29: 33 points, a subgroup of order 11,
    cofactor 3. *)
Definition ec29 : Curve.t := Curve.object 29 1 4 (3, 11) 11 3 0.

End Toy.

(** The domain parameters of secp256k1 (SEC 2), the default curve of
    [ecdsa.py], at the security level of 128 bits. *)
Module Secp256k1.

Definition p : Z := 2 ^ 256 - 2 ^ 32 - 977.
Definition a : Z := 0.
Definition b : Z := 7.
Definition G : Point :=
  (0x79BE667EF9DCBBAC55A06295CE870B07029BFCDB2DCE28D959F2815B16F81798,
   0x483ADA7726A3C4655DA4FBFC0E1108A8FD17B448A68554199C47D08FFB10D4B8).
Definition n : Z :=
  0xFFFFFFFFFFFFFFFFFFFFFFFFFFFFFFFEBAAEDCE6AF48A03BBFD25E8CD0364141.
Definition h : Z := 1.
Definition sec_bits : Z := 128.

Definition curve : Curve.t := Curve.object p a b G n h sec_bits.

End Secp256k1.

(** ** The integer reading of the cofactor check, in the spec's words *)

(** [floor(2 * sqrt p)], in integer arithmetic. *)
Definition spec_delta (p : Z) : Z := Z.sqrt (4 * p).

(** "the integer quotient implied by 1/n + delta/n + p/n (integer
    arithmetic)": the quotient of the sum of the numerators by [n]. *)
Definition spec_exp_h (p n : Z) : Z := (1 + spec_delta p + p) / n.

(** The same sum with every term divided separately. *)
Definition spec_exp_h_termwise (p n : Z) : Z :=
  1 / n + spec_delta p / n + p / n.

(** Two affine pairs denote the same point when they are equal or both
    are Infinity sentinels. *)
Definition same_point (A B : Point) : Prop :=
  A = B \/ (snd A = 0 /\ snd B = 0).

(** What [_ecdsa_pubkey_recovery] lists for the candidate abscissa [x]:
    a key computed from the point of odd ordinate over [x], or from its
    opposite. *)
Definition candidate {alias : Alias} {number_theory : ModSqrt}
    (ec : Curve.t) (r1s r1e x : Z) (Q : Point) : Prop :=
  exists yR,
    Ecdsa.yOdd ec x 1 = Ok yR /\
    (Ecdsa.DoubleScalarMultiplication ec r1s (x, yR) r1e (Curve.G ec) = Ok Q
     \/ exists R',
          Curve.opposite ec (x, yR) = Ok R' /\
          Ecdsa.DoubleScalarMultiplication ec r1s R' r1e (Curve.G ec) = Ok Q).

(** What one round of the loop of [_ecdsa_pubkey_recovery] appends for
    the abscissa [x]: nothing when [yOdd] or the first double
    multiplication raises; the first candidate alone when [opposite] or
    the second double multiplication raises; both candidates otherwise,
    in the order computed.  No candidate is compared with another one or
    with the Infinity point. *)
Inductive round_keys {alias : Alias} {number_theory : ModSqrt}
    (ec : Curve.t) (r1s r1e x : Z) : list Point -> Prop :=
| round_skipped :
    (forall yR Q,
        Ecdsa.yOdd ec x 1 = Ok yR ->
        Ecdsa.DoubleScalarMultiplication ec r1s (x, yR) r1e (Curve.G ec)
          <> Ok Q) ->
    round_keys ec r1s r1e x []
| round_one (yR : Z) (Q1 : Point) :
    Ecdsa.yOdd ec x 1 = Ok yR ->
    Ecdsa.DoubleScalarMultiplication ec r1s (x, yR) r1e (Curve.G ec)
      = Ok Q1 ->
    (forall R' Q2,
        Curve.opposite ec (x, yR) = Ok R' ->
        Ecdsa.DoubleScalarMultiplication ec r1s R' r1e (Curve.G ec)
          <> Ok Q2) ->
    round_keys ec r1s r1e x [Q1]
| round_two (yR : Z) (Q1 R' Q2 : Point) :
    Ecdsa.yOdd ec x 1 = Ok yR ->
    Ecdsa.DoubleScalarMultiplication ec r1s (x, yR) r1e (Curve.G ec)
      = Ok Q1 ->
    Curve.opposite ec (x, yR) = Ok R' ->
    Ecdsa.DoubleScalarMultiplication ec r1s R' r1e (Curve.G ec) = Ok Q2 ->
    round_keys ec r1s r1e x [Q1; Q2].

(** ** What a successful construction has checked *)

Record constructed {alias : Alias} (p a b : Z) (G : Point)
    (n h sec_bits : Z) (ec : Curve.t) : Prop := {
  c_object : ec = Curve.object p a b G n h sec_bits;
  c_p_odd : p mod 2 <> 0;
  c_p_fermat : pow3 2 (p - 1) p = Ok 1;
  c_a : 0 <= a < p;
  c_b : 0 <= b < p;
  c_disc : (4 * a * a * a + 27 * b * b) mod p <> 0;
  c_G : Curve.is_on_curve ec G = Ok true;
  c_n : 2 <= n;
  c_delta : exists delta,
      Curve.hasse_delta p = Ok delta /\
      (h < 2 -> p + 1 - delta <= n <= p + 1 + delta) /\
      Curve.expected_h p n delta = Ok h;
  c_sec : sec_bits = 0 \/ h <= 2 ^ (sec_bits / 8);
  c_order : exists InfMinusG Infinity,
      Curve._mult_aff ec (n - 1) G = Ok InfMinusG /\
      Curve.add ec InfMinusG G = Ok Infinity /\
      snd Infinity = 0;
  c_n_p : n <> p
}.

(** ** Arithmetic modulo a prime *)

(** Congruence modulo [m]. *)
Definition eqm (m x y : Z) : Prop := x mod m = y mod m.

(** The ring operations of the integers, with congruence modulo [m] as
    their equality. *)
Definition Zm_ops (m : Z) :
  @Ncring.Ring_ops Z 0 1 Z.add Z.mul Z.sub Z.opp (eqm m) :=
  @Ncring.Build_Ring_ops Z 0 1 Z.add Z.mul Z.sub Z.opp (eqm m).

(** [smooth2 fuel c]: [c] is, up to its sign, a power of 2. *)
Fixpoint smooth2 (fuel : nat) (c : Z) : bool :=
  match fuel with
  | O => false
  | S fuel' =>
      if Z.abs c =? 1 then true
      else if c =? 0 then false
      else if c mod 2 =? 0 then smooth2 fuel' (c / 2)
      else false
  end.

(** [smooth fuel c]: the prime factors of [c] are among 2, 3, 5, 7. *)
Fixpoint smooth (fuel : nat) (c : Z) : bool :=
  match fuel with
  | O => false
  | S fuel' =>
      if Z.abs c =? 1 then true
      else if c =? 0 then false
      else if c mod 2 =? 0 then smooth fuel' (c / 2)
      else if c mod 3 =? 0 then smooth fuel' (c / 3)
      else if c mod 5 =? 0 then smooth fuel' (c / 5)
      else if c mod 7 =? 0 then smooth fuel' (c / 7)
      else false
  end.

(** ** The points of a curve and their sums *)

Section PointNotions.
Context {alias : Alias}.
Variable ec : Curve.t.

(** The curve equation modulo [p]. *)
Definition on_eq (x y : Z) : Prop :=
  eqm (Curve._p ec) (y * y) (x * x * x + Curve._a ec * x + Curve._b ec).

(** A finite point as [is_on_curve] accepts it: the ordinate in
    [(0, p)], on the curve; the abscissa is not bounded. *)
Definition fin0 (P : Point) : Prop :=
  0 < snd P < Curve._p ec /\ on_eq (fst P) (snd P).

(** A finite point of the data model: the abscissa is reduced as well. *)
Definition fin (P : Point) : Prop := 0 <= fst P < Curve._p ec /\ fin0 P.

(** A point of the data model: the constant [INF] or a finite point. *)
Definition gp (P : Point) : Prop := P = INF \/ fin P.

(** How [_add_aff] computes the sum of two finite points: along the
    chord, along the tangent, or, for opposite points, Infinity. *)
Inductive add_case (P Q : Point) : Point -> Prop :=
| Chord (i lam x3 y3 : Z) :
    fst Q <> fst P ->
    eqm (Curve._p ec) ((fst Q - fst P) * i) 1 ->
    eqm (Curve._p ec) lam ((snd Q - snd P) * i) ->
    eqm (Curve._p ec) x3 (lam * lam - fst P - fst Q) ->
    eqm (Curve._p ec) y3 (lam * (fst P - x3) - snd P) ->
    fin (x3, y3) ->
    add_case P Q (x3, y3)
| Double (i lam x3 y3 : Z) :
    fst Q = fst P -> snd Q = snd P ->
    eqm (Curve._p ec) (2 * snd P * i) 1 ->
    eqm (Curve._p ec) lam ((3 * fst P * fst P + Curve._a ec) * i) ->
    eqm (Curve._p ec) x3 (lam * lam - fst P - fst Q) ->
    eqm (Curve._p ec) y3 (lam * (fst P - x3) - snd P) ->
    fin (x3, y3) ->
    add_case P Q (x3, y3)
| Opposite :
    fst Q = fst P ->
    eqm (Curve._p ec) (snd P + snd Q) 0 ->
    add_case P Q INF.

(** The sum [_add_aff] returns, as a total function. *)
Definition gadd (P Q : Point) : Point :=
  match Curve._add_aff ec P Q with
  | Ok R => R
  | Raise _ => INF
  end.

(** [k] times a point. *)
Fixpoint smul (k : nat) (P : Point) : Point :=
  match k with
  | O => INF
  | S k' => gadd P (smul k' P)
  end.

(** The pair [opposite] returns for a point. *)
Definition neg (P : Point) : Point :=
  (fst P, (Curve._p ec - snd P) mod Curve._p ec).

End PointNotions.

(** The residues modulo [p]. *)
Definition residues (p : Z) : list Z := map Z.of_nat (seq 0 (Z.to_nat p)).

(** [x^3 + a*x + b] has no root modulo [p], by enumeration. *)
Definition no_root_b (ec : Curve.t) : bool :=
  forallb (fun x => negb (Curve._y2 ec x =? 0)) (residues (Curve._p ec)).


(** The laws of an abelian group for [_add_aff] on the finite points of
    a curve: the sum of two of them is a finite point, or Infinity for
    opposite points; sums commute and associate. *)
Record group_laws {alias : Alias} (ec : Curve.t) : Prop := {
  gl_closed : forall P Q : Point,
    fin ec P -> fin ec Q ->
    exists R, Curve._add_aff ec P Q = Ok R /\
      (fin ec R \/ (fst Q = fst P /\ snd Q <> snd P /\ R = INF));
  gl_comm : forall P Q : Point,
    fin ec P -> fin ec Q ->
    Curve._add_aff ec P Q = Curve._add_aff ec Q P;
  gl_assoc : forall P1 P2 P3 S0 T0 : Point,
    fin ec P1 -> fin ec P2 -> fin ec P3 ->
    Curve._add_aff ec P1 P2 = Ok S0 ->
    Curve._add_aff ec P2 P3 = Ok T0 ->
    Curve._add_aff ec S0 P3 = Curve._add_aff ec P1 T0
}.

(** ** The laws over a small field, by enumeration *)

(** The curve of given [p], [a] and [b]; the other fields play no part
    in the sum of two points. *)
Definition curve_of (p a b : Z) : Curve.t := Curve.object p a b (0, 0) 0 0 0.

(** A finite point of the data model, decided. *)
Definition fin_b (ec : Curve.t) (P : Point) : bool :=
  (0 <=? fst P) && (fst P <? Curve._p ec) &&
  ((0 <? snd P) && (snd P <? Curve._p ec)) &&
  ((snd P * snd P) mod Curve._p ec =?
   (fst P * fst P * fst P + Curve._a ec * fst P + Curve._b ec)
     mod Curve._p ec).

(** The finite points of a curve. *)
Definition points (ec : Curve.t) : list Point :=
  filter (fin_b ec)
    (list_prod (residues (Curve._p ec)) (residues (Curve._p ec))).

Definition point_eqb (P Q : Point) : bool :=
  (fst P =? fst Q) && (snd P =? snd Q).

(** Two calls return the same point. *)
Definition result_eqb (r1 r2 : result Point) : bool :=
  match r1, r2 with
  | Ok P, Ok Q => point_eqb P Q
  | _, _ => false
  end.

Section Enumeration.
Context {alias : Alias}.
Variable ec : Curve.t.

Definition closed_b : bool :=
  forallb (fun P => forallb (fun Q =>
    match Curve._add_aff ec P Q with
    | Ok R => fin_b ec R ||
              ((fst Q =? fst P) && negb (snd Q =? snd P) && point_eqb R INF)
    | Raise _ => false
    end) (points ec)) (points ec).

Definition comm_b : bool :=
  forallb (fun P => forallb (fun Q =>
    result_eqb (Curve._add_aff ec P Q) (Curve._add_aff ec Q P))
    (points ec)) (points ec).

Definition assoc_b : bool :=
  forallb (fun P1 => forallb (fun P2 => forallb (fun P3 =>
    match Curve._add_aff ec P1 P2, Curve._add_aff ec P2 P3 with
    | Ok S0, Ok T0 =>
        result_eqb (Curve._add_aff ec S0 P3) (Curve._add_aff ec P1 T0)
    | _, _ => false
    end) (points ec)) (points ec)) (points ec).

Definition laws_b : bool := closed_b && comm_b && assoc_b.

End Enumeration.

(** Every curve over the field of [p] elements that has no point with
    [y = 0] obeys the laws. *)
Definition field_laws_b (p : Z) : bool :=
  forallb (fun a => forallb (fun b =>
    implb (no_root_b (curve_of p a b))
          (laws_b (alias := Toy.alias) (curve_of p a b)))
    (residues p)) (residues p).

(** Two results of [_add_aff] under two values of the Infinity constant:
    the same point, or two Infinity sentinels. *)
Definition sim (P Q : Point) : Prop := P = Q \/ (snd P = 0 /\ snd Q = 0).

Definition rsim (r1 r2 : result Point) : Prop :=
  match r1, r2 with
  | Ok P, Ok Q => sim P Q
  | Raise _, Raise _ => True
  | _, _ => False
  end.

(** The contract the spec gives for [mod_sqrt] at the modulus [p]: a
    value it returns is a square root of [a], reduced modulo [p], and it
    returns one whenever [a] has a square root. *)
Definition mod_sqrt_contract (number_theory : ModSqrt) (p : Z) : Prop :=
  forall a,
    (forall r, mod_sqrt a p = Ok r ->
               0 <= r < p /\ (r * r) mod p = a mod p) /\
    ((exists r, (r * r) mod p = a mod p) -> exists r, mod_sqrt a p = Ok r).
(** * Properties *)

(** ** The result monad *)

Lemma bind_ok {A B : Type} (c : result A) (k : A -> result B) (b : B) :
  bind c k = Ok b -> exists a, c = Ok a /\ k a = Ok b.
Proof.
  destruct c as [a|e]; simpl; intros E; [exists a; auto | discriminate].
Qed.

Lemma raise_if_ok (c : bool) (e : exn) (u : unit) :
  raise_if c e = Ok u -> c = false.
Proof. destruct c; simpl; [discriminate | reflexivity]. Qed.

Lemma try_except_ok {A : Type} (body : result A) (a : A) :
  try_except body (Ok a) = Ok (match body with Ok x => x | Raise _ => a end).
Proof. destruct body; reflexivity. Qed.

(** One step through a sequence of checks that ended well. *)
Ltac ok_step H :=
  match type of H with
  | bind (raise_if ?c ?e) _ = Ok _ =>
      let E := fresh "E" in
      destruct c eqn:E; [discriminate H | cbn [raise_if bind] in H]
  | bind ?c _ = Ok _ =>
      let E := fresh "E" in
      destruct c eqn:E; [cbn [bind] in H | discriminate H]
  end.

(** Named variants of [ok_step]. *)
Ltac ok_bind H x E :=
  match type of H with
  | bind ?c _ = Ok _ =>
      destruct c as [x|] eqn:E; [cbn [bind] in H | discriminate H]
  end.

Ltac ok_check H E :=
  match type of H with
  | bind (raise_if ?c ?e) _ = Ok _ =>
      destruct c eqn:E; [discriminate H | cbn [raise_if bind] in H]
  end.

(** Boolean tests of the source as propositions. *)
Ltac b2p :=
  repeat match goal with
  | H : negb _ = true |- _ => apply negb_true_iff in H
  | H : negb _ = false |- _ => apply negb_false_iff in H
  | H : andb _ _ = true |- _ => apply andb_true_iff in H; destruct H
  | H : orb _ _ = false |- _ => apply orb_false_iff in H; destruct H
  | H : orb _ _ = true |- _ => apply orb_true_iff in H
  | H : (_ =? _) = true |- _ => apply Z.eqb_eq in H
  | H : (_ =? _) = false |- _ => apply Z.eqb_neq in H
  | H : (_ <? _) = true |- _ => apply Z.ltb_lt in H
  | H : (_ <? _) = false |- _ => apply Z.ltb_ge in H
  | H : (_ <=? _) = true |- _ => apply Z.leb_le in H
  | H : (_ <=? _) = false |- _ => apply Z.leb_gt in H
  end.

(** ** The checks of the constructor, read back *)

Section Constructed.
Context {alias : Alias}.

Lemma init_constructed p a b G n h sec_bits weakness_check ec :
  Curve.__init__ p a b G n h sec_bits weakness_check = Ok ec ->
  constructed p a b G n h sec_bits ec.
Proof.
  unfold Curve.__init__, assert. intros H.
  repeat ok_step H. injection H as <-.
  assert (Hn : 2 <= n).
  { match goal with
    | E : (if n <? 2 then _ else _) = Ok false |- _ =>
        destruct (n <? 2) eqn:En; [discriminate E | b2p; lia]
    end. }
  assert (Hh : forall delta, (if h <? 2 then
            raise_if (negb ((p + 1 - delta <=? n) && (n <=? p + 1 + delta)))
              ValueError else Ok tt) = Ok tt ->
            h < 2 -> p + 1 - delta <= n <= p + 1 + delta).
  { intros delta Ed Hlt. apply Z.ltb_lt in Hlt. rewrite Hlt in Ed.
    apply raise_if_ok in Ed. b2p. lia. }
  repeat match goal with u : unit |- _ => destruct u end.
  b2p. subst.
  split; try assumption; try lia; try reflexivity.
  - eexists; repeat split; try eassumption; apply Hh; eassumption.
  - do 2 eexists; repeat split; eassumption.
Qed.

End Constructed.

(** ** Claims that follow from the control flow *)

Section ControlFlow.
Context {alias : Alias} {number_theory : ModSqrt} {env : Ecdsa.Collaborators}.

(** C10: for every integer [x], [is_on_curve] answers [True] on the pair
    [(x, 0)], whatever the curve: the test [Q[1] == 0] returns before the
    curve equation is looked at. *)
Theorem is_on_curve_zero_ordinate (ec : Curve.t) (x : Z) :
  Curve.is_on_curve ec (x, 0) = Ok true.
Proof. reflexivity. Qed.

(** C2: [ecdsa_verify] returns a boolean for every signature, message,
    point and curve and never raises: it returns what [_ecdsa_verify]
    returns, and [False] when the digest or [_ecdsa_verify] raises. *)
Theorem ecdsa_verify_never_raises (dsasig : Ecdsa.ECDS)
    (M : Ecdsa.Message) (Q : Point) (ec : Curve.t) :
  Ecdsa.ecdsa_verify dsasig M Q ec =
  Ok match (H <- Ecdsa.digest M ;; Ecdsa._ecdsa_verify dsasig H Q ec) with
     | Ok b => b
     | Raise _ => false
     end.
Proof. unfold Ecdsa.ecdsa_verify. apply try_except_ok. Qed.

Lemma mult_n_G (ec : Curve.t) :
  Curve.mult ec (Curve.n ec) None = Ok INF.
Proof.
  unfold Curve.mult, Curve._mult_aff.
  rewrite Z_mod_same_full. reflexivity.
Qed.

(** C6: a construction that succeeds has computed [(n-1)G] by scalar
    multiplication, added [G] once and found the Infinity point; and for
    the constructed curve [mult(n, G)] is Infinity. *)
Theorem order_check_at_construction (p a b : Z) (G : Point)
    (n h sec_bits : Z) (weakness_check : bool) (ec : Curve.t) :
  Curve.__init__ p a b G n h sec_bits weakness_check = Ok ec ->
  (exists InfMinusG Infinity,
      Curve._mult_aff ec (Curve.n ec - 1) (Curve.G ec) = Ok InfMinusG /\
      Curve.add ec InfMinusG (Curve.G ec) = Ok Infinity /\
      is_inf Infinity = true) /\
  Curve.mult ec (Curve.n ec) None = Ok INF.
Proof.
  intros H. destruct (init_constructed _ _ _ _ _ _ _ _ _ H)
    as [-> _ _ _ _ _ _ _ _ _ (M & I & HM & HI & Hy) _].
  split; [|apply mult_n_G].
  exists M, I. cbn [Curve.n Curve.G Curve.object].
  repeat split; try assumption.
  unfold is_inf. apply Z.eqb_eq. assumption.
Qed.

Lemma is_on_curve_true (ec : Curve.t) (P : Point) :
  Curve.is_on_curve ec P = Ok true ->
  snd P = 0 \/
  (0 < snd P < Curve._p ec /\
   Curve._y2 ec (fst P) = (snd P * snd P) mod Curve._p ec).
Proof.
  unfold Curve.is_on_curve. destruct (snd P =? 0) eqn:E0; b2p; [auto|].
  intros H. ok_step H. injection H as H. b2p. right. split; [lia|assumption].
Qed.

Lemma require_on_curve_ok (ec : Curve.t) (P : Point) :
  Curve.is_on_curve ec P = Ok true -> Curve.require_on_curve ec P = Ok tt.
Proof. unfold Curve.require_on_curve. intros ->. reflexivity. Qed.

(** C8: on a constructed curve, for every point [P] that [is_on_curve]
    accepts, [add(P, opposite(P))] is the Infinity point (its ordinate is
    0, and it is the constant [INF] when [P] is not itself Infinity), and
    [add(P, INF)] is [P]. *)
Theorem add_opposite_and_infinity (p a b : Z) (G : Point)
    (n h sec_bits : Z) (weakness_check : bool) (ec : Curve.t) (P : Point) :
  Curve.__init__ p a b G n h sec_bits weakness_check = Ok ec ->
  Curve.is_on_curve ec P = Ok true ->
  (exists P' S,
      Curve.opposite ec P = Ok P' /\
      Curve.add ec P P' = Ok S /\
      is_inf S = true /\
      (is_inf P = false -> S = INF)) /\
  Curve.add ec P INF = Ok P.
Proof.
  intros Hinit HP.
  destruct (init_constructed _ _ _ _ _ _ _ _ _ Hinit)
    as [Hobj Hodd _ _ _ _ _ _ _ _ _ _].
  assert (Hp : Curve._p ec = p) by (subst ec; reflexivity).
  pose proof (require_on_curve_ok _ _ HP) as HR.
  split.
  2:{ unfold Curve.add. rewrite HR. reflexivity. }
  destruct P as [x y]. unfold Curve.opposite. rewrite HR.
  cbn [bind fst snd].
  destruct (is_on_curve_true _ _ HP) as [Hy|[Hy Heq]]; cbn [fst snd] in *.
  - subst y. rewrite Z.sub_0_r, Z_mod_same_full.
    exists (x, 0), (x, 0). unfold Curve.add. rewrite HR.
    repeat split; try reflexivity. discriminate.
  - rewrite Hp in *.
    assert (Hm : (p - y) mod p = p - y) by (apply Z.mod_small; lia).
    rewrite Hm.
    assert (HP' : Curve.is_on_curve ec (x, p - y) = Ok true).
    { unfold Curve.is_on_curve. cbn [fst snd].
      destruct (p - y =? 0) eqn:E; [reflexivity|].
      rewrite Hp.
      replace (negb ((0 <? p - y) && (p - y <? p))) with false.
      2:{ symmetry. apply negb_false_iff, andb_true_iff.
          split; apply Z.ltb_lt; lia. }
      cbn [raise_if bind]. f_equal. apply Z.eqb_eq.
      rewrite Heq.
      replace ((p - y) * (p - y)) with (y * y + (p - 2 * y) * p) by ring.
      symmetry. apply Z_mod_plus_full. }
    exists (x, p - y), INF. unfold Curve.add. rewrite HR.
    rewrite (require_on_curve_ok _ _ HP'). cbn [bind].
    unfold Curve._add_aff. cbn [fst snd].
    replace (p - y =? 0) with false by (symmetry; apply Z.eqb_neq; lia).
    replace (y =? 0) with false by (symmetry; apply Z.eqb_neq; lia).
    rewrite Z.eqb_refl.
    replace (p - y =? y) with false.
    2:{ symmetry. apply Z.eqb_neq. intros E. apply Hodd.
        replace p with (y * 2) by lia. apply Z_mod_mult. }
    repeat split; reflexivity.
Qed.

End ControlFlow.

(** ** The modular inverse *)

Lemma mod_inv_ok (a m i : Z) :
  mod_inv a m = Ok i -> 0 <= i < m /\ (a * i) mod m = 1 mod m.
Proof.
  unfold mod_inv. destruct (m <=? 0) eqn:Em; [discriminate|].
  destruct (Z.gcd a m =? 1) eqn:Eg; [|discriminate].
  intros E. injection E as <-. b2p. split.
  - rewrite <- Z.mod_invmod. apply Z.mod_pos_bound. lia.
  - rewrite Z.mul_comm. apply Z.invmod_coprime'. exact Eg.
Qed.

Lemma mod_inv_coprime (a m : Z) :
  0 < m -> Z.gcd a m = 1 -> mod_inv a m = Ok (Z.invmod a m).
Proof.
  intros Hm Hg. unfold mod_inv.
  replace (m <=? 0) with false by (symmetry; apply Z.leb_gt; lia).
  rewrite Hg. reflexivity.
Qed.

Lemma mod_inv_prime (a m : Z) :
  Z.prime m -> a mod m <> 0 ->
  exists i, mod_inv a m = Ok i /\ 0 <= i < m /\ (a * i) mod m = 1.
Proof.
  intros Hm Ha. pose proof (Z.prime_ge_2 _ Hm) as H2.
  assert (Hg : Z.gcd a m = 1).
  { rewrite Z.gcd_comm. apply Z.coprime_prime_l; [assumption|].
    intros D. apply Ha. apply Z.mod0_divide; assumption. }
  exists (Z.invmod a m). rewrite (mod_inv_coprime a m) by (assumption || lia).
  destruct (mod_inv_ok a m _ (mod_inv_coprime a m ltac:(lia) Hg)) as [Hr He].
  rewrite Z.mod_1_l in He by lia. auto.
Qed.

(** ** Public-key recovery: what the list holds *)

Section Recovery.
Context {alias : Alias} {number_theory : ModSqrt} {env : Ecdsa.Collaborators}.

Lemma recovery_round_spec (ec : Curve.t) (r1s r1e x : Z)
    (keys : list Point) :
  exists new,
    Ecdsa.recovery_round ec r1s r1e x keys = keys ++ new /\
    round_keys ec r1s r1e x new.
Proof.
  unfold Ecdsa.recovery_round.
  destruct (Ecdsa.yOdd ec x 1) as [yR|] eqn:Ey.
  2:{ exists []. rewrite app_nil_r. split; [reflexivity|].
      apply round_skipped. congruence. }
  destruct (Ecdsa.DoubleScalarMultiplication ec r1s (x, yR) r1e (Curve.G ec))
    as [Q1|] eqn:E1.
  2:{ exists []. rewrite app_nil_r. split; [reflexivity|].
      apply round_skipped. congruence. }
  destruct (Curve.opposite ec (x, yR)) as [R'|] eqn:Eo.
  2:{ exists [Q1]. split; [reflexivity|].
      apply (round_one ec r1s r1e x yR Q1 Ey E1). congruence. }
  destruct (Ecdsa.DoubleScalarMultiplication ec r1s R' r1e (Curve.G ec))
    as [Q2|] eqn:E2.
  2:{ exists [Q1]. split; [reflexivity|].
      apply (round_one ec r1s r1e x yR Q1 Ey E1). congruence. }
  exists [Q1; Q2]. rewrite <- app_assoc. split; [reflexivity|].
  exact (round_two ec r1s r1e x yR Q1 R' Q2 Ey E1 Eo E2).
Qed.

(** A round appends at most two keys, each of them a candidate. *)
Lemma round_keys_candidates (ec : Curve.t) (r1s r1e x : Z)
    (new : list Point) :
  round_keys ec r1s r1e x new ->
  (length new <= 2)%nat /\
  forall Q, In Q new -> candidate ec r1s r1e x Q.
Proof.
  intros [Hno | yR Q1 Hy H1 Hno | yR Q1 R' Q2 Hy H1 Ho H2]; simpl;
    (split; [lia|]); unfold candidate.
  - tauto.
  - intros Q [<-|[]]. exists yR. auto.
  - intros Q [<-|[<-|[]]]; exists yR; split; auto.
    right. exists R'. auto.
Qed.

(** What a round appends is determined by what it computes. *)
Lemma round_keys_functional (ec : Curve.t) (r1s r1e x : Z)
    (l l' : list Point) :
  round_keys ec r1s r1e x l -> round_keys ec r1s r1e x l' -> l = l'.
Proof.
  intros [Hno | yR Q1 Hy H1 Hno | yR Q1 R' Q2 Hy H1 Ho H2]
         [Hno' | yR' Q1' Hy' H1' Hno' | yR' Q1' R'' Q2' Hy' H1' Ho' H2'];
    try reflexivity;
    try (exfalso; eapply Hno; eassumption);
    try (exfalso; eapply Hno'; eassumption);
    rewrite Hy in Hy'; injection Hy' as <-.
  - congruence.
  - exfalso. eapply Hno; eassumption.
  - exfalso. eapply Hno'; eassumption.
  - rewrite Ho in Ho'. injection Ho' as <-. congruence.
Qed.

(** C4, as the code has it: for every signature [(r, s)] with [r] and
    [s] in [[1, n-1]] and every digest that [int_from_hash] accepts, on a
    curve of prime order [n], recovery returns a list of at most 4
    candidate points: what the round of the abscissa [r] computes,
    followed by what the round of [r + n] computes.  A round whose
    abscissa [yOdd] rejects adds nothing; the other rounds add every
    candidate they compute, in the order computed: equal candidates are
    not merged and the Infinity point is not dropped. *)
Theorem pubkey_recovery_candidates (r s : Z) (H : Ecdsa.HashDigest)
    (ec : Curve.t) (e : Z) :
  0 < r < Curve.n ec ->
  0 < s < Curve.n ec ->
  Ecdsa.int_from_hash H ec = Ok e ->
  Z.prime (Curve.n ec) ->
  exists r1 keys0 keys1,
    mod_inv r (Curve.n ec) = Ok r1 /\
    Ecdsa._ecdsa_pubkey_recovery [r; s] H ec = Ok (keys0 ++ keys1) /\
    round_keys ec (r1 * s) (- r1 * e) r keys0 /\
    round_keys ec (r1 * s) (- r1 * e) (r + Curve.n ec) keys1 /\
    (length (keys0 ++ keys1) <= 4)%nat /\
    forall Q, In Q (keys0 ++ keys1) ->
      candidate ec (r1 * s) (- r1 * e) r Q \/
      candidate ec (r1 * s) (- r1 * e) (r + Curve.n ec) Q.
Proof.
  intros Hr Hs He Hn.
  destruct (mod_inv_prime r (Curve.n ec) Hn) as (r1 & Hr1 & _ & _).
  { rewrite Z.mod_small; lia. }
  unfold Ecdsa._ecdsa_pubkey_recovery, Ecdsa.to_dsasig.
  replace (negb ((0 <? r) && (r <? Curve.n ec))) with false.
  2:{ symmetry. apply negb_false_iff, andb_true_iff.
      split; apply Z.ltb_lt; lia. }
  replace (negb ((0 <? s) && (s <? Curve.n ec))) with false.
  2:{ symmetry. apply negb_false_iff, andb_true_iff.
      split; apply Z.ltb_lt; lia. }
  cbn [raise_if bind fst snd]. rewrite He, Hr1. cbn [bind].
  replace (r + 0 * Curve.n ec) with r by ring.
  replace (r + 1 * Curve.n ec) with (r + Curve.n ec) by ring.
  destruct (recovery_round_spec ec (r1 * s) (- r1 * e) r [])
    as (new0 & -> & K0).
  destruct (recovery_round_spec ec (r1 * s) (- r1 * e) (r + Curve.n ec)
              ([] ++ new0)) as (new1 & -> & K1).
  destruct (round_keys_candidates _ _ _ _ _ K0) as [L0 C0].
  destruct (round_keys_candidates _ _ _ _ _ K1) as [L1 C1].
  exists r1, new0, new1. split; [reflexivity|]. split; [reflexivity|].
  split; [assumption|]. split; [assumption|].
  rewrite length_app. split; [lia|].
  intros Q HQ. apply in_app_or in HQ. destruct HQ; auto.
Qed.

End Recovery.

(** ** The cofactor check *)

(** What the constructor has checked of the cofactor when it succeeds:
    [h] is [int(1/n + delta/n + p/n)] as the double-precision operations
    of the source evaluate it, with [delta = int(2 * sqrt(p))], and
    [h <= 2 ^ (sec_bits / 8)] when [sec_bits] is not 0. *)
Lemma cofactor_check_at_construction {alias : Alias} (p a b : Z)
    (G : Point) (n h sec_bits : Z) (weakness_check : bool) (ec : Curve.t) :
  Curve.__init__ p a b G n h sec_bits weakness_check = Ok ec ->
  (exists delta,
      Curve.hasse_delta p = Ok delta /\
      Curve.expected_h p n delta = Ok h) /\
  (sec_bits <> 0 -> h <= 2 ^ (sec_bits / 8)).
Proof.
  intros H. destruct (init_constructed _ _ _ _ _ _ _ _ _ H)
    as [_ _ _ _ _ _ _ _ (delta & Hd & _ & He) Hs _ _].
  split; [exists delta; auto|]. intros Hn. destruct Hs; [contradiction|assumption].
Qed.

(** ** Evaluations on small curves *)

Section Evaluations.
#[local] Existing Instance Toy.alias.
#[local] Existing Instance mod_sqrt_search.
#[local] Existing Instance Toy.env.

Lemma ec11_constructed :
  Curve.__init__ 11 1 6 (2, 4) 13 1 0 false = Ok Toy.ec11.
Proof. vm_compute. reflexivity. Qed.

Lemma ec29_constructed :
  Curve.__init__ 29 1 4 (3, 11) 11 3 0 false = Ok Toy.ec29.
Proof. vm_compute. reflexivity. Qed.

(** C5, evaluated on the curve [y^2 = x^3 + 1] over the Mersenne prime
    [p = 2^61 - 1] with the generator [(0, 1)], a point of order 3:
    [floor(2 sqrt p)] is 3037000499 and the quotient of
    [1 + 3037000499 + p] by [n = 3] in integer arithmetic is
    768614337416898150 (768614337416898149 when each term is divided
    separately).  The double-precision sum of the source is
    768614337416898048: the constructor accepts that cofactor and
    rejects the integer quotient. *)
Theorem cofactor_check_rounds_in_floats :
  let p := 2 ^ 61 - 1 in
  let ec := Curve.object p 0 1 (0, 1) 3 768614337416898048 0 in
  spec_delta p = 3037000499 /\
  spec_exp_h p 3 = 768614337416898150 /\
  spec_exp_h_termwise p 3 = 768614337416898149 /\
  Curve.hasse_delta p = Ok 3037000499 /\
  Curve.expected_h p 3 3037000499 = Ok 768614337416898048 /\
  Curve.__init__ p 0 1 (0, 1) 3 768614337416898048 0 false = Ok ec /\
  Curve.__init__ p 0 1 (0, 1) 3 768614337416898150 0 false
    = Raise ValueError /\
  Curve.__init__ p 0 1 (0, 1) 3 768614337416898149 0 false
    = Raise ValueError /\
  Curve._y2 ec 0 = (1 * 1) mod p /\
  Curve.mult ec 1 None = Ok (0, 1) /\
  Curve.mult ec 2 None = Ok (0, p - 1) /\
  Curve.mult ec 3 None = Ok INF.
Proof. vm_compute. repeat split; reflexivity. Qed.

(** A second input on which the two computations part: with a 57-bit
    prime [p] and a prime [n] just above half of
    [p + 1 + floor(2 sqrt p)], the exact quotient is [2 - 2/n]; the
    construction succeeds with [h = 2], while the quotient in integer
    arithmetic is 1, whether the sum or each term is divided. *)
Lemma cofactor_check_is_not_integer_arithmetic :
  let p := 72057594037928339 in
  let n := 36028797287399627 in
  is_ok (Curve.__init__ p 0 7 (7, 0) n 2 0 true) = true /\
  spec_exp_h p n = 1 /\
  spec_exp_h_termwise p n = 1.
Proof. vm_compute. repeat split; reflexivity. Qed.

(** C3, evaluated on a curve of cofactor 3 (order 33, [n = 11]): the
    signature of the digest 3 with the key 1 is [(5, 6)]; it verifies
    against the public key [1 * G = (3, 11)]; the nonce point is
    [5 * G = (27, 9)], whose abscissa 27 is neither [r = 5] nor
    [r + n = 16]; recovery returns the empty list. *)
Theorem recovery_misses_key_on_cofactor_3 :
  Ecdsa._ecdsa_sign (3 : Z) 1 None Toy.ec29 = Ok [5; 6] /\
  Ecdsa.pointMultiply Toy.ec29 1 (Curve.G Toy.ec29) = Ok (3, 11) /\
  Ecdsa._ecdsa_verify [5; 6] (3 : Z) (3, 11) Toy.ec29 = Ok true /\
  Ecdsa.pointMultiply Toy.ec29 5 (Curve.G Toy.ec29) = Ok (27, 9) /\
  Ecdsa._ecdsa_pubkey_recovery [5; 6] (3 : Z) Toy.ec29 = Ok [].
Proof. vm_compute. repeat split; reflexivity. Qed.

(** C4, the claim as stated fails: with [yOdd] as the spec has it, on
    the curve of cofactor 3 the well-formed signature [(3, 5)] of the
    digest 2 yields a list in which both candidates occur twice; on the
    curve of cofactor 1 the signature [(2, 1)] of the digest 12 yields a
    list that holds the Infinity point. *)
Lemma recovery_keeps_duplicates_and_infinity :
  Ecdsa.to_dsasig [3; 5] Toy.ec29 = Ok (3, 5) /\
  Ecdsa._ecdsa_pubkey_recovery [3; 5] (2 : Z) Toy.ec29 =
    Ok [(3, 11); (27, 9); (3, 11); (27, 9)] /\
  ~ NoDup [(3, 11); (27, 9); (3, 11); (27, 9)] /\
  Ecdsa.to_dsasig [2; 1] Toy.ec11 = Ok (2, 1) /\
  Ecdsa._ecdsa_pubkey_recovery [2; 1] (12 : Z) Toy.ec11 =
    Ok [INF; (2, 4)].
Proof.
  repeat split; try (vm_compute; reflexivity).
  intros N. inversion N as [|? ? N1 N2]. apply N1. simpl. auto.
Qed.

(** C7, the claim as stated fails: on the curve of cofactor 3 the point
    [(17, 2)] is on the curve and is not Infinity, [3 mod 11] is not 0,
    and [mult(3, (17, 2))] is the Infinity point. *)
Lemma mult_infinity_for_point_of_order_3 :
  Curve.is_on_curve Toy.ec29 (17, 2) = Ok true /\
  is_inf (17, 2) = false /\
  3 mod Curve.n Toy.ec29 <> 0 /\
  Curve.mult Toy.ec29 3 (Some (17, 2)) = Ok INF.
Proof. vm_compute. repeat split; try reflexivity. discriminate. Qed.

(** C9, evaluated on the curve over F_11: [is_on_curve] does not bound
    the abscissa, so it accepts [(13, 4)] as it accepts [(2, 4)]; the
    affine addition compares the abscissas as integers, takes the chord
    and raises (it inverts 11 modulo 11); the Jacobian addition compares
    them modulo [p] and doubles, and the conversion returns [(5, 9)],
    which is what both paths return for [(2, 4) + (2, 4)]. *)
Theorem jacobian_differs_on_unreduced_abscissa :
  Curve.is_on_curve Toy.ec11 (2, 4) = Ok true /\
  Curve.is_on_curve Toy.ec11 (13, 4) = Ok true /\
  Curve._add_aff Toy.ec11 (2, 4) (13, 4) = Raise ValueError /\
  Curve._aff_from_jac Toy.ec11
    (Curve._add_jac Toy.ec11 (_jac_from_aff (2, 4)) (_jac_from_aff (13, 4)))
  = Ok (5, 9) /\
  Curve._add_aff Toy.ec11 (2, 4) (2, 4) = Ok (5, 9) /\
  Curve._aff_from_jac Toy.ec11
    (Curve._add_jac Toy.ec11 (_jac_from_aff (2, 4)) (_jac_from_aff (2, 4)))
  = Ok (5, 9).
Proof. vm_compute. repeat split; reflexivity. Qed.

End Evaluations.

(** ** Small primes *)

Lemma prime_11 : Z.prime 11.
Proof.
  split; [lia|]. intros d Hd [k Hk].
  assert (d = 2 \/ d = 3 \/ d = 4 \/ d = 5 \/ d = 6 \/ d = 7 \/ d = 8 \/
          d = 9 \/ d = 10) as Hc by lia.
  repeat (destruct Hc as [->|Hc]; [lia|]). subst d. lia.
Qed.

Lemma prime_13 : Z.prime 13.
Proof.
  split; [lia|]. intros d Hd [k Hk].
  assert (d = 2 \/ d = 3 \/ d = 4 \/ d = 5 \/ d = 6 \/ d = 7 \/ d = 8 \/
          d = 9 \/ d = 10 \/ d = 11 \/ d = 12) as Hc by lia.
  repeat (destruct Hc as [->|Hc]; [lia|]). subst d. lia.
Qed.

(** ** Instances of the theorems above *)

Section Witnesses.
#[local] Existing Instance Toy.alias.
#[local] Existing Instance mod_sqrt_search.
#[local] Existing Instance Toy.env.

Lemma order_check_at_construction_witness :
  Curve.__init__ (alias := Toy.alias) 11 1 6 (2, 4) 13 1 0 false
    = Ok Toy.ec11 /\
  ((exists InfMinusG Infinity,
      Curve._mult_aff (alias := Toy.alias) Toy.ec11
        (Curve.n Toy.ec11 - 1) (Curve.G Toy.ec11) = Ok InfMinusG /\
      Curve.add Toy.ec11 InfMinusG (Curve.G Toy.ec11) = Ok Infinity /\
      is_inf Infinity = true) /\
   Curve.mult (alias := Toy.alias) Toy.ec11 (Curve.n Toy.ec11) None
     = Ok INF).
Proof.
  split; [vm_compute; reflexivity|].
  apply (order_check_at_construction (alias := Toy.alias)
           11 1 6 (2, 4) 13 1 0 false Toy.ec11).
  vm_compute; reflexivity.
Defined.

Lemma add_opposite_and_infinity_witness :
  (exists P' S,
      Curve.opposite Toy.ec11 (2, 4) = Ok P' /\
      Curve.add (alias := Toy.alias) Toy.ec11 (2, 4) P' = Ok S /\
      is_inf S = true /\
      (is_inf (2, 4) = false -> S = INF)) /\
  Curve.add (alias := Toy.alias) Toy.ec11 (2, 4) INF = Ok (2, 4).
Proof.
  apply (add_opposite_and_infinity (alias := Toy.alias)
           11 1 6 (2, 4) 13 1 0 false Toy.ec11 (2, 4));
    vm_compute; reflexivity.
Defined.

Lemma pubkey_recovery_candidates_witness :
  exists r1 keys0 keys1,
    mod_inv 2 (Curve.n Toy.ec11) = Ok r1 /\
    Ecdsa._ecdsa_pubkey_recovery [2; 1] (12 : Z) Toy.ec11
      = Ok (keys0 ++ keys1) /\
    round_keys (alias := Toy.alias) (number_theory := mod_sqrt_search)
      Toy.ec11 (r1 * 1) (- r1 * 12) 2 keys0 /\
    round_keys (alias := Toy.alias) (number_theory := mod_sqrt_search)
      Toy.ec11 (r1 * 1) (- r1 * 12) (2 + Curve.n Toy.ec11) keys1 /\
    (length (keys0 ++ keys1) <= 4)%nat /\
    forall Q, In Q (keys0 ++ keys1) ->
      candidate (alias := Toy.alias) (number_theory := mod_sqrt_search)
        Toy.ec11 (r1 * 1) (- r1 * 12) 2 Q \/
      candidate (alias := Toy.alias) (number_theory := mod_sqrt_search)
        Toy.ec11 (r1 * 1) (- r1 * 12) (2 + Curve.n Toy.ec11) Q.
Proof.
  apply (pubkey_recovery_candidates (alias := Toy.alias)
           (number_theory := mod_sqrt_search) (env := Toy.env)
           2 1 (12 : Z) Toy.ec11 12).
  - vm_compute. split; reflexivity.
  - vm_compute. split; reflexivity.
  - vm_compute. reflexivity.
  - exact prime_13.
Defined.

End Witnesses.

(** ** Integers modulo a prime, as an integral domain *)

Section Modulus.
Variable m : Z.
Hypothesis prime_m : Z.prime m.

Notation eqm := (eqm m).

Lemma modulus_pos : 0 < m.
Proof. pose proof (Z.prime_ge_2 _ prime_m). lia. Qed.

Lemma eqm_equiv : Equivalence eqm.
Proof. unfold eqm; split; red; intros; congruence. Qed.

Lemma eqm_add x x' y y' : eqm x x' -> eqm y y' -> eqm (x + y) (x' + y').
Proof.
  unfold eqm; intros E1 E2.
  rewrite Z.add_mod, E1, E2, <- Z.add_mod; auto; pose proof modulus_pos; lia.
Qed.

Lemma eqm_mul x x' y y' : eqm x x' -> eqm y y' -> eqm (x * y) (x' * y').
Proof.
  unfold eqm; intros E1 E2.
  rewrite Z.mul_mod, E1, E2, <- Z.mul_mod; auto; pose proof modulus_pos; lia.
Qed.

Lemma eqm_opp x x' : eqm x x' -> eqm (- x) (- x').
Proof.
  intros E. replace (- x) with ((-1) * x) by ring.
  replace (- x') with ((-1) * x') by ring.
  apply eqm_mul; [reflexivity | assumption].
Qed.

Lemma eqm_sub x x' y y' : eqm x x' -> eqm y y' -> eqm (x - y) (x' - y').
Proof. intros. unfold Z.sub. apply eqm_add; [|apply eqm_opp]; assumption. Qed.

Lemma eqm_of_eq x y : x = y -> eqm x y.
Proof. intros ->; reflexivity. Qed.

Lemma eqm_mod x : eqm (x mod m) x.
Proof. unfold eqm. apply Z.mod_mod. pose proof modulus_pos; lia. Qed.

Lemma eqm_reduced x y : 0 <= x < m -> 0 <= y < m -> eqm x y -> x = y.
Proof. unfold eqm. intros Hx Hy. rewrite !Z.mod_small by assumption. auto. Qed.

Lemma eqm_0 x : eqm x 0 <-> x mod m = 0.
Proof. unfold eqm. rewrite Zmod_0_l. tauto. Qed.

Lemma eqm_1 x : eqm x 1 <-> x mod m = 1.
Proof.
  unfold eqm. rewrite Z.mod_1_l; [tauto|].
  pose proof (Z.prime_ge_2 _ prime_m). lia.
Qed.

Lemma neq_mod (x y : Z) :
  0 <= x < m -> 0 <= y < m -> x <> y -> (x - y) mod m <> 0.
Proof.
  intros Hx Hy Hn E. apply Hn. apply eqm_reduced; try assumption.
  unfold eqm. apply Z.mod_divide in E; [|lia]. destruct E as [k Hk].
  replace x with (y + k * m) by lia. apply Z_mod_plus_full.
Qed.

Lemma inv_exists (x : Z) :
  x mod m <> 0 -> exists i, mod_inv x m = Ok i /\ eqm (x * i) 1.
Proof.
  intros Hx. destruct (mod_inv_prime x m prime_m Hx) as (i & Hi & _ & E).
  exists i. split; [assumption|]. apply eqm_1. assumption.
Qed.

Lemma Zm_ring : @Ncring.Ring Z 0 1 Z.add Z.mul Z.sub Z.opp eqm (Zm_ops m).
Proof.
  split; try exact eqm_equiv.
  - intros x x' E y y' E'; apply eqm_add; assumption.
  - intros x x' E y y' E'; apply eqm_mul; assumption.
  - intros x x' E y y' E'; apply eqm_sub; assumption.
  - intros x x' E; apply eqm_opp; assumption.
  - intros; apply eqm_of_eq; cbv -[Z.add Z.mul Z.sub Z.opp]; ring.
  - intros; apply eqm_of_eq; cbv -[Z.add Z.mul Z.sub Z.opp]; ring.
  - intros; apply eqm_of_eq; cbv -[Z.add Z.mul Z.sub Z.opp]; ring.
  - intros; apply eqm_of_eq; cbv -[Z.add Z.mul Z.sub Z.opp]; ring.
  - intros; apply eqm_of_eq; cbv -[Z.add Z.mul Z.sub Z.opp]; ring.
  - intros; apply eqm_of_eq; cbv -[Z.add Z.mul Z.sub Z.opp]; ring.
  - intros; apply eqm_of_eq; cbv -[Z.add Z.mul Z.sub Z.opp]; ring.
  - intros; apply eqm_of_eq; cbv -[Z.add Z.mul Z.sub Z.opp]; ring.
  - intros; apply eqm_of_eq; cbv -[Z.add Z.mul Z.sub Z.opp]; ring.
  - intros; apply eqm_of_eq; cbv -[Z.add Z.mul Z.sub Z.opp]; ring.
Qed.

Lemma Zm_cring :
  @Cring.Cring Z 0 1 Z.add Z.mul Z.sub Z.opp eqm (Zm_ops m) Zm_ring.
Proof. intros x y; apply eqm_of_eq; cbv -[Z.add Z.mul Z.sub Z.opp]; ring. Qed.

Lemma one_neq_zero : ~ eqm 1 0.
Proof.
  rewrite eqm_0. pose proof (Z.prime_ge_2 _ prime_m).
  rewrite Z.mod_1_l by lia. discriminate.
Qed.

Lemma eqm_integral (x y : Z) : eqm (x * y) 0 -> eqm x 0 \/ eqm y 0.
Proof.
  pose proof modulus_pos. intros Hxy. apply eqm_0 in Hxy.
  apply Z.mod_divide in Hxy; [|lia].
  destruct (proj1 (Z.divide_prime_mul _ _ _ prime_m) Hxy) as [D|D];
    [left|right]; apply eqm_0; apply Z.mod0_divide; assumption.
Qed.

Lemma Zm_domain :
  @Integral_domain.Integral_domain Z 0 1 Z.add Z.mul Z.sub Z.opp eqm
    (Zm_ops m) Zm_ring Zm_cring.
Proof. split; [exact eqm_integral | exact one_neq_zero]. Qed.

(** Integers whose prime factors are among 2, 3, 5 and 7 are not 0
    modulo a larger prime. *)
Lemma smooth_nonzero (fuel : nat) (c : Z) :
  7 < m -> smooth fuel c = true -> ~ eqm c 0.
Proof.
  intros Hm. pose proof modulus_pos as Hp.
  revert c. induction fuel as [|fuel IH]; intros c; simpl; [discriminate|].
  destruct (Z.abs c =? 1) eqn:E1; b2p.
  { intros _ E. apply eqm_0 in E. apply Z.mod_divide in E; [|lia].
    apply Z.divide_abs_r in E. rewrite E1 in E.
    apply Z.divide_1_r in E. lia. }
  destruct (c =? 0) eqn:E0; [discriminate|].
  assert (step : forall q, 1 < q <= 7 -> c mod q = 0 ->
            smooth fuel (c / q) = true -> ~ eqm c 0).
  { intros q Hq Hc Hs E. apply (IH _ Hs). apply eqm_0. apply eqm_0 in E.
    apply Z.mod_divide in E; [|lia].
    apply Z.mod0_divide.
    rewrite (Z.div_mod c q) in E by lia. rewrite Hc, Z.add_0_r in E.
    destruct (proj1 (Z.divide_prime_mul _ _ _ prime_m) E) as [D|D];
      [|assumption].
    apply Z.divide_pos_le in D; lia. }
  destruct (c mod 2 =? 0) eqn:E2; b2p; [apply (step 2); lia|].
  destruct (c mod 3 =? 0) eqn:E3; b2p; [apply (step 3); lia|].
  destruct (c mod 5 =? 0) eqn:E5; b2p; [apply (step 5); lia|].
  destruct (c mod 7 =? 0) eqn:E7; b2p; [apply (step 7); lia|].
  discriminate.
Qed.

(** Powers of 2 are not 0 modulo an odd prime. *)
Lemma smooth2_nonzero (fuel : nat) (c : Z) :
  2 < m -> smooth2 fuel c = true -> ~ eqm c 0.
Proof.
  intros Hm. pose proof modulus_pos as Hp.
  revert c. induction fuel as [|fuel IH]; intros c; simpl; [discriminate|].
  destruct (Z.abs c =? 1) eqn:E1; b2p.
  { intros _ E. apply eqm_0 in E. apply Z.mod_divide in E; [|lia].
    apply Z.divide_abs_r in E. rewrite E1 in E.
    apply Z.divide_1_r in E. lia. }
  destruct (c =? 0) eqn:E0; [discriminate|].
  destruct (c mod 2 =? 0) eqn:E2; b2p; [|discriminate].
  intros Hs E. apply (IH _ Hs). apply eqm_0. apply eqm_0 in E.
  apply Z.mod_divide in E; [|lia].
  apply Z.mod0_divide.
  rewrite (Z.div_mod c 2) in E by lia. rewrite E2, Z.add_0_r in E.
  destruct (proj1 (Z.divide_prime_mul _ _ _ prime_m) E) as [D|D];
    [|assumption].
  apply Z.divide_pos_le in D; lia.
Qed.

Lemma unit_nonzero (c : Z) : Z.abs c = 1 -> ~ eqm c 0.
Proof.
  intros E1 E. pose proof modulus_pos. apply eqm_0 in E.
  apply Z.mod_divide in E; [|lia].
  apply Z.divide_abs_r in E. rewrite E1 in E.
  apply Z.divide_1_r in E. pose proof (Z.prime_ge_2 _ prime_m). lia.
Qed.

End Modulus.

(** The side condition of the polynomial solver: its constant is not 0. *)
Ltac mod_discriminate m :=
  match goal with
  | |- ~ Algebra_syntax.equality ?t _ =>
      let v := eval cbv in t in
      change (~ eqm m v 0);
      first [ apply unit_nonzero; [assumption | reflexivity]
            | apply (smooth2_nonzero m ltac:(assumption) 64);
              [assumption | vm_compute; reflexivity]
            | apply (smooth_nonzero m ltac:(assumption) 64);
              [assumption | vm_compute; reflexivity] ]
  end.

(** Polynomial identities modulo [m], from the congruences modulo [m] in
    the context. *)
Ltac mod_nsatz m :=
  repeat match goal with
  | H : eqm m ?u ?v |- _ =>
      change (@Algebra_syntax.equality Z
                (@Ncring.eq_notation Z _ _ _ _ _ _ _ (Zm_ops m)) u v) in H
  end;
  match goal with
  | |- eqm m ?u ?v =>
      change (@Algebra_syntax.equality Z
                (@Ncring.eq_notation Z _ _ _ _ _ _ _ (Zm_ops m)) u v)
  end;
  NsatzTactic.nsatz_default; mod_discriminate m.

(** ** The group law of [_add_aff] *)

Section CurveLaw.
Context {alias : Alias}.
Variable ec : Curve.t.
Notation p := (Curve._p ec).
Notation a := (Curve._a ec).
Notation b := (Curve._b ec).
Notation n := (Curve.n ec).
Notation eqp := (eqm (Curve._p ec)).
Notation on_eq := (on_eq ec).
Notation fin0 := (fin0 ec).
Notation fin := (fin ec).
Notation gp := (gp ec).
Notation add_case := (add_case ec).
Notation gadd := (gadd ec).
Notation smul := (smul ec).
Notation neg := (neg ec).

(** The field prime is an odd prime. *)
Hypothesis prime_p : Z.prime p.
Hypothesis p_gt_2 : 2 < p.

#[local] Instance p_ring :
  @Ncring.Ring Z 0 1 Z.add Z.mul Z.sub Z.opp eqp (Zm_ops p) :=
  Zm_ring p prime_p.
#[local] Instance p_cring :
  @Cring.Cring Z 0 1 Z.add Z.mul Z.sub Z.opp eqp (Zm_ops p) p_ring :=
  Zm_cring p prime_p.
#[local] Instance p_domain :
  @Integral_domain.Integral_domain Z 0 1 Z.add Z.mul Z.sub Z.opp eqp
    (Zm_ops p) p_ring p_cring :=
  Zm_domain p prime_p.

(** Polynomial identities modulo the field prime. *)
Ltac p_nsatz := mod_nsatz (Curve._p ec).

Lemma y2_eqp (x : Z) : eqp (Curve._y2 ec x) (x * x * x + a * x + b).
Proof.
  unfold Curve._y2. etransitivity; [apply eqm_mod; assumption|].
  apply eqm_of_eq. ring.
Qed.

Lemma on_curve_fin0 (P : Point) :
  Curve.is_on_curve ec P = Ok true -> snd P <> 0 -> fin0 P.
Proof.
  intros H Hy. destruct (is_on_curve_true _ _ H) as [|[Hr E]]; [contradiction|].
  split; [assumption|]. unfold on_eq.
  etransitivity; [|apply y2_eqp]. rewrite E. symmetry. apply eqm_mod.
  assumption.
Qed.

Lemma fin0_on_curve (P : Point) : fin0 P -> Curve.is_on_curve ec P = Ok true.
Proof.
  intros (Hy & E). unfold Curve.is_on_curve.
  replace (snd P =? 0) with false by (symmetry; apply Z.eqb_neq; lia).
  replace (negb ((0 <? snd P) && (snd P <? p))) with false.
  2:{ symmetry. apply negb_false_iff, andb_true_iff.
      split; apply Z.ltb_lt; lia. }
  cbn [raise_if bind]. f_equal. apply Z.eqb_eq.
  unfold on_eq in E. pose proof (y2_eqp (fst P)) as E'.
  unfold Curve._y2 in *. unfold eqm in *.
  rewrite Z.mod_mod in E' by lia. congruence.
Qed.

Lemma gp_on_curve (P : Point) : gp P -> Curve.is_on_curve ec P = Ok true.
Proof. intros [->|[_ F]]; [reflexivity | apply fin0_on_curve; assumption]. Qed.

Lemma gp_inf (P : Point) : gp P -> snd P = 0 -> P = INF.
Proof. intros [->|(_ & Hy & _)] E; [reflexivity | lia]. Qed.

Lemma two_y_invertible (y : Z) : 0 < y < p -> (2 * y) mod p <> 0.
Proof.
  intros Hy E. apply Z.mod_divide in E; [|lia].
  destruct (proj1 (Z.divide_prime_mul 2 y p prime_p) E) as [D|D];
    apply Z.divide_pos_le in D; lia.
Qed.

Lemma add_inf_r (P : Point) : Curve._add_aff ec P INF = Ok P.
Proof. reflexivity. Qed.

Lemma add_inf_l (P : Point) : snd P <> 0 -> Curve._add_aff ec INF P = Ok P.
Proof.
  intros Hy. unfold Curve._add_aff.
  replace (snd P =? 0) with false by (symmetry; apply Z.eqb_neq; lia).
  reflexivity.
Qed.

Lemma fin_y (P : Point) : fin P -> snd P <> 0.
Proof. intros (_ & Hy & _). lia. Qed.

Lemma point_eq (x y x' y' : Z) :
  fin (x, y) -> fin (x', y') -> eqp x x' -> eqp y y' ->
  @Ok Point (x, y) = Ok (x', y').
Proof.
  intros (Hx & Hy & _) (Hx' & Hy' & _) Ex Ey. cbn [fst snd] in *.
  f_equal. f_equal; apply (eqm_reduced p); auto; lia.
Qed.

Lemma fin_yinv (x y : Z) : fin (x, y) -> exists j, eqp (y * j) 1.
Proof.
  intros (_ & Hy & _). cbn [fst snd] in Hy.
  destruct (inv_exists p prime_p y) as (j & _ & Ej); [|eauto].
  rewrite Z.mod_small; lia.
Qed.

(** *** Abscissas that are not reduced *)

Lemma mod_inv_mod (x : Z) : mod_inv (x mod p) p = mod_inv x p.
Proof.
  unfold mod_inv. rewrite Z.gcd_mod_l, Z.invmod_mod_l. reflexivity.
Qed.

Lemma fin0_reduce (P : Point) : fin0 P -> fin (fst P mod p, snd P).
Proof.
  intros (Hy & E). pose proof (modulus_pos p prime_p) as Hp.
  split; cbn [fst snd]; [apply Z.mod_pos_bound; lia|].
  split; cbn [fst snd]; [assumption|].
  unfold on_eq in *. assert (Ex := eqm_mod p prime_p (fst P)).
  set (x' := fst P mod p) in *. clearbody x'. p_nsatz.
Qed.

(** The tangent at a finite point only depends on the abscissa modulo
    [p]. *)
Lemma double_reduce (P : Point) :
  snd P <> 0 ->
  Curve._add_aff ec P P =
  Curve._add_aff ec (fst P mod p, snd P) (fst P mod p, snd P).
Proof.
  destruct P as [x y]. cbn [fst snd]. intros Hy.
  unfold Curve._add_aff. cbn [fst snd].
  replace (y =? 0) with false by (symmetry; apply Z.eqb_neq; lia).
  rewrite !Z.eqb_refl.
  destruct (mod_inv (2 * y) p) as [i|]; [|reflexivity]. cbn [bind].
  apply f_equal. unfold Curve.chord. cbn [fst snd].
  assert (Ex := eqm_mod p prime_p x).
  set (x' := x mod p) in *. clearbody x'.
  assert (El : ((3 * x * x + a) * i) mod p = ((3 * x' * x' + a) * i) mod p).
  { change (eqp ((3 * x * x + a) * i) ((3 * x' * x' + a) * i)). p_nsatz. }
  rewrite <- El. set (lam := ((3 * x * x + a) * i) mod p). clearbody lam.
  assert (EX : (lam * lam - x - x) mod p = (lam * lam - x' - x') mod p).
  { change (eqp (lam * lam - x - x) (lam * lam - x' - x')). p_nsatz. }
  rewrite <- EX. set (X := (lam * lam - x - x) mod p). clearbody X.
  apply f_equal.
  change (eqp (lam * (x - X) - y) (lam * (x' - X) - y)). p_nsatz.
Qed.

(** So does the chord from a point of the data model. *)
Lemma chord_reduce (P Q : Point) :
  snd P <> 0 -> snd Q <> 0 -> 0 <= fst P < p ->
  (fst Q - fst P) mod p <> 0 ->
  Curve._add_aff ec P Q = Curve._add_aff ec P (fst Q mod p, snd Q).
Proof.
  destruct P as [x1 y1], Q as [x2 y2]. cbn [fst snd]. intros Hy1 Hy2 Hx1 Hd.
  pose proof (modulus_pos p prime_p) as Hp.
  unfold Curve._add_aff. cbn [fst snd].
  replace (y2 =? 0) with false by (symmetry; apply Z.eqb_neq; lia).
  replace (y1 =? 0) with false by (symmetry; apply Z.eqb_neq; lia).
  replace (x2 =? x1) with false.
  2:{ symmetry. apply Z.eqb_neq. intros ->. apply Hd.
      rewrite Z.sub_diag. apply Zmod_0_l. }
  replace (x2 mod p =? x1) with false.
  2:{ symmetry. apply Z.eqb_neq. intros E. apply Hd.
      rewrite <- Zminus_mod_idemp_l, E, Z.sub_diag. apply Zmod_0_l. }
  rewrite <- (mod_inv_mod (x2 mod p - x1)), Zminus_mod_idemp_l, mod_inv_mod.
  destruct (mod_inv (x2 - x1) p) as [i|]; [|reflexivity]. cbn [bind].
  apply f_equal. unfold Curve.chord. cbn [fst snd].
  rewrite Zminus_mod_idemp_r. reflexivity.
Qed.


(** *** The sum as a total function, and multiples *)

(** [_add_aff] obeys the group laws on the finite points; the laws are
    proved below, for large fields by polynomial arithmetic and for small
    ones by enumeration. *)
Hypothesis laws : group_laws ec.

Lemma add_gp (P Q : Point) :
  gp P -> gp Q -> Curve._add_aff ec P Q = Ok (gadd P Q) /\ gp (gadd P Q).
Proof.
  unfold gadd. intros [->|FP] [->|FQ].
  - rewrite add_inf_r. split; [reflexivity | left; reflexivity].
  - rewrite (add_inf_l _ (fin_y _ FQ)).
    split; [reflexivity | right; assumption].
  - rewrite add_inf_r. split; [reflexivity | right; assumption].
  - destruct (gl_closed _ laws _ _ FP FQ) as (R & -> & C).
    split; [reflexivity|].
    destruct C as [F|(_ & _ & ->)]; [right; assumption | left; reflexivity].
Qed.

Lemma add_ok (P Q : Point) :
  gp P -> gp Q -> Curve._add_aff ec P Q = Ok (gadd P Q).
Proof. intros HP HQ. apply (add_gp P Q HP HQ). Qed.

Lemma gadd_gp (P Q : Point) : gp P -> gp Q -> gp (gadd P Q).
Proof. intros HP HQ. apply (add_gp P Q HP HQ). Qed.

Lemma gadd_inf_r (P : Point) : gadd P INF = P.
Proof. reflexivity. Qed.

Lemma gadd_inf_l (P : Point) : gp P -> gadd INF P = P.
Proof.
  intros [->|FP]; [reflexivity|]. unfold gadd.
  rewrite (add_inf_l _ (fin_y _ FP)). reflexivity.
Qed.

Lemma gadd_comm (P Q : Point) : gp P -> gp Q -> gadd P Q = gadd Q P.
Proof.
  intros [->|FP] [->|FQ].
  - reflexivity.
  - rewrite gadd_inf_r, gadd_inf_l; [reflexivity | right; assumption].
  - rewrite gadd_inf_r, gadd_inf_l; [reflexivity | right; assumption].
  - unfold gadd. rewrite (gl_comm _ laws _ _ FP FQ). reflexivity.
Qed.

Lemma gadd_assoc (P Q R : Point) :
  gp P -> gp Q -> gp R -> gadd (gadd P Q) R = gadd P (gadd Q R).
Proof.
  intros HP HQ HR.
  destruct HP as [->|FP].
  { rewrite !gadd_inf_l; auto using gadd_gp. }
  destruct HQ as [->|FQ].
  { rewrite gadd_inf_r, gadd_inf_l; auto. }
  destruct HR as [->|FR].
  { rewrite !gadd_inf_r. reflexivity. }
  pose proof (add_ok P Q (or_intror FP) (or_intror FQ)) as HS.
  pose proof (add_ok Q R (or_intror FQ) (or_intror FR)) as HT.
  pose proof (gl_assoc _ laws P Q R _ _ FP FQ FR HS HT) as E.
  unfold gadd at 1. unfold gadd at 2. rewrite E. reflexivity.
Qed.

Lemma smul_gp (k : nat) (P : Point) : gp P -> gp (smul k P).
Proof.
  intros HP. induction k; simpl; [left; reflexivity | apply gadd_gp; auto].
Qed.

Lemma smul_inf (k : nat) : smul k INF = INF.
Proof. induction k; simpl; [|rewrite IHk]; reflexivity. Qed.

Lemma smul_add (j k : nat) (P : Point) :
  gp P -> smul (j + k) P = gadd (smul j P) (smul k P).
Proof.
  intros HP. induction j; simpl.
  - rewrite gadd_inf_l; auto using smul_gp.
  - rewrite IHj, gadd_assoc; auto using smul_gp.
Qed.

Lemma smul_mul (j k : nat) (P : Point) :
  gp P -> smul (j * k) P = smul j (smul k P).
Proof.
  intros HP. induction j; simpl; [reflexivity|].
  rewrite smul_add, IHj; auto.
Qed.

Lemma smul_double (k : nat) (P : Point) :
  gp P -> smul (2 * k) P = smul k (gadd P P).
Proof.
  intros HP. rewrite Nat.mul_comm, smul_mul by assumption.
  simpl. reflexivity.
Qed.

(** The loop of [_mult_aff] adds [m] times [Q] to [R]. *)
Lemma mult_loop_spec (m : positive) (R Q : Point) :
  gp R -> gp Q ->
  Curve.mult_loop ec m R Q = Ok (gadd R (smul (Pos.to_nat m) Q)).
Proof.
  revert R Q. induction m as [m IH|m IH|]; intros R Q HR HQ;
    cbn [Curve.mult_loop].
  - rewrite (add_ok R Q), (add_ok Q Q) by assumption. cbn [bind].
    rewrite IH by auto using gadd_gp. f_equal.
    rewrite Pos2Nat.inj_xI. cbn [smul].
    rewrite <- smul_double by assumption.
    rewrite gadd_assoc; auto using smul_gp.
  - rewrite (add_ok Q Q) by assumption. cbn [bind].
    rewrite IH by auto using gadd_gp. f_equal.
    rewrite Pos2Nat.inj_xO. rewrite <- smul_double by assumption. reflexivity.
  - rewrite (add_ok R Q), (add_ok Q Q) by assumption. reflexivity.
Qed.

Lemma mult_aff_spec (k : Z) (Q : Point) :
  gp Q -> 0 < n ->
  Curve._mult_aff ec k Q = Ok (smul (Z.to_nat (k mod n)) Q).
Proof.
  intros HQ Hn. unfold Curve._mult_aff.
  pose proof (Z.mod_pos_bound k n Hn) as Hm.
  destruct (k mod n =? 0) eqn:E0; b2p.
  { rewrite E0. reflexivity. }
  destruct HQ as [->|FQ].
  { cbn [snd INF orb Z.eqb]. rewrite smul_inf. reflexivity. }
  replace (snd Q =? 0) with false
    by (symmetry; apply Z.eqb_neq, fin_y; assumption).
  cbn [orb].
  destruct (k mod n) as [|m'|m'] eqn:Em; try lia.
  rewrite mult_loop_spec; [|left; reflexivity|right; assumption].
  rewrite gadd_inf_l by (apply smul_gp; right; assumption).
  reflexivity.
Qed.

Lemma mult_spec (k : Z) (Q : Point) :
  gp Q -> 0 < n ->
  Curve.mult ec k (Some Q) = Ok (smul (Z.to_nat (k mod n)) Q).
Proof.
  intros HQ Hn. unfold Curve.mult.
  rewrite (require_on_curve_ok _ _ (gp_on_curve _ HQ)). cbn [bind].
  apply mult_aff_spec; assumption.
Qed.

Lemma add_spec (P Q : Point) :
  gp P -> gp Q -> Curve.add ec P Q = Ok (gadd P Q).
Proof.
  intros HP HQ. unfold Curve.add.
  rewrite (require_on_curve_ok _ _ (gp_on_curve _ HP)).
  rewrite (require_on_curve_ok _ _ (gp_on_curve _ HQ)). cbn [bind].
  apply add_ok; assumption.
Qed.

(** *** The generator *)

Hypothesis prime_n : Z.prime n.

Notation G := (Curve.G ec).

(** What the constructor has checked of the generator, steps 4 and 7. *)
Hypothesis G_on_curve : Curve.is_on_curve ec G = Ok true.
Hypothesis G_order : exists InfMinusG Infinity,
    Curve._mult_aff ec (n - 1) G = Ok InfMinusG /\
    Curve.add ec InfMinusG G = Ok Infinity /\
    snd Infinity = 0.

(** A generator that is not the Infinity sentinel. *)
Hypothesis G_finite : snd G <> 0.

Lemma G_fin0 : fin0 G.
Proof. apply on_curve_fin0; assumption. Qed.

Lemma add_same_abscissa_fails (P Q : Point) (I : Point) :
  snd P <> 0 -> snd Q <> 0 -> fst Q <> fst P ->
  (fst Q - fst P) mod p = 0 ->
  Curve._add_aff ec P Q <> Ok I.
Proof.
  intros HP HQ Hx Hm. unfold Curve._add_aff.
  replace (snd Q =? 0) with false by (symmetry; apply Z.eqb_neq; lia).
  replace (snd P =? 0) with false by (symmetry; apply Z.eqb_neq; lia).
  replace (fst Q =? fst P) with false by (symmetry; apply Z.eqb_neq; lia).
  destruct (mod_inv (fst Q - fst P) p) as [i|] eqn:Ei; [|discriminate].
  exfalso. destruct (mod_inv_ok _ _ _ Ei) as [_ E].
  pose proof (Z.prime_ge_2 _ prime_p).
  rewrite Z.mul_mod, Hm, Z.mul_0_l, Zmod_0_l, Z.mod_1_l in E by lia.
  discriminate.
Qed.

(** Adding a finite point of unbounded abscissa to a finite point of the
    data model gives a finite point, unless the two abscissas are equal
    as integers. *)
Lemma add_fin0_fin (P Q I : Point) :
  fin P -> fin0 Q -> fst Q <> fst P ->
  Curve._add_aff ec P Q = Ok I -> fin I.
Proof.
  intros FP FQ Hx HI.
  assert (HyP : snd P <> 0) by (apply fin_y; assumption).
  assert (HyQ : snd Q <> 0) by (destruct FQ; lia).
  destruct (Z.eq_dec ((fst Q - fst P) mod p) 0) as [E0|E0].
  { exfalso. revert HI. apply add_same_abscissa_fails; auto. }
  rewrite chord_reduce in HI by (auto; apply FP).
  destruct (gl_closed _ laws _ _ FP (fin0_reduce Q FQ))
    as (R & HR & [F|(Ex & _)]).
  - rewrite HR in HI. injection HI as <-. assumption.
  - exfalso. apply E0. cbn [fst] in Ex.
    rewrite <- Zminus_mod_idemp_l, Ex, Z.sub_diag. apply Zmod_0_l.
Qed.

(** Doubling a finite point, whatever its abscissa. *)
Lemma double_fin0 (P : Point) :
  fin0 P -> exists D, Curve._add_aff ec P P = Ok D /\ fin D.
Proof.
  intros F. rewrite double_reduce by (destruct F; lia).
  destruct (gl_closed _ laws _ _ (fin0_reduce P F) (fin0_reduce P F))
    as (R & HR & [FR|(_ & N & _)]).
  - exists R. split; assumption.
  - exfalso. apply N. reflexivity.
Qed.

Lemma not_prime_even (k : positive) : n - 1 = Z.pos k~1 -> False.
Proof.
  intros E. destruct prime_n as [_ Hd]. apply (Hd 2); [lia|].
  exists (Z.pos k + 1). lia.
Qed.

(** The generator the constructor accepted has a reduced abscissa. *)
Lemma G_fin : fin G.
Proof.
  pose proof G_fin0 as F0. pose proof (Z.prime_ge_2 _ prime_n) as Hn.
  destruct G_order as (M & I & HM & HI & HyI).
  unfold Curve._mult_aff in HM.
  rewrite Z.mod_small in HM by lia.
  replace (snd G =? 0) with false in HM by (symmetry; apply Z.eqb_neq; lia).
  destruct (n - 1) as [|k|k] eqn:En; try lia. cbn [Z.eqb orb] in HM.
  destruct (double_fin0 G F0) as (D & HD & FD).
  unfold Curve.add in HI.
  destruct (Curve.require_on_curve ec M); [|discriminate].
  destruct (Curve.require_on_curve ec G); [|discriminate].
  cbn [bind] in HI.
  destruct k as [k|k|].
  - exfalso. exact (not_prime_even k En).
  - cbn [Curve.mult_loop] in HM. rewrite HD in HM. cbn [bind] in HM.
    rewrite mult_loop_spec in HM; [|left; reflexivity|right; assumption].
    injection HM as <-.
    assert (HMgp : gp (gadd INF (smul (Pos.to_nat k) D))).
    { apply gadd_gp; [left; reflexivity|]. apply smul_gp. right. assumption. }
    destruct HMgp as [EM|FM].
    + rewrite EM in HI. rewrite add_inf_l in HI by assumption.
      injection HI as <-. contradiction.
    + destruct (Z.eq_dec (fst G) (fst (gadd INF (smul (Pos.to_nat k) D))))
        as [Ex|Ex].
      * split; [|assumption]. rewrite Ex. apply FM.
      * exfalso. apply (fin_y I); [|assumption].
        apply (add_fin0_fin _ G I FM F0); auto.
  - exfalso. cbn [Curve.mult_loop] in HM.
    rewrite add_inf_l in HM by assumption. cbn [bind] in HM.
    rewrite HD in HM. cbn [bind] in HM. injection HM as <-.
    rewrite HD in HI. injection HI as <-.
    apply (fin_y D); assumption.
Qed.

Lemma G_gp : gp G.
Proof. right. exact G_fin. Qed.

(** [n] times the generator is Infinity. *)
Lemma smul_n_G : smul (Z.to_nat n) G = INF.
Proof.
  pose proof (Z.prime_ge_2 _ prime_n) as Hn.
  destruct G_order as (M & I & HM & HI & HyI).
  rewrite (mult_aff_spec _ _ G_gp) in HM by lia.
  rewrite Z.mod_small in HM by lia. injection HM as <-.
  rewrite add_spec in HI by auto using smul_gp, G_gp.
  injection HI as <-.
  rewrite gadd_comm in HyI by auto using smul_gp, G_gp.
  replace (Z.to_nat n) with (S (Z.to_nat (n - 1))) by lia.
  cbn [smul]. apply gp_inf; [|assumption].
  apply gadd_gp; auto using smul_gp, G_gp.
Qed.

Lemma smul_G_mod (k : Z) :
  0 <= k -> smul (Z.to_nat (k mod n)) G = smul (Z.to_nat k) G.
Proof.
  intros Hk. pose proof (Z.prime_ge_2 _ prime_n) as Hn.
  pose proof (Z.mod_pos_bound k n ltac:(lia)).
  pose proof (Z.div_pos k n Hk ltac:(lia)).
  rewrite (Z.div_mod k n) at 2 by lia.
  rewrite Z2Nat.inj_add, Z2Nat.inj_mul by nia.
  rewrite smul_add by exact G_gp.
  rewrite Nat.mul_comm, smul_mul by exact G_gp.
  rewrite smul_n_G, smul_inf, gadd_inf_l; [reflexivity|].
  apply smul_gp, G_gp.
Qed.

(** A multiple of the generator is Infinity only for a multiple of [n]. *)
Lemma smul_G_inf (k : Z) :
  0 <= k < n -> smul (Z.to_nat k) G = INF -> k = 0.
Proof.
  intros Hk E. destruct (Z.eq_dec k 0) as [|Hk0]; [assumption|exfalso].
  destruct (mod_inv_prime k n prime_n) as (j & _ & Hj & Ej).
  { rewrite Z.mod_small; lia. }
  assert (EG : smul (Z.to_nat (j * k)) G = INF).
  { rewrite Z2Nat.inj_mul by lia. rewrite smul_mul by exact G_gp.
    rewrite E. apply smul_inf. }
  rewrite <- smul_G_mod in EG by nia.
  rewrite Z.mul_comm, Ej in EG.
  change (Z.to_nat 1) with 1%nat in EG. cbn [smul] in EG.
  rewrite gadd_inf_r in EG.
  apply G_finite. rewrite EG. reflexivity.
Qed.

(** *** Opposite points *)

Lemma neg_inf : neg INF = INF.
Proof.
  unfold neg, INF. cbn [fst snd]. rewrite Z.sub_0_r, Z_mod_same_full.
  reflexivity.
Qed.

Lemma neg_fin_eq (P : Point) : fin P -> neg P = (fst P, p - snd P).
Proof.
  intros (_ & Hy & _). unfold neg. rewrite Z.mod_small by lia. reflexivity.
Qed.

Lemma neg_fin (P : Point) : fin P -> fin (neg P).
Proof.
  intros F. rewrite (neg_fin_eq P F). destruct F as (Hx & Hy & E).
  split; [exact Hx|]. split; cbn [fst snd]; [lia|].
  unfold on_eq in *. cbn [fst snd].
  etransitivity; [|exact E]. unfold eqm.
  replace ((p - snd P) * (p - snd P))
    with (snd P * snd P + (p - 2 * snd P) * p) by ring.
  apply Z_mod_plus_full.
Qed.

Lemma neg_gp (P : Point) : gp P -> gp (neg P).
Proof.
  intros [->|F]; [left; apply neg_inf | right; apply neg_fin; assumption].
Qed.

Lemma neg_neg (P : Point) : gp P -> neg (neg P) = P.
Proof.
  intros [->|F]; [rewrite !neg_inf; reflexivity|].
  rewrite (neg_fin_eq _ (neg_fin P F)), (neg_fin_eq P F). cbn [fst snd].
  destruct P as [x y]. cbn [fst snd]. f_equal. ring.
Qed.

Lemma opposite_spec (P : Point) : gp P -> Curve.opposite ec P = Ok (neg P).
Proof.
  intros HP. unfold Curve.opposite.
  rewrite (require_on_curve_ok _ _ (gp_on_curve _ HP)). reflexivity.
Qed.

Lemma odd_p (y : Z) : p - y <> y.
Proof.
  intros E. destruct prime_p as [_ Hd]. apply (Hd 2); [lia|].
  exists y. lia.
Qed.

Lemma gadd_neg (P : Point) : gp P -> gadd P (neg P) = INF.
Proof.
  intros [->|F]; [rewrite neg_inf; reflexivity|].
  rewrite (neg_fin_eq P F). pose proof F as (_ & Hy & _).
  unfold gadd, Curve._add_aff. cbn [fst snd].
  replace (p - snd P =? 0) with false by (symmetry; apply Z.eqb_neq; lia).
  replace (snd P =? 0) with false by (symmetry; apply Z.eqb_neq; lia).
  rewrite Z.eqb_refl.
  replace (p - snd P =? snd P) with false
    by (symmetry; apply Z.eqb_neq, odd_p).
  reflexivity.
Qed.

Lemma gadd_cancel_l (P Q R : Point) :
  gp P -> gp Q -> gp R -> gadd P Q = gadd P R -> Q = R.
Proof.
  intros HP HQ HR E.
  assert (E' : gadd (neg P) (gadd P Q) = gadd (neg P) (gadd P R))
    by (rewrite E; reflexivity).
  rewrite <- !gadd_assoc in E' by auto using neg_gp.
  rewrite (gadd_comm (neg P) P) in E' by auto using neg_gp.
  rewrite gadd_neg in E' by assumption.
  rewrite !gadd_inf_l in E' by assumption. exact E'.
Qed.

(** The opposite is the only inverse. *)
Lemma gadd_inf_neg (P Q : Point) :
  gp P -> gp Q -> gadd P Q = INF -> Q = neg P.
Proof.
  intros HP HQ E. apply (gadd_cancel_l P); auto using neg_gp.
  rewrite gadd_neg by assumption. exact E.
Qed.

Lemma neg_gadd (P Q : Point) :
  gp P -> gp Q -> neg (gadd P Q) = gadd (neg P) (neg Q).
Proof.
  intros HP HQ. symmetry. apply gadd_inf_neg; auto using gadd_gp, neg_gp.
  rewrite (gadd_comm (neg P) (neg Q)) by auto using neg_gp.
  rewrite gadd_assoc by auto using gadd_gp, neg_gp.
  rewrite <- (gadd_assoc Q (neg Q) (neg P)) by auto using neg_gp.
  rewrite gadd_neg by assumption.
  rewrite gadd_inf_l by auto using neg_gp.
  apply gadd_neg; assumption.
Qed.

Lemma neg_smul (k : nat) (P : Point) :
  gp P -> neg (smul k P) = smul k (neg P).
Proof.
  intros HP. induction k; cbn [smul]; [apply neg_inf|].
  rewrite neg_gadd by auto using smul_gp. rewrite IHk. reflexivity.
Qed.

(** *** The operations of the class on the points of the data model *)

Lemma add_closed_spec (P Q : Point) :
  gp P -> gp Q ->
  exists R, Curve.add ec P Q = Ok R /\ gp R /\
            Curve.is_on_curve ec R = Ok true.
Proof.
  intros HP HQ. exists (gadd P Q). rewrite add_spec by assumption.
  auto using gadd_gp, gp_on_curve.
Qed.

Lemma add_comm_spec (P Q : Point) :
  gp P -> gp Q ->
  Curve.add ec P Q = Curve.add ec Q P /\ is_ok (Curve.add ec P Q) = true.
Proof.
  intros HP HQ. rewrite !add_spec by assumption.
  rewrite gadd_comm by assumption. split; reflexivity.
Qed.

Lemma add_assoc_spec (P Q R : Point) :
  gp P -> gp Q -> gp R ->
  exists S0 T0 U,
    Curve.add ec P Q = Ok S0 /\ Curve.add ec Q R = Ok T0 /\
    Curve.add ec S0 R = Ok U /\ Curve.add ec P T0 = Ok U.
Proof.
  intros HP HQ HR. exists (gadd P Q), (gadd Q R), (gadd (gadd P Q) R).
  rewrite !add_spec by auto using gadd_gp.
  rewrite gadd_assoc by assumption. repeat split.
Qed.

Lemma add_opposite_spec (P : Point) :
  gp P ->
  exists P', Curve.opposite ec P = Ok P' /\ gp P' /\
             Curve.add ec P P' = Ok INF /\
             Curve.opposite ec P' = Ok P.
Proof.
  intros HP. exists (neg P). rewrite opposite_spec by assumption.
  rewrite add_spec, gadd_neg by auto using neg_gp.
  rewrite opposite_spec, neg_neg by auto using neg_gp.
  auto using neg_gp.
Qed.

(** The only point that sums to Infinity with [P] is its opposite. *)
Lemma add_inverse_unique (P Q : Point) :
  gp P -> gp Q -> Curve.add ec P Q = Ok INF -> Curve.opposite ec P = Ok Q.
Proof.
  intros HP HQ E. rewrite add_spec in E by assumption. injection E as E.
  rewrite opposite_spec by assumption.
  rewrite (gadd_inf_neg P Q HP HQ E). reflexivity.
Qed.

Lemma mult_succ_spec (m : Z) (Q : Point) :
  gp Q -> 0 < n -> 0 <= m -> m + 1 < n ->
  exists R, Curve.mult ec m (Some Q) = Ok R /\
            Curve.mult ec (m + 1) (Some Q) = Curve.add ec Q R /\
            is_ok (Curve.add ec Q R) = true.
Proof.
  intros HQ Hn Hm Hm1. exists (smul (Z.to_nat m) Q).
  rewrite !mult_spec by assumption.
  rewrite add_spec by auto using smul_gp.
  rewrite !Z.mod_small by lia.
  replace (Z.to_nat (m + 1)) with (S (Z.to_nat m)) by lia.
  repeat split.
Qed.

Lemma mult_closed_spec (m : Z) (Q : Point) :
  gp Q -> 0 < n ->
  exists R, Curve.mult ec m (Some Q) = Ok R /\ gp R /\
            Curve.is_on_curve ec R = Ok true.
Proof.
  intros HQ Hn. exists (smul (Z.to_nat (m mod n)) Q).
  rewrite mult_spec by assumption.
  auto using smul_gp, gp_on_curve.
Qed.

(** *** The subgroup of the generator *)

Lemma smul_G_opp (k : Z) :
  neg (smul (Z.to_nat (k mod n)) G) = smul (Z.to_nat ((- k) mod n)) G.
Proof.
  pose proof (Z.prime_ge_2 _ prime_n) as Hn.
  pose proof (Z.mod_pos_bound k n ltac:(lia)) as Hk.
  pose proof (Z.mod_pos_bound (- k) n ltac:(lia)) as Hk'.
  symmetry. apply gadd_inf_neg; auto using smul_gp, G_gp.
  rewrite <- smul_add by exact G_gp.
  rewrite <- Z2Nat.inj_add by lia.
  rewrite <- smul_G_mod by lia.
  rewrite <- Zplus_mod, Z.add_opp_diag_r, Zmod_0_l. reflexivity.
Qed.

(** Different multiples below the order are different points. *)
Lemma smul_G_inj (j k : Z) :
  0 <= j < n -> 0 <= k < n ->
  smul (Z.to_nat j) G = smul (Z.to_nat k) G -> j = k.
Proof.
  assert (W : forall u v, 0 <= u <= v -> v < n ->
              smul (Z.to_nat u) G = smul (Z.to_nat v) G -> u = v).
  { intros u v Hu Hv E.
    replace (Z.to_nat v) with (Z.to_nat u + Z.to_nat (v - u))%nat in E by lia.
    rewrite smul_add in E by exact G_gp.
    rewrite <- (gadd_inf_r (smul (Z.to_nat u) G)) in E at 1.
    apply gadd_cancel_l in E; auto using smul_gp, G_gp;
      [|left; reflexivity].
    symmetry in E. apply smul_G_inf in E; lia. }
  intros Hj Hk E. destruct (Z_le_gt_dec j k).
  - apply W; auto; lia.
  - symmetry. apply W; auto; lia.
Qed.

(** *** Multiples of the generator as the code computes them *)

Lemma mult_G_eq (k : Z) :
  Curve.mult ec k None = Ok (smul (Z.to_nat (k mod n)) G).
Proof.
  pose proof (Z.prime_ge_2 _ prime_n) as Hn.
  unfold Curve.mult. apply mult_aff_spec; [exact G_gp | lia].
Qed.

Lemma mult_G_add_spec (j k : Z) :
  exists A B,
    Curve.mult ec j None = Ok A /\ Curve.mult ec k None = Ok B /\
    Curve.mult ec (j + k) None = Curve.add ec A B /\
    is_ok (Curve.add ec A B) = true.
Proof.
  pose proof (Z.prime_ge_2 _ prime_n) as Hn.
  pose proof (Z.mod_pos_bound j n ltac:(lia)) as Hj.
  pose proof (Z.mod_pos_bound k n ltac:(lia)) as Hk.
  exists (smul (Z.to_nat (j mod n)) G), (smul (Z.to_nat (k mod n)) G).
  rewrite !mult_G_eq. rewrite add_spec by auto using smul_gp, G_gp.
  repeat split. f_equal.
  rewrite <- smul_add by exact G_gp. rewrite <- Z2Nat.inj_add by lia.
  rewrite <- (smul_G_mod (j mod n + k mod n)) by lia.
  rewrite <- Zplus_mod. reflexivity.
Qed.

Lemma mult_G_mul_spec (j k : Z) :
  exists B,
    Curve.mult ec k None = Ok B /\
    Curve.mult ec j (Some B) = Curve.mult ec (j * k) None /\
    is_ok (Curve.mult ec j (Some B)) = true.
Proof.
  pose proof (Z.prime_ge_2 _ prime_n) as Hn.
  pose proof (Z.mod_pos_bound j n ltac:(lia)) as Hj.
  pose proof (Z.mod_pos_bound k n ltac:(lia)) as Hk.
  exists (smul (Z.to_nat (k mod n)) G).
  rewrite !mult_G_eq. rewrite mult_spec by (auto using smul_gp, G_gp; lia).
  repeat split. f_equal.
  rewrite <- smul_mul by exact G_gp. rewrite <- Z2Nat.inj_mul by lia.
  rewrite <- (smul_G_mod (j mod n * (k mod n))) by nia.
  rewrite <- Zmult_mod. reflexivity.
Qed.

Lemma mult_G_opp_spec (k : Z) :
  exists A,
    Curve.mult ec k None = Ok A /\
    Curve.opposite ec A = Curve.mult ec (- k) None.
Proof.
  exists (smul (Z.to_nat (k mod n)) G). rewrite !mult_G_eq.
  rewrite opposite_spec by (apply smul_gp, G_gp).
  rewrite smul_G_opp. split; reflexivity.
Qed.

Lemma mult_G_inj_spec (j k : Z) :
  Curve.mult ec j None = Curve.mult ec k None <-> j mod n = k mod n.
Proof.
  pose proof (Z.prime_ge_2 _ prime_n) as Hn.
  rewrite !mult_G_eq. split.
  - intros E. injection E as E. apply smul_G_inj in E; auto;
      apply Z.mod_pos_bound; lia.
  - intros ->. reflexivity.
Qed.

(** *** Signing and verifying *)

Context {env : Ecdsa.Collaborators}.

#[local] Instance n_ring :
  @Ncring.Ring Z 0 1 Z.add Z.mul Z.sub Z.opp (eqm n) (Zm_ops n) :=
  Zm_ring n prime_n.
#[local] Instance n_cring :
  @Cring.Cring Z 0 1 Z.add Z.mul Z.sub Z.opp (eqm n) (Zm_ops n) n_ring :=
  Zm_cring n prime_n.
#[local] Instance n_domain :
  @Integral_domain.Integral_domain Z 0 1 Z.add Z.mul Z.sub Z.opp (eqm n)
    (Zm_ops n) n_ring n_cring :=
  Zm_domain n prime_n.

Ltac n_nsatz := mod_nsatz (Curve.n ec).

(** The scalars of the verification recombine to the nonce. *)
Lemma verify_scalars (k k1 e r d s s1 : Z) :
  (k * k1) mod n = 1 mod n ->
  s = (k1 * (e + r * d)) mod n ->
  (s * s1) mod n = 1 ->
  ((e * s1) mod n + (r * s1) mod n * d) mod n = k mod n.
Proof.
  intros Hk Hs Hs1.
  assert (E1 : eqm n (k * k1) 1) by exact Hk.
  assert (E2 : eqm n s (k1 * (e + r * d)))
    by (rewrite Hs; apply eqm_mod; assumption).
  assert (E3 : eqm n (s * s1) 1) by (apply eqm_1; assumption).
  assert (E4 := eqm_mod n prime_n (e * s1)).
  assert (E5 := eqm_mod n prime_n (r * s1)).
  set (u1 := (e * s1) mod n) in *. set (u2 := (r * s1) mod n) in *.
  clearbody u1 u2. clear Hk Hs Hs1.
  change (eqm n (u1 + u2 * d) k). n_nsatz.
Qed.

(** The sum of two multiples of the generator, one of them by way of the
    public key. *)
Lemma double_scalar_G (u1 u2 d : Z) :
  0 <= u1 -> 0 <= u2 -> 0 <= d ->
  gadd (smul (Z.to_nat u1) G) (smul (Z.to_nat u2) (smul (Z.to_nat d) G)) =
  smul (Z.to_nat ((u1 + u2 * d) mod n)) G.
Proof.
  intros H1 H2 Hd.
  rewrite smul_G_mod by nia.
  rewrite <- smul_mul, <- smul_add by exact G_gp.
  f_equal. rewrite Z2Nat.inj_add, Z2Nat.inj_mul by nia. reflexivity.
Qed.

Lemma to_dsasig_ok (r s : Z) :
  0 < r < n -> 0 < s < n -> Ecdsa.to_dsasig [r; s] ec = Ok (r, s).
Proof.
  intros Hr Hs. unfold Ecdsa.to_dsasig.
  replace (negb ((0 <? r) && (r <? n))) with false.
  2:{ symmetry. apply negb_false_iff, andb_true_iff.
      split; apply Z.ltb_lt; lia. }
  replace (negb ((0 <? s) && (s <? n))) with false.
  2:{ symmetry. apply negb_false_iff, andb_true_iff.
      split; apply Z.ltb_lt; lia. }
  reflexivity.
Qed.

Lemma round_trip (H : Ecdsa.HashDigest) (d : Z) (k : option Z)
    (sig : Ecdsa.ECDS) :
  Ecdsa._ecdsa_sign H d k ec = Ok sig ->
  exists P,
    Ecdsa.pointMultiply ec d G = Ok P /\
    Ecdsa._ecdsa_verify sig H P ec = Ok true.
Proof.
  pose proof (Z.prime_ge_2 _ prime_n) as Hn.
  unfold Ecdsa._ecdsa_sign, Ecdsa.int_from_Scalar. cbn [bind]. intros Hs.
  ok_check Hs Hd0.
  ok_bind Hs kk Hkk.
  unfold Ecdsa.pointMultiply in *.
  rewrite (mult_spec _ _ G_gp) in Hs by lia. cbn [bind] in Hs.
  set (R := smul (Z.to_nat (kk mod n)) G) in *.
  ok_check Hs HyR.
  ok_check Hs Hr.
  ok_bind Hs e He.
  ok_bind Hs k1 Hk1.
  ok_check Hs Hs0.
  injection Hs as <-. b2p.
  set (r := fst R mod n) in *.
  set (s := (k1 * (e + r * (d mod n))) mod n) in *.
  pose proof (Z.mod_pos_bound (fst R) n ltac:(lia)) as Br.
  pose proof (Z.mod_pos_bound (k1 * (e + r * (d mod n))) n ltac:(lia)) as Bs.
  pose proof (Z.mod_pos_bound d n ltac:(lia)) as Bd.
  fold r in Br. fold s in Bs.
  destruct (mod_inv_ok _ _ _ Hk1) as [_ Ek1].
  destruct (mod_inv_prime s n prime_n) as (s1 & Hs1 & Bs1 & Es1).
  { rewrite Z.mod_small; lia. }
  rewrite (mult_spec _ _ G_gp) by lia.
  set (P := smul (Z.to_nat (d mod n)) G).
  assert (HP : gp P) by (apply smul_gp, G_gp).
  exists P. split; [reflexivity|].
  unfold Ecdsa._ecdsa_verify.
  rewrite to_dsasig_ok by lia. cbn [bind fst snd].
  rewrite He. cbn [bind].
  unfold Ecdsa.to_Point.
  rewrite (require_on_curve_ok _ _ (gp_on_curve _ HP)). cbn [bind].
  rewrite Hs1. cbn [bind].
  unfold Ecdsa.DoubleScalarMultiplication.
  rewrite (mult_spec _ _ G_gp), (mult_spec _ _ HP) by lia. cbn [bind].
  rewrite add_spec by auto using smul_gp, G_gp.
  pose proof (Z.mod_pos_bound (e * s1) n ltac:(lia)).
  pose proof (Z.mod_pos_bound (r * s1) n ltac:(lia)).
  unfold P. rewrite double_scalar_G by lia.
  rewrite (verify_scalars kk k1 e r (d mod n) s s1 Ek1 eq_refl Es1).
  fold R. cbn [bind].
  replace (snd R =? 0) with false by (symmetry; apply Z.eqb_neq; assumption).
  fold r. rewrite Z.eqb_refl. reflexivity.
Qed.

(** The scalars of the verification of [(r, n - s)] recombine to the
    opposite of the nonce. *)
Lemma verify_scalars_opp (k k1 e r d s s1 : Z) :
  (k * k1) mod n = 1 mod n ->
  s = (k1 * (e + r * d)) mod n ->
  ((n - s) * s1) mod n = 1 ->
  ((e * s1) mod n + (r * s1) mod n * d) mod n = (- k) mod n.
Proof.
  intros Hk Hs Hs1.
  assert (E1 : eqm n (k * k1) 1) by exact Hk.
  assert (E2 : eqm n s (k1 * (e + r * d)))
    by (rewrite Hs; apply eqm_mod; assumption).
  assert (E3 : eqm n ((n - s) * s1) 1) by (apply eqm_1; assumption).
  assert (E4 := eqm_mod n prime_n (e * s1)).
  assert (E5 := eqm_mod n prime_n (r * s1)).
  assert (E6 : eqm n n 0) by (unfold eqm; rewrite Z_mod_same_full; reflexivity).
  set (u1 := (e * s1) mod n) in *. set (u2 := (r * s1) mod n) in *.
  clearbody u1 u2. clear Hk Hs Hs1.
  change (eqm n (u1 + u2 * d) (- k)).
  n_nsatz.
Qed.

(** The second signature of the same digest: [(r, n - s)] verifies
    whenever [(r, s)] was produced by signing. *)
Lemma malleable_spec (H : Ecdsa.HashDigest) (d : Z) (k : option Z)
    (r s : Z) :
  Ecdsa._ecdsa_sign H d k ec = Ok [r; s] ->
  exists P,
    Ecdsa.pointMultiply ec d G = Ok P /\
    Ecdsa._ecdsa_verify [r; n - s] H P ec = Ok true.
Proof.
  pose proof (Z.prime_ge_2 _ prime_n) as Hn.
  unfold Ecdsa._ecdsa_sign, Ecdsa.int_from_Scalar. cbn [bind]. intros Hs.
  ok_check Hs Hd0.
  ok_bind Hs kk Hkk.
  unfold Ecdsa.pointMultiply in *.
  rewrite (mult_spec _ _ G_gp) in Hs by lia. cbn [bind] in Hs.
  set (R := smul (Z.to_nat (kk mod n)) G) in *.
  ok_check Hs HyR.
  ok_check Hs Hr.
  ok_bind Hs e He.
  ok_bind Hs k1 Hk1.
  ok_check Hs Hs0.
  injection Hs as Er Es. b2p.
  pose proof (Z.mod_pos_bound (fst R) n ltac:(lia)) as Br.
  pose proof (Z.mod_pos_bound (k1 * (e + fst R mod n * (d mod n))) n
                ltac:(lia)) as Bs.
  rewrite Er in *. rewrite Es in *.
  destruct (mod_inv_ok _ _ _ Hk1) as [_ Ek1].
  destruct (mod_inv_prime (n - s) n prime_n) as (s1 & Hs1 & Bs1 & Es1).
  { rewrite Z.mod_small; lia. }
  rewrite (mult_spec _ _ G_gp) by lia.
  set (P := smul (Z.to_nat (d mod n)) G).
  assert (HP : gp P) by (apply smul_gp, G_gp).
  exists P. split; [reflexivity|].
  unfold Ecdsa._ecdsa_verify.
  rewrite to_dsasig_ok by lia. cbn [bind fst snd].
  rewrite He. cbn [bind].
  unfold Ecdsa.to_Point.
  rewrite (require_on_curve_ok _ _ (gp_on_curve _ HP)). cbn [bind].
  rewrite Hs1. cbn [bind].
  unfold Ecdsa.DoubleScalarMultiplication.
  rewrite (mult_spec _ _ G_gp), (mult_spec _ _ HP) by lia. cbn [bind].
  rewrite add_spec by auto using smul_gp, G_gp.
  pose proof (Z.mod_pos_bound (e * s1) n ltac:(lia)).
  pose proof (Z.mod_pos_bound (r * s1) n ltac:(lia)).
  pose proof (Z.mod_pos_bound d n ltac:(lia)).
  unfold P. rewrite double_scalar_G by lia.
  rewrite (verify_scalars_opp kk k1 e r (d mod n) s s1 Ek1
             (eq_sym Es) Es1).
  rewrite <- smul_G_opp. fold R. cbn [bind].
  assert (FR : fin R).
  { destruct (smul_gp (Z.to_nat (kk mod n)) G G_gp) as [E|F]; [|exact F].
    exfalso. apply HyR. fold R in E. rewrite E. reflexivity. }
  rewrite (neg_fin_eq R FR). cbn [fst snd].
  destruct FR as (_ & Hy & _).
  replace (p - snd R =? 0) with false by (symmetry; apply Z.eqb_neq; lia).
  rewrite Er, Z.eqb_refl. reflexivity.
Qed.

(** *** Recovering the public key *)

Context {number_theory : ModSqrt}.
Hypothesis sqrt_ok : mod_sqrt_contract number_theory p.

(** The ordinate [y_odd] finds at the abscissa of a finite point is the
    ordinate of the point or of its opposite. *)
Lemma y_odd_of_point (R : Point) :
  fin R ->
  exists yo, Curve.y_odd ec (fst R) 1 = Ok yo /\
             ((fst R, yo) = R \/ (fst R, yo) = neg R).
Proof.
  intros FR. pose proof FR as (Hx & Hy & E).
  unfold Curve.y_odd, Curve.y. cbn [Z.eqb orb negb raise_if bind].
  replace (negb ((0 <=? fst R) && (fst R <? p))) with false.
  2:{ symmetry. apply negb_false_iff, andb_true_iff.
      split; [apply Z.leb_le | apply Z.ltb_lt]; lia. }
  cbn [raise_if bind].
  assert (Ey : eqp (snd R * snd R) (Curve._y2 ec (fst R))).
  { etransitivity; [exact E|]. symmetry. apply y2_eqp. }
  destruct (sqrt_ok (Curve._y2 ec (fst R))) as [Sound Complete].
  destruct Complete as (root & Hroot); [exists (snd R); exact Ey|].
  rewrite Hroot. cbn [bind].
  destruct (Sound root Hroot) as (Br & Er).
  assert (Ed : eqp ((root - snd R) * (root + snd R)) 0).
  { assert (E1 : eqp (root * root) (Curve._y2 ec (fst R))) by exact Er.
    p_nsatz. }
  assert (Hc : root = snd R \/ root = p - snd R).
  { destruct (eqm_integral p prime_p _ _ Ed) as [D|D].
    - left. apply (eqm_reduced p); try lia.
      unfold eqm in *. rewrite <- (Z.sub_add (snd R) root) at 1.
      rewrite <- Zplus_mod_idemp_l, D. reflexivity.
    - right. apply eqm_0 in D.
      apply Z.mod_divide in D; [|lia]. destruct D as (c & Hc).
      assert (c = 1) by nia. lia. }
  rewrite (neg_fin_eq R FR).
  destruct R as [x y]. cbn [fst snd] in *.
  eexists. split; [reflexivity|].
  destruct (root mod 2 =? 1); destruct Hc as [->| ->];
    try (left; reflexivity); try (right; reflexivity).
  left. f_equal. lia.
Qed.

(** The candidate key computed from a point [X] of the data model. *)
Lemma candidate_spec (r1s r1e : Z) (X : Point) :
  gp X ->
  Ecdsa.DoubleScalarMultiplication ec r1s X r1e G =
  Ok (gadd (smul (Z.to_nat (r1s mod n)) X) (smul (Z.to_nat (r1e mod n)) G)).
Proof.
  intros HX. pose proof (Z.prime_ge_2 _ prime_n) as Hn.
  unfold Ecdsa.DoubleScalarMultiplication.
  rewrite (mult_spec _ _ HX), (mult_spec _ _ G_gp) by lia. cbn [bind].
  apply add_spec; auto using smul_gp, G_gp.
Qed.

(** A round of the recovery loop at the abscissa of a finite point
    appends the candidates of the point and of its opposite. *)
Lemma recovery_round_hit (r1s r1e : Z) (R : Point) (keys : list Point) :
  fin R ->
  exists Q1 Q2,
    Ecdsa.recovery_round ec r1s r1e (fst R) keys = keys ++ [Q1; Q2] /\
    (Q1 = gadd (smul (Z.to_nat (r1s mod n)) R)
               (smul (Z.to_nat (r1e mod n)) G) \/
     Q2 = gadd (smul (Z.to_nat (r1s mod n)) R)
               (smul (Z.to_nat (r1e mod n)) G)).
Proof.
  intros FR. destruct (y_odd_of_point R FR) as (yo & Hyo & HR1).
  unfold Ecdsa.recovery_round, Ecdsa.yOdd. rewrite Hyo.
  assert (G1 : gp (fst R, yo)).
  { destruct HR1 as [->| ->]; [right; assumption|].
    apply neg_gp. right. assumption. }
  rewrite (candidate_spec _ _ _ G1).
  rewrite (opposite_spec _ G1).
  rewrite (candidate_spec _ _ _ (neg_gp _ G1)).
  rewrite <- app_assoc. cbn [app].
  eexists. eexists. split; [reflexivity|].
  destruct HR1 as [->| ->]; [left; reflexivity|].
  right. rewrite neg_neg by (right; assumption). reflexivity.
Qed.

Lemma recovery_round_keeps (r1s r1e x : Z) (keys : list Point) (Q : Point) :
  In Q keys -> In Q (Ecdsa.recovery_round ec r1s r1e x keys).
Proof.
  intros HQ.
  destruct (recovery_round_spec ec r1s r1e x keys) as (new & -> & _).
  apply in_or_app. left. assumption.
Qed.

(** The scalars of the recovery recombine to the private key. *)
Lemma recovery_scalars (k k1 e r r1 d s : Z) :
  (k * k1) mod n = 1 mod n ->
  s = (k1 * (e + r * d)) mod n ->
  (r * r1) mod n = 1 mod n ->
  (((- r1 * e) mod n + (r1 * s) mod n * (k mod n)) mod n) = d mod n.
Proof.
  intros Hk Hs Hr.
  assert (E1 : eqm n (k * k1) 1) by exact Hk.
  assert (E2 : eqm n s (k1 * (e + r * d)))
    by (rewrite Hs; apply eqm_mod; assumption).
  assert (E3 : eqm n (r * r1) 1) by exact Hr.
  assert (E4 := eqm_mod n prime_n (- r1 * e)).
  assert (E5 := eqm_mod n prime_n (r1 * s)).
  assert (E6 := eqm_mod n prime_n k).
  set (u1 := (- r1 * e) mod n) in *. set (u2 := (r1 * s) mod n) in *.
  set (k' := k mod n) in *.
  clearbody u1 u2 k'. clear Hk Hs Hr.
  change (eqm n (u1 + u2 * k') d). n_nsatz.
Qed.

(** On a curve with [p <= 2 * n] the two rounds of the loop reach the
    abscissa of every nonce point, and recovery returns the key of the
    signer. *)
Lemma recovery_spec (H : Ecdsa.HashDigest) (d : Z) (k : option Z)
    (sig : Ecdsa.ECDS) :
  p <= 2 * n ->
  Ecdsa._ecdsa_sign H d k ec = Ok sig ->
  exists P keys,
    Ecdsa.pointMultiply ec d G = Ok P /\
    Ecdsa._ecdsa_pubkey_recovery sig H ec = Ok keys /\
    In P keys.
Proof.
  intros Hpn. pose proof (Z.prime_ge_2 _ prime_n) as Hn.
  unfold Ecdsa._ecdsa_sign, Ecdsa.int_from_Scalar. cbn [bind]. intros Hs.
  ok_check Hs Hd0.
  ok_bind Hs kk Hkk.
  unfold Ecdsa.pointMultiply in *.
  rewrite (mult_spec _ _ G_gp) in Hs by lia. cbn [bind] in Hs.
  set (R := smul (Z.to_nat (kk mod n)) G) in *.
  ok_check Hs HyR.
  ok_check Hs Hr.
  ok_bind Hs e He.
  ok_bind Hs k1 Hk1.
  ok_check Hs Hs0.
  injection Hs as <-. b2p.
  set (r := fst R mod n) in *.
  set (s := (k1 * (e + r * (d mod n))) mod n) in *.
  pose proof (Z.mod_pos_bound (fst R) n ltac:(lia)) as Br.
  pose proof (Z.mod_pos_bound (k1 * (e + r * (d mod n))) n ltac:(lia)) as Bs.
  pose proof (Z.mod_pos_bound d n ltac:(lia)) as Bd.
  pose proof (Z.mod_pos_bound kk n ltac:(lia)) as Bk.
  fold r in Br. fold s in Bs.
  destruct (mod_inv_ok _ _ _ Hk1) as [_ Ek1].
  destruct (mod_inv_prime r n prime_n) as (r1 & Hr1 & Br1 & Er1).
  { rewrite Z.mod_small; lia. }
  rewrite (mult_spec _ _ G_gp) by lia.
  set (P := smul (Z.to_nat (d mod n)) G).
  assert (FR : fin R).
  { destruct (smul_gp (Z.to_nat (kk mod n)) G G_gp) as [E|F]; [|exact F].
    exfalso. apply HyR. fold R in E. rewrite E. reflexivity. }
  assert (GR : gp R) by (right; exact FR).
  assert (EP : gadd (smul (Z.to_nat ((r1 * s) mod n)) R)
                    (smul (Z.to_nat ((- r1 * e) mod n)) G) = P).
  { pose proof (Z.mod_pos_bound (r1 * s) n ltac:(lia)).
    pose proof (Z.mod_pos_bound (- r1 * e) n ltac:(lia)).
    rewrite gadd_comm by auto using smul_gp, G_gp.
    unfold R. rewrite double_scalar_G by lia.
    rewrite (recovery_scalars kk k1 e r r1 (d mod n) s Ek1 eq_refl).
    - rewrite Z.mod_mod by lia. reflexivity.
    - rewrite Er1. symmetry. apply Z.mod_1_l. lia. }
  exists P. unfold Ecdsa._ecdsa_pubkey_recovery.
  rewrite to_dsasig_ok by lia. cbn [bind fst snd].
  rewrite He, Hr1. cbn [bind].
  replace (r + 0 * n) with r by ring.
  replace (r + 1 * n) with (r + n) by ring.
  eexists. split; [reflexivity|]. split; [reflexivity|].
  assert (Hx : fst R = r \/ fst R = r + n).
  { pose proof FR as (Bx & _). unfold r.
    pose proof (Z.div_mod (fst R) n ltac:(lia)) as Edm.
    assert (0 <= fst R / n) by (apply Z.div_pos; lia).
    assert (fst R / n < 2) by (apply Z.div_lt_upper_bound; lia).
    assert (Hq : fst R / n = 0 \/ fst R / n = 1) by lia.
    destruct Hq as [Hq|Hq]; rewrite Hq in Edm; lia. }
  destruct Hx as [Ex|Ex].
  - apply recovery_round_keeps. rewrite <- Ex.
    destruct (recovery_round_hit (r1 * s) (- r1 * e) R [] FR)
      as (Q1 & Q2 & -> & HQ).
    rewrite EP in HQ. cbn [app In]. destruct HQ; auto.
  - rewrite <- Ex.
    destruct (recovery_round_hit (r1 * s) (- r1 * e) R
                (Ecdsa.recovery_round ec (r1 * s) (- r1 * e) r []) FR)
      as (Q1 & Q2 & -> & HQ).
    rewrite EP in HQ. apply in_or_app. right. cbn [In].
    destruct HQ; auto.
Qed.

(** *** Jacobian coordinates *)

Lemma mod_inv_1 : mod_inv 1 p = Ok 1.
Proof.
  pose proof (Z.prime_ge_2 _ prime_p).
  rewrite (mod_inv_coprime 1 p ltac:(lia) (Z.gcd_1_l p)).
  rewrite Z.invmod_1_l, Z.mod_1_l by lia. reflexivity.
Qed.

Lemma aff_from_jac_z1 (x y : Z) :
  0 <= x < p -> 0 <= y < p ->
  Curve._aff_from_jac ec (x, y, 1) = Ok (x, y).
Proof.
  intros Hx Hy. unfold Curve._aff_from_jac, jac_z, jac_x, jac_y.
  cbn [fst snd Z.eqb Z.mul Pos.mul]. rewrite mod_inv_1. cbn [bind].
  rewrite !Z.mul_1_r, !Z.mod_small by lia. reflexivity.
Qed.

Lemma eqb_mod_reduced (x y : Z) :
  0 <= x < p -> 0 <= y < p ->
  ((x * 1) mod p =? (y * 1) mod p) = (x =? y).
Proof. intros Hx Hy. rewrite !Z.mul_1_r, !Z.mod_small by lia. reflexivity. Qed.

Lemma nonzero_square (z : Z) : z mod p <> 0 -> (z * z) mod p <> 0.
Proof.
  intros Hz E. apply eqm_0 in E.
  destruct (eqm_integral p prime_p _ _ E) as [D|D];
    apply eqm_0 in D; auto.
Qed.

Lemma nonzero_cube (z : Z) : z mod p <> 0 -> (z * z * z) mod p <> 0.
Proof.
  intros Hz E. apply eqm_0 in E.
  destruct (eqm_integral p prime_p _ _ E) as [D|D].
  - apply eqm_0 in D. revert D. apply nonzero_square. assumption.
  - apply eqm_0 in D; auto.
Qed.

(** The affine point of a Jacobian triple with [Z] not 0 modulo [p]. *)
Lemma aff_from_jac_fin (X Y Zj : Z) :
  0 <= Zj < p -> Zj <> 0 ->
  exists i2 i3,
    eqp (Zj * Zj * i2) 1 /\ eqp (Zj * Zj * Zj * i3) 1 /\
    Curve._aff_from_jac ec (X, Y, Zj) = Ok ((X * i2) mod p, (Y * i3) mod p).
Proof.
  intros HZ HZ0.
  assert (Hz : Zj mod p <> 0) by (rewrite Z.mod_small; lia).
  destruct (inv_exists p prime_p _ (nonzero_square Zj Hz)) as (i2 & H2 & E2).
  destruct (inv_exists p prime_p _ (nonzero_cube Zj Hz)) as (i3 & H3 & E3).
  exists i2, i3. repeat split; try assumption.
  unfold Curve._aff_from_jac, jac_z, jac_x, jac_y. cbn [fst snd].
  replace (Zj =? 0) with false by (symmetry; apply Z.eqb_neq; lia).
  rewrite H2. cbn [bind]. rewrite H3. reflexivity.
Qed.

Lemma pair_eq_mod (x y x' y' : Z) :
  eqp x x' -> eqp y y' -> (x mod p, y mod p) = (x' mod p, y' mod p).
Proof. unfold eqm. intros -> ->. reflexivity. Qed.

(** Jacobian and affine addition on two finite points of the data
    model. *)
Lemma jacobian_agrees_fin (P Q : Point) :
  0 <= fst P < p -> 0 < snd P < p ->
  0 <= fst Q < p -> 0 < snd Q < p ->
  exists A,
    Curve._add_aff ec P Q = Ok A /\
    Curve._aff_from_jac ec
      (Curve._add_jac ec (_jac_from_aff P) (_jac_from_aff Q)) = Ok A.
Proof.
  destruct P as [x1 y1], Q as [x2 y2]. cbn [fst snd].
  intros Hx1 Hy1 Hx2 Hy2.
  pose proof (modulus_pos p prime_p) as Hp.
  unfold _jac_from_aff, Curve._add_aff, Curve._add_jac, jac_z, jac_x, jac_y.
  cbn [fst snd].
  replace (y1 =? 0) with false by (symmetry; apply Z.eqb_neq; lia).
  replace (y2 =? 0) with false by (symmetry; apply Z.eqb_neq; lia).
  cbn [Z.eqb]. change (1 * 1) with 1. rewrite !eqb_mod_reduced by lia.
  rewrite (Z.eqb_sym x1 x2), (Z.eqb_sym y1 y2).
  destruct (x2 =? x1) eqn:Ex; b2p.
  - subst x2. destruct (y2 =? y1) eqn:Ey; b2p.
    + subst y2.
      destruct (inv_exists p prime_p (2 * y1) (two_y_invertible y1 Hy1))
        as (i & -> & Ei).
      cbn [bind]. eexists. split; [reflexivity|].
      set (W := (3 * x1 * x1 + a * 1 * 1) mod p).
      assert (EW : eqp W (3 * x1 * x1 + a))
        by (etransitivity; [apply eqm_mod; assumption
                           | apply eqm_of_eq; ring]).
      set (V := (4 * x1 * (y1 * y1)) mod p).
      assert (EV : eqp V (4 * x1 * (y1 * y1))) by (apply eqm_mod; assumption).
      set (X := (W * W - 2 * V) mod p).
      assert (EX : eqp X (W * W - 2 * V)) by (apply eqm_mod; assumption).
      set (Y := (W * (V - X) - 8 * (y1 * y1) * (y1 * y1)) mod p).
      assert (EY : eqp Y (W * (V - X) - 8 * (y1 * y1) * (y1 * y1)))
        by (apply eqm_mod; assumption).
      set (Zj := (2 * y1 * 1) mod p).
      assert (EZ : eqp Zj (2 * y1))
        by (etransitivity; [apply eqm_mod; assumption
                           | apply eqm_of_eq; ring]).
      assert (HZ : 0 <= Zj < p) by (apply Z.mod_pos_bound; lia).
      assert (HZ0 : Zj <> 0).
      { unfold Zj. rewrite Z.mul_1_r. apply two_y_invertible. assumption. }
      clearbody W V X Y Zj.
      destruct (aff_from_jac_fin X Y Zj HZ HZ0) as (i2 & i3 & E2 & E3 & ->).
      unfold Curve.chord. cbn [fst snd].
      set (lam := ((3 * x1 * x1 + a) * i) mod p).
      assert (El : eqp lam ((3 * x1 * x1 + a) * i))
        by (apply eqm_mod; assumption).
      set (xA := (lam * lam - x1 - x1) mod p).
      assert (ExA : eqp xA (lam * lam - x1 - x1))
        by (apply eqm_mod; assumption).
      assert (HxA : xA mod p = xA) by (apply Z.mod_mod; lia).
      clearbody lam xA. rewrite <- HxA at 1.
      symmetry. apply f_equal. apply pair_eq_mod; p_nsatz.
    + eexists. split; [reflexivity|]. reflexivity.
  - destruct (inv_exists p prime_p (x2 - x1)) as (i & -> & Ei).
    { apply neq_mod; auto; lia. }
    cbn [bind]. eexists. split; [reflexivity|].
    rewrite !Z.mul_1_r.
    set (T := y1 mod p).
    assert (ET : eqp T y1) by (apply eqm_mod; assumption).
    set (U := y2 mod p).
    assert (EU : eqp U y2) by (apply eqm_mod; assumption).
    set (W := (U - T) mod p).
    assert (EW : eqp W (U - T)) by (apply eqm_mod; assumption).
    set (M := x1 mod p).
    assert (EM : eqp M x1) by (apply eqm_mod; assumption).
    set (N := x2 mod p).
    assert (EN : eqp N x2) by (apply eqm_mod; assumption).
    set (V := (N - M) mod p).
    assert (EV : eqp V (N - M)) by (apply eqm_mod; assumption).
    set (X := (W * W - V * V * V - 2 * (M * (V * V))) mod p).
    assert (EX : eqp X (W * W - V * V * V - 2 * (M * (V * V))))
      by (apply eqm_mod; assumption).
    set (Y := (W * (M * (V * V) - X) - T * (V * V * V)) mod p).
    assert (EY : eqp Y (W * (M * (V * V) - X) - T * (V * V * V)))
      by (apply eqm_mod; assumption).
    set (Zj := V mod p).
    assert (EZ : eqp Zj V) by (apply eqm_mod; assumption).
    assert (HZ : 0 <= Zj < p) by (apply Z.mod_pos_bound; lia).
    assert (HZ0 : Zj <> 0).
    { unfold Zj, V, N, M. rewrite Z.mod_mod by lia.
      rewrite (Z.mod_small x1), (Z.mod_small x2) by lia.
      apply neq_mod; auto; lia. }
    clearbody T U W M N V X Y Zj.
    destruct (aff_from_jac_fin X Y Zj HZ HZ0) as (i2 & i3 & E2 & E3 & ->).
    unfold Curve.chord. cbn [fst snd].
    set (lam := ((y2 - y1) * i) mod p).
    assert (El : eqp lam ((y2 - y1) * i)) by (apply eqm_mod; assumption).
    set (xA := (lam * lam - x1 - x2) mod p).
    assert (ExA : eqp xA (lam * lam - x1 - x2))
      by (apply eqm_mod; assumption).
    assert (HxA : xA mod p = xA) by (apply Z.mod_mod; lia).
    clearbody lam xA. rewrite <- HxA at 1.
    symmetry. apply f_equal. apply pair_eq_mod; p_nsatz.
Qed.


(** The affine point of a Jacobian triple, for every [Z] that is not 0
    modulo [p]. *)
Lemma aff_from_jac_unit (X Y Zj : Z) :
  Zj mod p <> 0 ->
  exists i2 i3,
    eqp (Zj * Zj * i2) 1 /\ eqp (Zj * Zj * Zj * i3) 1 /\
    Curve._aff_from_jac ec (X, Y, Zj) = Ok ((X * i2) mod p, (Y * i3) mod p).
Proof.
  intros Hz.
  destruct (inv_exists p prime_p _ (nonzero_square Zj Hz)) as (i2 & H2 & E2).
  destruct (inv_exists p prime_p _ (nonzero_cube Zj Hz)) as (i3 & H3 & E3).
  exists i2, i3. repeat split; try assumption.
  unfold Curve._aff_from_jac, jac_z, jac_x, jac_y. cbn [fst snd].
  replace (Zj =? 0) with false.
  2:{ symmetry. apply Z.eqb_neq. intros ->. apply Hz. apply Zmod_0_l. }
  rewrite H2. cbn [bind]. rewrite H3. reflexivity.
Qed.

Lemma nonzero_product (x y : Z) :
  x mod p <> 0 -> y mod p <> 0 -> (x * y) mod p <> 0.
Proof.
  intros Hx Hy E. apply eqm_0 in E.
  destruct (eqm_integral p prime_p _ _ E) as [D|D]; apply eqm_0 in D; auto.
Qed.

(** Two triples that differ by a factor denote the same affine point. *)
Lemma aff_from_jac_scale (X Y Zj l : Z) :
  Zj mod p <> 0 -> l mod p <> 0 ->
  Curve._aff_from_jac ec (l * l * X, l * l * l * Y, l * Zj) =
  Curve._aff_from_jac ec (X, Y, Zj) /\
  is_ok (Curve._aff_from_jac ec (X, Y, Zj)) = true.
Proof.
  intros Hz Hl.
  destruct (aff_from_jac_unit X Y Zj Hz) as (i2 & i3 & E2 & E3 & ->).
  destruct (aff_from_jac_unit (l * l * X) (l * l * l * Y) (l * Zj)
              (nonzero_product _ _ Hl Hz)) as (j2 & j3 & F2 & F3 & ->).
  split; [|reflexivity]. apply f_equal. apply pair_eq_mod; p_nsatz.
Qed.

(** The canonical triple of a point of the data model maps back to the
    point. *)
Lemma jac_round_trip (P : Point) :
  gp P -> Curve._aff_from_jac ec (_jac_from_aff P) = Ok P.
Proof.
  intros [->|(Hx & Hy & _)]; [reflexivity|].
  destruct P as [x y]. cbn [fst snd] in *. unfold _jac_from_aff.
  cbn [fst snd].
  replace (y =? 0) with false by (symmetry; apply Z.eqb_neq; lia).
  apply aff_from_jac_z1; lia.
Qed.

(** Two finite points whose abscissas differ by a multiple of [p]: the
    affine sum inverts 0 modulo [p]. *)
Lemma add_congruent_raises (P Q : Point) :
  Curve.is_on_curve ec P = Ok true -> Curve.is_on_curve ec Q = Ok true ->
  snd P <> 0 -> snd Q <> 0 -> fst Q <> fst P ->
  (fst Q - fst P) mod p = 0 ->
  Curve.add ec P Q = Raise ValueError.
Proof.
  intros HP HQ HyP HyQ Hx Hm. unfold Curve.add.
  rewrite (require_on_curve_ok _ _ HP), (require_on_curve_ok _ _ HQ).
  cbn [bind]. unfold Curve._add_aff.
  replace (snd Q =? 0) with false by (symmetry; apply Z.eqb_neq; lia).
  replace (snd P =? 0) with false by (symmetry; apply Z.eqb_neq; lia).
  replace (fst Q =? fst P) with false by (symmetry; apply Z.eqb_neq; lia).
  pose proof (Z.prime_ge_2 _ prime_p) as Hp.
  unfold mod_inv.
  replace (p <=? 0) with false by (symmetry; apply Z.leb_gt; lia).
  replace (Z.gcd (fst Q - fst P) p) with p; [|].
  - replace (p =? 1) with false by (symmetry; apply Z.eqb_neq; lia).
    reflexivity.
  - apply Z.mod_divide in Hm; [|lia]. destruct Hm as (c & ->).
    rewrite Z.gcd_comm, (Z.mul_comm c), Z.gcd_mul_diag_l; lia.
Qed.

(** *** Jacobian addition on arbitrary triples *)

(** The tests of [_add_jac] compare the affine coordinates. *)
Lemma jac_same_coordinate (X1 X2 u1 u2 i j x1 x2 : Z) :
  eqp (u1 * i) 1 -> eqp (u2 * j) 1 ->
  x1 = (X1 * i) mod p -> x2 = (X2 * j) mod p ->
  ((X1 * u2) mod p =? (X2 * u1) mod p) = (x2 =? x1).
Proof.
  intros Ei Ej -> ->. pose proof (modulus_pos p prime_p) as Hp.
  destruct ((X2 * j) mod p =? (X1 * i) mod p) eqn:E; b2p.
  - apply Z.eqb_eq. change (eqp (X1 * u2) (X2 * u1)).
    assert (E' : eqp (X2 * j) (X1 * i)) by exact E. p_nsatz.
  - apply Z.eqb_neq. intros E'. apply E.
    change (eqp (X2 * j) (X1 * i)).
    assert (E'' : eqp (X1 * u2) (X2 * u1)) by exact E'. p_nsatz.
Qed.

(** Jacobian addition followed by the conversion is affine addition of
    the converted points, for every pair of triples that denote finite
    points. *)
Lemma add_jac_spec (Qj Rj : JacPoint) (P Q : Point) :
  jac_z Qj mod p <> 0 -> jac_z Rj mod p <> 0 ->
  Curve._aff_from_jac ec Qj = Ok P -> Curve._aff_from_jac ec Rj = Ok Q ->
  snd P <> 0 -> snd Q <> 0 ->
  exists A,
    Curve._add_aff ec P Q = Ok A /\
    Curve._aff_from_jac ec (Curve._add_jac ec Qj Rj) = Ok A.
Proof.
  destruct Qj as [[X1 Y1] Z1], Rj as [[X2 Y2] Z2].
  unfold jac_z. cbn [snd]. intros Hz1 Hz2 HP HQ Hy1 Hy2.
  pose proof (modulus_pos p prime_p) as Hp.
  destruct (aff_from_jac_unit X1 Y1 Z1 Hz1) as (i2 & i3 & E2 & E3 & H1).
  rewrite H1 in HP. injection HP as <-.
  destruct (aff_from_jac_unit X2 Y2 Z2 Hz2) as (j2 & j3 & F2 & F3 & H2).
  rewrite H2 in HQ. injection HQ as <-.
  cbn [fst snd] in *.
  unfold Curve._add_aff, Curve._add_jac, jac_z, jac_x, jac_y.
  cbn [fst snd].
  replace (Z1 =? 0) with false.
  2:{ symmetry. apply Z.eqb_neq. intros ->. apply Hz1. apply Zmod_0_l. }
  replace (Z2 =? 0) with false.
  2:{ symmetry. apply Z.eqb_neq. intros ->. apply Hz2. apply Zmod_0_l. }
  rewrite (jac_same_coordinate X1 X2 (Z1 * Z1) (Z2 * Z2) i2 j2
             ((X1 * i2) mod p) ((X2 * j2) mod p) E2 F2 eq_refl eq_refl).
  rewrite (jac_same_coordinate Y1 Y2 (Z1 * Z1 * Z1) (Z2 * Z2 * Z2) i3 j3
             ((Y1 * i3) mod p) ((Y2 * j3) mod p) E3 F3 eq_refl eq_refl).
  set (x1 := (X1 * i2) mod p) in *. set (y1 := (Y1 * i3) mod p) in *.
  set (x2 := (X2 * j2) mod p) in *. set (y2 := (Y2 * j3) mod p) in *.
  assert (Ex1 : eqp x1 (X1 * i2)) by (apply eqm_mod; assumption).
  assert (Ey1 : eqp y1 (Y1 * i3)) by (apply eqm_mod; assumption).
  assert (Ex2 : eqp x2 (X2 * j2)) by (apply eqm_mod; assumption).
  assert (Ey2 : eqp y2 (Y2 * j3)) by (apply eqm_mod; assumption).
  assert (Bx1 : 0 <= x1 < p) by (apply Z.mod_pos_bound; lia).
  assert (By1 : 0 <= y1 < p) by (apply Z.mod_pos_bound; lia).
  assert (Bx2 : 0 <= x2 < p) by (apply Z.mod_pos_bound; lia).
  assert (By2 : 0 <= y2 < p) by (apply Z.mod_pos_bound; lia).
  replace (y2 =? 0) with false by (symmetry; apply Z.eqb_neq; lia).
  replace (y1 =? 0) with false by (symmetry; apply Z.eqb_neq; lia).
  assert (HY1 : Y1 mod p <> 0).
  { intros E. apply Hy1. unfold y1. rewrite Z.mul_mod, E by lia.
    rewrite Z.mul_0_l. apply Zmod_0_l. }
  clearbody x1 y1 x2 y2.
  destruct (x2 =? x1) eqn:Ex; b2p.
  - subst x2. destruct (y2 =? y1) eqn:Ey; b2p.
    + subst y2.
      destruct (inv_exists p prime_p (2 * y1)) as (i & -> & Ei).
      { apply two_y_invertible. lia. }
      cbn [bind]. eexists. split; [reflexivity|].
      set (W := (3 * X1 * X1 + a * (Z1 * Z1) * (Z1 * Z1)) mod p).
      assert (EW : eqp W (3 * X1 * X1 + a * (Z1 * Z1) * (Z1 * Z1)))
        by (apply eqm_mod; assumption).
      set (V := (4 * X1 * (Y1 * Y1)) mod p).
      assert (EV : eqp V (4 * X1 * (Y1 * Y1))) by (apply eqm_mod; assumption).
      set (X := (W * W - 2 * V) mod p).
      assert (EX : eqp X (W * W - 2 * V)) by (apply eqm_mod; assumption).
      set (Y := (W * (V - X) - 8 * (Y1 * Y1) * (Y1 * Y1)) mod p).
      assert (EY : eqp Y (W * (V - X) - 8 * (Y1 * Y1) * (Y1 * Y1)))
        by (apply eqm_mod; assumption).
      set (Zj := (2 * Y1 * Z1) mod p).
      assert (EZ : eqp Zj (2 * Y1 * Z1)) by (apply eqm_mod; assumption).
      assert (HZ : Zj mod p <> 0).
      { unfold Zj. rewrite Z.mod_mod by lia.
        apply nonzero_product; [|assumption].
        apply nonzero_product; [|assumption].
        rewrite Z.mod_small; lia. }
      clearbody W V X Y Zj.
      destruct (aff_from_jac_unit X Y Zj HZ) as (k2 & k3 & K2 & K3 & ->).
      unfold Curve.chord. cbn [fst snd].
      set (lam := ((3 * x1 * x1 + a) * i) mod p).
      assert (El : eqp lam ((3 * x1 * x1 + a) * i))
        by (apply eqm_mod; assumption).
      set (xA := (lam * lam - x1 - x1) mod p).
      assert (ExA : eqp xA (lam * lam - x1 - x1))
        by (apply eqm_mod; assumption).
      assert (HxA : xA mod p = xA) by (apply Z.mod_mod; lia).
      clearbody lam xA. rewrite <- HxA at 1.
      symmetry. apply f_equal. apply pair_eq_mod; p_nsatz.
    + eexists. split; [reflexivity|]. reflexivity.
  - destruct (inv_exists p prime_p (x2 - x1)) as (i & -> & Ei).
    { apply neq_mod; auto; lia. }
    cbn [bind]. eexists. split; [reflexivity|].
    set (T := (Y1 * (Z2 * Z2 * Z2)) mod p).
    assert (ET : eqp T (Y1 * (Z2 * Z2 * Z2))) by (apply eqm_mod; assumption).
    set (U := (Y2 * (Z1 * Z1 * Z1)) mod p).
    assert (EU : eqp U (Y2 * (Z1 * Z1 * Z1))) by (apply eqm_mod; assumption).
    set (W := (U - T) mod p).
    assert (EW : eqp W (U - T)) by (apply eqm_mod; assumption).
    set (M := (X1 * (Z2 * Z2)) mod p).
    assert (EM : eqp M (X1 * (Z2 * Z2))) by (apply eqm_mod; assumption).
    set (N := (X2 * (Z1 * Z1)) mod p).
    assert (EN : eqp N (X2 * (Z1 * Z1))) by (apply eqm_mod; assumption).
    set (V := (N - M) mod p).
    assert (EV : eqp V (N - M)) by (apply eqm_mod; assumption).
    assert (HV : V mod p <> 0).
    { intros E0. apply Ex. apply (eqm_reduced p); try lia.
      assert (E0' : eqp V 0) by (apply eqm_0; exact E0).
      clearbody T U W M N V. p_nsatz. }
    set (X := (W * W - V * V * V - 2 * (M * (V * V))) mod p).
    assert (EX : eqp X (W * W - V * V * V - 2 * (M * (V * V))))
      by (apply eqm_mod; assumption).
    set (Y := (W * (M * (V * V) - X) - T * (V * V * V)) mod p).
    assert (EY : eqp Y (W * (M * (V * V) - X) - T * (V * V * V)))
      by (apply eqm_mod; assumption).
    set (Zj := (V * Z1 * Z2) mod p).
    assert (EZ : eqp Zj (V * Z1 * Z2)) by (apply eqm_mod; assumption).
    assert (HZ : Zj mod p <> 0).
    { unfold Zj. rewrite Z.mod_mod by lia.
      apply nonzero_product; [|assumption].
      apply nonzero_product; assumption. }
    clearbody T U W M N V X Y Zj.
    destruct (aff_from_jac_unit X Y Zj HZ) as (k2 & k3 & K2 & K3 & ->).
    unfold Curve.chord. cbn [fst snd].
    set (lam := ((y2 - y1) * i) mod p).
    assert (El : eqp lam ((y2 - y1) * i)) by (apply eqm_mod; assumption).
    set (xA := (lam * lam - x1 - x2) mod p).
    assert (ExA : eqp xA (lam * lam - x1 - x2))
      by (apply eqm_mod; assumption).
    assert (HxA : xA mod p = xA) by (apply Z.mod_mod; lia).
    clearbody lam xA. rewrite <- HxA at 1.
    symmetry. apply f_equal. apply pair_eq_mod; p_nsatz.
Qed.

(** *** Multiples of the generator *)

Lemma mult_G_spec (k : Z) :
  exists R,
    Curve.mult ec k None = Ok R /\
    Curve.is_on_curve ec R = Ok true /\
    (is_inf R = true <-> k mod n = 0).
Proof.
  pose proof (Z.prime_ge_2 _ prime_n) as Hn.
  pose proof (Z.mod_pos_bound k n ltac:(lia)) as Hk.
  exists (smul (Z.to_nat (k mod n)) G). unfold Curve.mult.
  rewrite (mult_aff_spec _ _ G_gp) by lia.
  assert (HR : gp (smul (Z.to_nat (k mod n)) G)) by (apply smul_gp, G_gp).
  repeat split.
  - apply gp_on_curve; assumption.
  - unfold is_inf. intros E. b2p. apply smul_G_inf; [lia|].
    apply gp_inf; assumption.
  - intros ->. reflexivity.
Qed.

(** *** The laws over a large field, by polynomial arithmetic *)

(** The certificates of the polynomial solver for the associativity law
    divide by 2, 3, 5 and 7. *)
Hypothesis p_gt_7 : 7 < p.

(** The precondition the spec records for the overloaded sentinel: no
    point of the curve has [y = 0], that is, [x^3 + a*x + b] has no root
    modulo [p]. *)
Hypothesis no_root : forall x, Curve._y2 ec x <> 0.

Lemma fin_closed (x y : Z) :
  eqp (y * y) (x * x * x + a * x + b) -> fin (x mod p, y mod p).
Proof.
  intros E. pose proof (modulus_pos p prime_p) as Hp.
  assert (Ex := eqm_mod p prime_p x). assert (Ey := eqm_mod p prime_p y).
  assert (E' : on_eq (x mod p) (y mod p)).
  { unfold on_eq. set (x' := x mod p) in *. set (y' := y mod p) in *.
    clearbody x' y'. p_nsatz. }
  unfold fin, fin0. cbn [fst snd].
  pose proof (Z.mod_pos_bound x p Hp). pose proof (Z.mod_pos_bound y p Hp).
  repeat split; try lia; try assumption.
  destruct (Z.eq_dec (y mod p) 0) as [E0|]; [|lia].
  exfalso. apply (no_root (x mod p)). unfold on_eq in E'. rewrite E0 in E'.
  pose proof (y2_eqp (x mod p)) as E2. unfold eqm in E', E2.
  rewrite Z.mod_small in E2 by (apply Z.mod_pos_bound; lia).
  rewrite E2, <- E'. reflexivity.
Qed.

(** The chord through two finite points of different abscissas modulo
    [p]; the second abscissa need not be reduced. *)
Lemma chord_case (P Q : Point) (i : Z) :
  fin0 P -> fin0 Q -> fst Q <> fst P ->
  eqp ((fst Q - fst P) * i) 1 ->
  add_case P Q
    (Curve.chord ec (((snd Q - snd P) * i) mod p) P Q).
Proof.
  destruct P as [x1 y1], Q as [x2 y2].
  intros (Hy1 & E1) (Hy2 & E2) Hx Ei. cbn [fst snd] in *.
  unfold on_eq in E1, E2. unfold Curve.chord. cbn [fst snd].
  set (lam := ((y2 - y1) * i) mod p).
  assert (El : eqp lam ((y2 - y1) * i)) by (apply eqm_mod; assumption).
  clearbody lam.
  set (X := lam * lam - x1 - x2).
  assert (EX : eqp (X mod p) (lam * lam - x1 - x2))
    by (apply eqm_mod; assumption).
  set (Y := lam * (x1 - X mod p) - y1).
  assert (EY : eqp (Y mod p) (lam * (x1 - X mod p) - y1))
    by (apply eqm_mod; assumption).
  apply (Chord ec (x1, y1) (x2, y2) i lam); cbn [fst snd]; auto.
  apply fin_closed. subst Y.
  set (x3 := X mod p) in *. clearbody x3. clear EY. subst X.
  p_nsatz.
Qed.

Lemma add_aff_fin (P Q : Point) :
  fin P -> fin Q ->
  exists R, Curve._add_aff ec P Q = Ok R /\ add_case P Q R.
Proof.
  destruct P as [x1 y1], Q as [x2 y2].
  intros (Hx1 & F1) (Hx2 & F2).
  pose proof F1 as (Hy1 & E1). pose proof F2 as (Hy2 & E2).
  cbn [fst snd] in *. unfold on_eq in E1, E2.
  unfold Curve._add_aff. cbn [fst snd].
  replace (y2 =? 0) with false by (symmetry; apply Z.eqb_neq; lia).
  replace (y1 =? 0) with false by (symmetry; apply Z.eqb_neq; lia).
  destruct (x2 =? x1) eqn:Ex; b2p.
  - subst x2. destruct (y2 =? y1) eqn:Ey; b2p.
    + subst y2.
      destruct (inv_exists p prime_p (2 * y1) (two_y_invertible y1 Hy1))
        as (i & -> & Ei).
      cbn [bind]. eexists. split; [reflexivity|].
      unfold Curve.chord. cbn [fst snd].
      set (lam := ((3 * x1 * x1 + a) * i) mod p).
      assert (El : eqp lam ((3 * x1 * x1 + a) * i))
        by (apply eqm_mod; assumption).
      clearbody lam.
      set (X := lam * lam - x1 - x1).
      assert (EX : eqp (X mod p) (lam * lam - x1 - x1))
        by (apply eqm_mod; assumption).
      set (Y := lam * (x1 - X mod p) - y1).
      assert (EY : eqp (Y mod p) (lam * (x1 - X mod p) - y1))
        by (apply eqm_mod; assumption).
      apply (Double ec (x1, y1) (x1, y1) i lam); cbn [fst snd]; auto.
      apply fin_closed. subst Y.
      set (x3 := X mod p) in *. clearbody x3. clear EY. subst X.
      p_nsatz.
    + eexists. split; [reflexivity|]. apply Opposite; cbn [fst snd]; auto.
      assert (E : eqp ((y1 - y2) * (y1 + y2)) 0) by p_nsatz.
      destruct (eqm_integral p prime_p _ _ E) as [D|D]; [|exact D].
      exfalso. apply eqm_0 in D. revert D. apply neq_mod; auto; lia.
  - destruct (inv_exists p prime_p (x2 - x1)) as (i & -> & Ei).
    { apply neq_mod; auto; lia. }
    cbn [bind]. eexists. split; [reflexivity|].
    apply (chord_case (x1, y1) (x2, y2)); auto.
Qed.

(** A leaf of the case analysis: both sides are Infinity, or both are
    finite with congruent coordinates, or the case is impossible. *)
Ltac leaf0 :=
  lazymatch goal with
  | |- Ok INF = Ok INF => reflexivity
  | |- Ok (?x, ?y) = Ok (?x', ?y') =>
      apply point_eq;
        [ assumption | assumption
        | p_nsatz | p_nsatz ]
  | |- _ =>
      exfalso; apply (one_neq_zero (Curve._p ec) prime_p);
      p_nsatz
  end.

Ltac add_yinv :=
  repeat match goal with
  | H : fin (?x, ?y) |- _ =>
      lazymatch goal with
      | _ : eqm _ (y * _) 1 |- _ => fail
      | _ => let j := fresh "j" in
             let Ej := fresh "Ej" in
             destruct (fin_yinv x y H) as (j & Ej)
      end
  end.

Ltac leaf :=
  cbn [fst snd] in *; subst;
  first [ solve [leaf0] | add_yinv; solve [leaf0] ].

Lemma add_comm_fin (P Q : Point) :
  fin P -> fin Q -> Curve._add_aff ec P Q = Curve._add_aff ec Q P.
Proof.
  destruct P as [x1 y1], Q as [x2 y2]. intros FP FQ.
  destruct (add_aff_fin _ _ FP FQ) as (R & -> & C).
  destruct (add_aff_fin _ _ FQ FP) as (R' & -> & C').
  assert (E1 := proj2 (proj2 FP)). assert (E2 := proj2 (proj2 FQ)).
  unfold on_eq in E1, E2. cbn [fst snd] in E1, E2.
  destruct C; destruct C'; cbn [fst snd] in *; try congruence; try lia;
    leaf.
Qed.

(** The second addition of either side of the associativity law. *)
Ltac second_add S P F1 F2 :=
  let R := fresh "R" in
  let C := fresh "C" in
  let H := fresh "H" in
  destruct (add_aff_fin S P F1 F2) as (R & H & C);
  rewrite H; clear H; destruct C.

Lemma add_assoc_fin (P1 P2 P3 S T : Point) :
  fin P1 -> fin P2 -> fin P3 ->
  Curve._add_aff ec P1 P2 = Ok S ->
  Curve._add_aff ec P2 P3 = Ok T ->
  Curve._add_aff ec S P3 = Curve._add_aff ec P1 T.
Proof.
  destruct P1 as [x1 y1], P2 as [x2 y2], P3 as [x3 y3].
  intros F1 F2 F3 HS HT.
  destruct (add_aff_fin _ _ F1 F2) as (S' & HS' & CS).
  rewrite HS in HS'. injection HS' as <-.
  destruct (add_aff_fin _ _ F2 F3) as (T' & HT' & CT).
  rewrite HT in HT'. injection HT' as <-.
  clear HS HT.
  assert (E1 := proj2 (proj2 F1)). assert (E2 := proj2 (proj2 F2)).
  assert (E3 := proj2 (proj2 F3)).
  unfold on_eq in E1, E2, E3. cbn [fst snd] in E1, E2, E3.
  destruct CS as [iS lS xS yS ? ? ? ? ? FS|iS lS xS yS ? ? ? ? ? ? FS| ? ?];
  destruct CT as [iT lT xT yT ? ? ? ? ? FT|iT lT xT yT ? ? ? ? ? ? FT| ? ?];
  cbn [fst snd] in *.
  all: try (second_add (xS, yS) (x3, y3) FS F3).
  all: try rewrite (add_inf_l _ (fin_y _ F3)).
  all: try (second_add (x1, y1) (xT, yT) F1 FT).
  all: try rewrite add_inf_r.
  all: cbn [fst snd] in *; subst.
  all: try (exfalso; lia).
  all: try reflexivity.
  all: leaf.
Qed.

Lemma laws_large : group_laws ec.
Proof.
  split.
  - intros P Q FP FQ. destruct (add_aff_fin P Q FP FQ) as (R & HR & C).
    exists R. split; [assumption|].
    destruct C as [? ? ? ? ? ? ? ? ? F|? ? ? ? ? ? ? ? ? ? F|Ex Ey];
      [left; assumption | left; assumption | right].
    repeat split; [assumption|]. intros Es. rewrite Es in Ey.
    destruct FP as (_ & Hy & _).
    apply (two_y_invertible (snd P) Hy). apply eqm_0.
    etransitivity; [|exact Ey]. apply eqm_of_eq. ring.
  - exact add_comm_fin.
  - exact add_assoc_fin.
Qed.

End CurveLaw.

(** ** The laws over a small field *)

Lemma residues_in (p x : Z) : 0 <= x < p -> In x (residues p).
Proof.
  intros H. unfold residues. apply in_map_iff. exists (Z.to_nat x).
  split; [lia|]. apply in_seq. lia.
Qed.

Lemma fin_b_true (ec : Curve.t) (P : Point) :
  fin ec P <-> fin_b ec P = true.
Proof.
  unfold fin, fin0, on_eq, eqm, fin_b.
  rewrite !andb_true_iff, Z.leb_le, !Z.ltb_lt, Z.eqb_eq. tauto.
Qed.

Lemma points_in (ec : Curve.t) (P : Point) : fin ec P -> In P (points ec).
Proof.
  intros F. unfold points. apply filter_In.
  split; [|apply fin_b_true; assumption].
  destruct P as [x y]. destruct F as (Hx & Hy & _). cbn [fst snd] in *.
  apply in_prod; apply residues_in; lia.
Qed.

Lemma point_eqb_eq (P Q : Point) : point_eqb P Q = true -> P = Q.
Proof.
  destruct P, Q. unfold point_eqb. cbn [fst snd].
  rewrite andb_true_iff, !Z.eqb_eq. intros [-> ->]. reflexivity.
Qed.

Lemma result_eqb_eq (r1 r2 : result Point) : result_eqb r1 r2 = true -> r1 = r2.
Proof.
  destruct r1, r2; cbn; try discriminate.
  intros E. apply f_equal, point_eqb_eq. assumption.
Qed.

(** The enumeration decides the laws. *)
Lemma laws_b_sound {alias : Alias} (ec : Curve.t) :
  laws_b ec = true -> group_laws ec.
Proof.
  unfold laws_b. rewrite !andb_true_iff. intros [[Hc Hm] Ha].
  unfold closed_b in Hc. unfold comm_b in Hm. unfold assoc_b in Ha.
  split.
  - intros P Q FP FQ.
    rewrite forallb_forall in Hc. specialize (Hc P (points_in _ _ FP)).
    rewrite forallb_forall in Hc. specialize (Hc Q (points_in _ _ FQ)).
    destruct (Curve._add_aff ec P Q) as [R|]; [|discriminate].
    exists R. split; [reflexivity|].
    apply orb_true_iff in Hc. destruct Hc as [F|O].
    + left. apply fin_b_true. assumption.
    + right. rewrite !andb_true_iff, negb_true_iff in O.
      destruct O as [[Ex Ey] ER]. b2p.
      repeat split; auto using point_eqb_eq.
  - intros P Q FP FQ.
    rewrite forallb_forall in Hm. specialize (Hm P (points_in _ _ FP)).
    rewrite forallb_forall in Hm. specialize (Hm Q (points_in _ _ FQ)).
    apply result_eqb_eq. assumption.
  - intros P1 P2 P3 S0 T0 F1 F2 F3 HS HT.
    rewrite forallb_forall in Ha. specialize (Ha P1 (points_in _ _ F1)).
    rewrite forallb_forall in Ha. specialize (Ha P2 (points_in _ _ F2)).
    rewrite forallb_forall in Ha. specialize (Ha P3 (points_in _ _ F3)).
    rewrite HS, HT in Ha. apply result_eqb_eq. assumption.
Qed.

(** The laws only depend on [p], [a] and [b]. *)
Lemma laws_b_fields {alias : Alias} (ec ec' : Curve.t) :
  Curve._p ec = Curve._p ec' -> Curve._a ec = Curve._a ec' ->
  Curve._b ec = Curve._b ec' ->
  laws_b ec = laws_b ec'.
Proof.
  intros Hp Ha Hb.
  unfold laws_b, closed_b, comm_b, assoc_b, points, fin_b, Curve._add_aff,
    Curve.chord.
  rewrite Hp, Ha, Hb. reflexivity.
Qed.

(** *** The value of the Infinity constant *)

Lemma sim_refl (P : Point) : sim P P.
Proof. left. reflexivity. Qed.

Lemma sim_sym (P Q : Point) : sim P Q -> sim Q P.
Proof. intros [->|[? ?]]; [left | right]; auto. Qed.

Lemma sim_trans (P Q R : Point) : sim P Q -> sim Q R -> sim P R.
Proof.
  intros [->|[? ?]] [<-|[? ?]]; try (left; reflexivity); right; auto.
Qed.

Lemma sim_finite (P Q : Point) : sim P Q -> snd Q <> 0 -> P = Q.
Proof. intros [->|[? ?]] Hy; [reflexivity | contradiction]. Qed.

(** The same sum under two values of the constant. *)
Lemma add_aff_sim (A A' : Alias) (ec : Curve.t) (P P' Q Q' : Point) :
  sim P P' -> sim Q Q' ->
  rsim (Curve._add_aff (alias := A) ec P Q)
       (Curve._add_aff (alias := A') ec P' Q').
Proof.
  intros SP SQ. unfold Curve._add_aff.
  destruct (snd Q' =? 0) eqn:EQ'; b2p.
  { replace (snd Q =? 0) with true; [exact SP|].
    symmetry. apply Z.eqb_eq. destruct SQ as [->|[? ?]]; assumption. }
  apply sim_finite in SQ; [|assumption]. subst Q'.
  replace (snd Q =? 0) with false by (symmetry; apply Z.eqb_neq; assumption).
  destruct (snd P' =? 0) eqn:EP'; b2p.
  { replace (snd P =? 0) with true; [apply sim_refl|].
    symmetry. apply Z.eqb_eq. destruct SP as [->|[? ?]]; assumption. }
  apply sim_finite in SP; [|assumption]. subst P'.
  replace (snd P =? 0) with false by (symmetry; apply Z.eqb_neq; assumption).
  destruct (fst Q =? fst P).
  - destruct (snd Q =? snd P).
    + destruct (mod_inv (2 * snd P) (Curve._p ec)); cbn [bind rsim];
        [apply sim_refl | exact I].
    + right. split; reflexivity.
  - destruct (mod_inv (fst Q - fst P) (Curve._p ec)); cbn [bind rsim];
      [apply sim_refl | exact I].
Qed.

Lemma gp_sim (A : Alias) (ec : Curve.t) (P Q : Point) :
  gp ec P -> gp ec Q -> sim P Q -> P = Q.
Proof.
  intros HP HQ [E|[EP EQ]]; [assumption|].
  rewrite (gp_inf ec P HP EP), (gp_inf ec Q HQ EQ). reflexivity.
Qed.

(** The laws do not depend on the value of the constant. *)
Lemma laws_alias (A A' : Alias) (ec : Curve.t) :
  group_laws (alias := A) ec -> group_laws (alias := A') ec.
Proof.
  intros L.
  assert (C : forall P Q : Point, fin ec P -> fin ec Q ->
            exists R, Curve._add_aff (alias := A') ec P Q = Ok R /\
              (fin ec R \/
               (fst Q = fst P /\ snd Q <> snd P /\ R = INF (alias := A')))).
  { intros P Q FP FQ.
    destruct (gl_closed _ L _ _ FP FQ) as (R & HR & CR).
    pose proof (add_aff_sim A' A ec P P Q Q (sim_refl P) (sim_refl Q)) as S.
    rewrite HR in S.
    destruct (Curve._add_aff (alias := A') ec P Q) as [R'|] eqn:HR';
      [|contradiction].
    cbn [rsim] in S. exists R'. split; [reflexivity|].
    destruct CR as [F|(Ex & Ey & ->)].
    - left. rewrite (sim_finite _ _ S (fin_y ec R F)). assumption.
    - right. repeat split; try assumption.
      revert HR'. unfold Curve._add_aff.
      replace (snd Q =? 0) with false
        by (symmetry; apply Z.eqb_neq, (fin_y ec); assumption).
      replace (snd P =? 0) with false
        by (symmetry; apply Z.eqb_neq, (fin_y ec); assumption).
      replace (fst Q =? fst P) with true by (symmetry; apply Z.eqb_eq; auto).
      replace (snd Q =? snd P) with false
        by (symmetry; apply Z.eqb_neq; auto).
      congruence. }
  assert (L' : forall P Q : Point, gp (alias := A') ec P -> fin ec Q ->
            exists R, Curve._add_aff (alias := A') ec P Q = Ok R /\
                      gp (alias := A') ec R).
  { intros P Q [->|FP] FQ.
    - exists Q. split; [apply add_inf_l, (fin_y ec); assumption|].
      right. assumption.
    - destruct (C _ _ FP FQ) as (R & HR & [F|(_ & _ & ->)]);
        eexists; (split; [eassumption|]);
        [right; assumption | left; reflexivity]. }
  split.
  - exact C.
  - intros P Q FP FQ.
    destruct (C _ _ FP FQ) as (R1 & H1 & C1).
    destruct (C _ _ FQ FP) as (R2 & H2 & C2).
    pose proof (add_aff_sim A' A ec P P Q Q (sim_refl P) (sim_refl Q)) as S1.
    pose proof (add_aff_sim A' A ec Q Q P P (sim_refl Q) (sim_refl P)) as S2.
    rewrite <- (gl_comm _ L _ _ FP FQ) in S2.
    rewrite H1 in S1. rewrite H2 in S2. rewrite H1, H2.
    destruct (Curve._add_aff (alias := A) ec P Q) as [R|]; [|contradiction].
    cbn [rsim] in S1, S2. apply f_equal.
    apply (gp_sim A' ec).
    + destruct C1 as [F|(_ & _ & ->)]; [right; assumption | left; reflexivity].
    + destruct C2 as [F|(_ & _ & ->)]; [right; assumption | left; reflexivity].
    + eapply sim_trans; [exact S1 | apply sim_sym; exact S2].
  - intros P1 P2 P3 S0 T0 F1 F2 F3 HS HT.
    destruct (C _ _ F1 F2) as (S0' & HS' & CS).
    rewrite HS in HS'. injection HS' as <-.
    destruct (C _ _ F2 F3) as (T0' & HT' & CT).
    rewrite HT in HT'. injection HT' as <-.
    destruct (gl_closed _ L _ _ F1 F2) as (SA & HSA & _).
    destruct (gl_closed _ L _ _ F2 F3) as (TA & HTA & _).
    pose proof (add_aff_sim A' A ec P1 P1 P2 P2 (sim_refl _) (sim_refl _))
      as SS. rewrite HS, HSA in SS. cbn [rsim] in SS.
    pose proof (add_aff_sim A' A ec P2 P2 P3 P3 (sim_refl _) (sim_refl _))
      as ST. rewrite HT, HTA in ST. cbn [rsim] in ST.
    pose proof (add_aff_sim A' A ec S0 SA P3 P3 SS (sim_refl _)) as S1.
    pose proof (add_aff_sim A' A ec P1 P1 T0 TA (sim_refl _) ST) as S2.
    rewrite <- (gl_assoc _ L _ _ _ _ _ F1 F2 F3 HSA HTA) in S2.
    assert (GS : gp (alias := A') ec S0).
    { destruct CS as [F|(_ & _ & ->)];
        [right; assumption | left; reflexivity]. }
    assert (GT : gp (alias := A') ec T0).
    { destruct CT as [F|(_ & _ & ->)];
        [right; assumption | left; reflexivity]. }
    destruct (L' S0 P3 GS F3) as (R1 & H1 & G1).
    assert (exists R2, Curve._add_aff (alias := A') ec P1 T0 = Ok R2 /\
                       gp (alias := A') ec R2) as (R2 & H2 & G2).
    { destruct GT as [->|FT].
      - exists P1. split; [reflexivity | right; assumption].
      - apply L'; [right; assumption | assumption]. }
    rewrite H1 in S1. rewrite H2 in S2. rewrite H1, H2.
    destruct (Curve._add_aff (alias := A) ec SA P3) as [R|]; [|contradiction].
    cbn [rsim] in S1, S2. apply f_equal.
    apply (gp_sim A' ec); auto.
    eapply sim_trans; [exact S1 | apply sim_sym; exact S2].
Qed.

Lemma small_fields : forallb field_laws_b [3; 5; 7] = true.
Proof. vm_compute. reflexivity. Qed.

Lemma no_root_b_true (ec : Curve.t) :
  (forall x, Curve._y2 ec x <> 0) -> no_root_b ec = true.
Proof.
  intros H. unfold no_root_b. apply forallb_forall. intros x _.
  apply negb_true_iff, Z.eqb_neq, H.
Qed.

Lemma small_fields_spec (p a b : Z) :
  In p [3; 5; 7] -> In a (residues p) -> In b (residues p) ->
  no_root_b (curve_of p a b) = true ->
  laws_b (alias := Toy.alias) (curve_of p a b) = true.
Proof.
  intros Hp Ha Hb Hr.
  pose proof (proj1 (forallb_forall _ _) small_fields p Hp) as K1.
  unfold field_laws_b in K1.
  pose proof (proj1 (forallb_forall _ _) K1 a Ha) as K2. cbv beta in K2.
  pose proof (proj1 (forallb_forall _ _) K2 b Hb) as K3. cbv beta in K3.
  rewrite Hr in K3. exact K3.
Qed.

Lemma laws_small {alias : Alias} (ec : Curve.t) :
  Z.prime (Curve._p ec) -> 2 < Curve._p ec <= 7 ->
  0 <= Curve._a ec < Curve._p ec -> 0 <= Curve._b ec < Curve._p ec ->
  (forall x, Curve._y2 ec x <> 0) ->
  group_laws ec.
Proof.
  intros Hp Hr Ha Hb Hroot.
  apply (laws_alias Toy.alias alias). apply laws_b_sound.
  rewrite (laws_b_fields ec
             (curve_of (Curve._p ec) (Curve._a ec) (Curve._b ec)))
    by reflexivity.
  apply small_fields_spec.
  - destruct Hp as [_ Hd].
    assert (Curve._p ec <> 4)
      by (intros E; apply (Hd 2); [lia | exists 2; lia]).
    assert (Curve._p ec <> 6)
      by (intros E; apply (Hd 2); [lia | exists 3; lia]).
    cbn [In]. lia.
  - apply residues_in. assumption.
  - apply residues_in. assumption.
  - apply no_root_b_true. exact Hroot.
Qed.

(** [_add_aff] obeys the group laws on every curve over a field of odd
    prime order that has no point with [y = 0]. *)
Lemma laws_all {alias : Alias} (ec : Curve.t) :
  Z.prime (Curve._p ec) -> 2 < Curve._p ec ->
  0 <= Curve._a ec < Curve._p ec -> 0 <= Curve._b ec < Curve._p ec ->
  (forall x, Curve._y2 ec x <> 0) ->
  group_laws ec.
Proof.
  intros Hp H2 Ha Hb Hroot.
  destruct (Z_le_gt_dec (Curve._p ec) 7).
  - apply laws_small; auto.
  - apply laws_large; auto. lia.
Qed.

(** ** The no-root precondition, decided by enumeration *)

Lemma y2_mod (ec : Curve.t) (x : Z) :
  0 < Curve._p ec -> Curve._y2 ec (x mod Curve._p ec) = Curve._y2 ec x.
Proof.
  intros Hp. unfold Curve._y2.
  set (p := Curve._p ec) in *.
  rewrite (Z.add_mod (_ * x) _ p), (Z.mul_mod _ x p) by lia.
  rewrite (Z.add_mod (x * x) _ p), (Z.mul_mod x x p) by lia.
  rewrite (Z.add_mod (_ * (x mod p)) _ p), (Z.mul_mod _ (x mod p) p) by lia.
  rewrite (Z.add_mod (x mod p * (x mod p)) _ p),
    (Z.mul_mod (x mod p) (x mod p) p) by lia.
  rewrite !Z.mod_mod by lia. reflexivity.
Qed.

Lemma no_root_check (ec : Curve.t) :
  0 < Curve._p ec -> no_root_b ec = true ->
  forall x, Curve._y2 ec x <> 0.
Proof.
  intros Hp Hb x. rewrite <- y2_mod by assumption.
  unfold no_root_b in Hb. rewrite forallb_forall in Hb.
  pose proof (Z.mod_pos_bound x (Curve._p ec) Hp) as Hx.
  specialize (Hb (x mod Curve._p ec)).
  apply Z.eqb_neq, negb_true_iff, Hb.
  unfold residues. apply in_map_iff.
  exists (Z.to_nat (x mod Curve._p ec)). split; [lia|].
  apply in_seq. lia.
Qed.

(** ** The claims on the group structure *)

Section GroupClaims.
Context {alias : Alias} {env : Ecdsa.Collaborators}.

(** A constructed curve over a prime field that has no point with
    [y = 0]: the prime is odd and the sums obey the group laws. *)
Lemma constructed_laws (p a b : Z) (G : Point) (n h sec_bits : Z)
    (ec : Curve.t) :
  constructed p a b G n h sec_bits ec ->
  Z.prime p ->
  (forall x, Curve._y2 ec x <> 0) ->
  2 < p /\ group_laws ec.
Proof.
  intros [Hobj Hodd _ Ha Hb _ _ _ _ _ _ _] Hp Hroot.
  pose proof (Z.prime_ge_2 _ Hp) as H2.
  assert (Hp2 : 2 < p).
  { destruct (Z.eq_dec p 2) as [->|]; [|lia]. exfalso. apply Hodd.
    reflexivity. }
  split; [assumption|].
  apply laws_all; subst ec; assumption.
Qed.

Lemma sign_generator_finite (H : Ecdsa.HashDigest) (d : Z) (k : option Z)
    (ec : Curve.t) (sig : Ecdsa.ECDS) :
  Ecdsa._ecdsa_sign H d k ec = Ok sig -> snd (Curve.G ec) <> 0.
Proof.
  unfold Ecdsa._ecdsa_sign, Ecdsa.int_from_Scalar. cbn [bind]. intros Hs HG.
  ok_check Hs Hd0. ok_bind Hs kk Hkk.
  unfold Ecdsa.pointMultiply, Curve.mult, Curve._mult_aff in Hs.
  destruct (Curve.require_on_curve ec (Curve.G ec)); [|discriminate].
  cbn [bind] in Hs. rewrite HG in Hs. cbn [Z.eqb] in Hs.
  rewrite orb_true_r in Hs. cbn [bind snd INF Z.eqb raise_if] in Hs.
  discriminate.
Qed.

(** C1: on a constructed curve whose field order [p] and group order [n]
    are primes and which has no point with [y = 0], for every digest [H],
    every private scalar [d] and every nonce (derived or supplied), the
    signature that [_ecdsa_sign] returns is accepted by [_ecdsa_verify]
    for the same digest and the public key [d * G]. *)
Theorem sign_verify_round_trip (p a b : Z) (G : Point) (n h sec_bits : Z)
    (weakness_check : bool) (ec : Curve.t)
    (H : Ecdsa.HashDigest) (d : Z) (k : option Z) (sig : Ecdsa.ECDS) :
  Curve.__init__ p a b G n h sec_bits weakness_check = Ok ec ->
  Z.prime p -> Z.prime n ->
  (forall x, Curve._y2 ec x <> 0) ->
  1 <= d < n ->
  Ecdsa._ecdsa_sign H d k ec = Ok sig ->
  exists P,
    Ecdsa.pointMultiply ec d (Curve.G ec) = Ok P /\
    Ecdsa._ecdsa_verify sig H P ec = Ok true.
Proof.
  intros Hinit Hp Hn Hroot Hd Hsign.
  pose proof (sign_generator_finite _ _ _ _ _ Hsign) as HG.
  pose proof (init_constructed _ _ _ _ _ _ _ _ _ Hinit) as C.
  pose proof (constructed_laws _ _ _ _ _ _ _ _ C Hp Hroot) as (Hp2 & L).
  destruct C as [Hobj _ _ _ _ _ HGon _ _ _ Hord _].
  assert (Ep : Curve._p ec = p) by (subst ec; reflexivity).
  assert (En : Curve.n ec = n) by (subst ec; reflexivity).
  assert (EG : Curve.G ec = G) by (subst ec; reflexivity).
  apply (round_trip ec) with (k := k); rewrite ?Ep, ?En, ?EG; auto.
  rewrite <- EG; assumption.
Qed.

(** C7, as the code has it: for every integer [m] and every point [Q]
    that [is_on_curve] accepts, [mult(m, Q)] reduces [m] modulo [n] first
    and returns the Infinity point whenever [m mod n == 0] or [Q] is
    Infinity.  On a constructed curve whose field order [p] and group
    order [n] are primes and which has no point with [y = 0], for every
    integer [m] the multiple [mult(m, G)] is on the curve, and when [G]
    is not Infinity it is Infinity exactly when [m mod n == 0]. *)
Theorem mult_reduces_and_generator_multiples (ec : Curve.t) :
  (forall m Q, Curve.mult ec m Q = Curve.mult ec (m mod Curve.n ec) Q) /\
  (forall m Q,
      Curve.is_on_curve ec Q = Ok true ->
      m mod Curve.n ec = 0 \/ is_inf Q = true ->
      Curve.mult ec m (Some Q) = Ok INF) /\
  (forall p a b G n h sec_bits weakness_check,
      Curve.__init__ p a b G n h sec_bits weakness_check = Ok ec ->
      Z.prime p -> Z.prime n ->
      (forall x, Curve._y2 ec x <> 0) ->
      forall m, exists R,
        Curve.mult ec m None = Ok R /\
        Curve.is_on_curve ec R = Ok true /\
        (is_inf G = false -> (is_inf R = true <-> m mod n = 0))).
Proof.
  split; [|split].
  - intros m Q. unfold Curve.mult, Curve._mult_aff.
    rewrite Zmod_mod. reflexivity.
  - intros m Q HQ Hc. unfold Curve.mult.
    rewrite (require_on_curve_ok _ _ HQ). cbn [bind].
    unfold Curve._mult_aff.
    replace ((m mod Curve.n ec =? 0) || (snd Q =? 0)) with true;
      [reflexivity|].
    symmetry. apply orb_true_iff. unfold is_inf in Hc.
    destruct Hc as [->|Hc]; auto.
  - intros p a b G n h sec_bits weakness_check Hinit Hp Hn Hroot m.
    pose proof (init_constructed _ _ _ _ _ _ _ _ _ Hinit) as C.
    pose proof (constructed_laws _ _ _ _ _ _ _ _ C Hp Hroot) as (Hp2 & L).
    destruct C as [Hobj _ _ _ _ _ HGon _ _ _ Hord _].
    assert (Ep : Curve._p ec = p) by (subst ec; reflexivity).
    assert (En : Curve.n ec = n) by (subst ec; reflexivity).
    assert (EG : Curve.G ec = G) by (subst ec; reflexivity).
    destruct (Z.eq_dec (snd G) 0) as [HG|HG].
    + exists INF. unfold Curve.mult, Curve._mult_aff.
      rewrite EG, HG. cbn [Z.eqb]. rewrite orb_true_r.
      split; [reflexivity|]. split; [reflexivity|].
      unfold is_inf. rewrite HG. discriminate.
    + destruct (mult_G_spec ec) with (k := m) as (R & HR & Hon & Hinf);
        rewrite ?Ep, ?En, ?EG; auto.
      exists R. rewrite <- En. auto.
Qed.

(** For an odd prime [p] and two points that [is_on_curve] accepts and
    whose abscissas lie in [[0, p-1]], affine addition, and Jacobian
    addition followed by the conversion to affine coordinates, both
    succeed and return the same point: the same pair, unless both
    operands are Infinity sentinels, when both results are. *)
Lemma jacobian_agrees_on_reduced_points (ec : Curve.t) (P Q : Point) :
  Z.prime (Curve._p ec) -> 2 < Curve._p ec ->
  Curve.is_on_curve ec P = Ok true ->
  Curve.is_on_curve ec Q = Ok true ->
  0 <= fst P < Curve._p ec ->
  0 <= fst Q < Curve._p ec ->
  exists A J,
    Curve._add_aff ec P Q = Ok A /\
    Curve._aff_from_jac ec
      (Curve._add_jac ec (_jac_from_aff P) (_jac_from_aff Q)) = Ok J /\
    same_point A J /\
    (is_inf P = false \/ is_inf Q = false -> A = J).
Proof.
  intros Hp Hp2 HP HQ HxP HxQ.
  destruct (is_on_curve_true _ _ HP) as [EP|[HyP _]];
    destruct (is_on_curve_true _ _ HQ) as [EQ|[HyQ _]].
  - destruct P as [x1 y1], Q as [x2 y2]. cbn [fst snd] in *. subst y1 y2.
    exists (x1, 0), INF. repeat split; try reflexivity.
    + right. auto.
    + cbn. intros [|]; discriminate.
  - destruct P as [x1 y1], Q as [x2 y2]. cbn [fst snd] in *. subst y1.
    exists (x2, y2), (x2, y2).
    unfold Curve._add_aff, _jac_from_aff, Curve._add_jac, jac_z.
    cbn [fst snd Z.eqb].
    replace (y2 =? 0) with false by (symmetry; apply Z.eqb_neq; lia).
    rewrite (aff_from_jac_z1 ec Hp) by lia.
    repeat split; try reflexivity. left. reflexivity.
  - destruct P as [x1 y1], Q as [x2 y2]. cbn [fst snd] in *. subst y2.
    exists (x1, y1), (x1, y1).
    unfold Curve._add_aff, _jac_from_aff, Curve._add_jac, jac_z.
    cbn [fst snd Z.eqb].
    replace (y1 =? 0) with false by (symmetry; apply Z.eqb_neq; lia).
    cbn [Z.eqb].
    rewrite (aff_from_jac_z1 ec Hp) by lia.
    repeat split; try reflexivity. left. reflexivity.
  - destruct (jacobian_agrees_fin ec Hp Hp2 P Q) as (A & HA & HJ); auto.
    exists A, A. repeat split; auto. left. reflexivity.
Qed.


End GroupClaims.
(** ** Jacobian and affine addition on the points of the data model *)

Section DataModel.
Context {alias : Alias}.

(** On the points of the data model, the constant [INF] or a pair on the
    curve with both coordinates in [[0, p-1]], affine addition, and
    Jacobian addition followed by the conversion to affine coordinates,
    return the same pair. *)
Lemma jacobian_agrees_on_data_model (ec : Curve.t) (P Q : Point) :
  Z.prime (Curve._p ec) -> 2 < Curve._p ec ->
  gp ec P -> gp ec Q ->
  exists A,
    Curve._add_aff ec P Q = Ok A /\
    Curve._aff_from_jac ec
      (Curve._add_jac ec (_jac_from_aff P) (_jac_from_aff Q)) = Ok A.
Proof.
  intros Hp Hp2 HP HQ.
  pose proof (jac_round_trip ec Hp Hp2 P HP) as RP.
  pose proof (jac_round_trip ec Hp Hp2 Q HQ) as RQ.
  destruct HP as [->|FP]; destruct HQ as [->|FQ].
  - exists INF. split; reflexivity.
  - exists Q. destruct FQ as (_ & (Hy & _)).
    unfold Curve._add_aff, Curve._add_jac.
    cbn [INF snd _jac_from_aff jac_z Z.eqb].
    replace (snd Q =? 0) with false by (symmetry; apply Z.eqb_neq; lia).
    split; [reflexivity|exact RQ].
  - exists P. destruct FP as (_ & (Hy & _)).
    unfold Curve._add_aff, Curve._add_jac.
    unfold _jac_from_aff in *.
    replace (snd P =? 0) with false in *
      by (symmetry; apply Z.eqb_neq; lia).
    cbn [INF snd jac_z Z.eqb].
    split; [reflexivity|]. exact RP.
  - destruct FP as (HxP & (HyP & _)), FQ as (HxQ & (HyQ & _)).
    apply jacobian_agrees_fin; assumption.
Qed.

End DataModel.


(** ** Instances of the theorems on the group structure *)

Section GroupWitnesses.
#[local] Existing Instance Toy.alias.
#[local] Existing Instance Toy.env.

Lemma ec11_no_root : forall x, Curve._y2 Toy.ec11 x <> 0.
Proof. apply no_root_check; vm_compute; reflexivity. Qed.

Lemma sign_verify_round_trip_witness :
  exists P,
    Ecdsa.pointMultiply Toy.ec11 3 (Curve.G Toy.ec11) = Ok P /\
    Ecdsa._ecdsa_verify [10; 1] (5 : Z) P Toy.ec11 = Ok true.
Proof.
  apply (sign_verify_round_trip (env := Toy.env)
           11 1 6 (2, 4) 13 1 0 false Toy.ec11 (5 : Z) 3 None [10; 1]).
  - vm_compute; reflexivity.
  - exact prime_11.
  - exact prime_13.
  - exact ec11_no_root.
  - lia.
  - vm_compute; reflexivity.
Defined.

Lemma mult_reduces_and_generator_multiples_witness :
  (forall m Q, Curve.mult Toy.ec11 m Q = Curve.mult Toy.ec11 (m mod 13) Q) /\
  (forall m Q,
      Curve.is_on_curve Toy.ec11 Q = Ok true ->
      m mod 13 = 0 \/ is_inf Q = true ->
      Curve.mult Toy.ec11 m (Some Q) = Ok INF) /\
  (forall m, exists R,
      Curve.mult Toy.ec11 m None = Ok R /\
      Curve.is_on_curve Toy.ec11 R = Ok true /\
      (is_inf (2, 4) = false -> (is_inf R = true <-> m mod 13 = 0))).
Proof.
  destruct (mult_reduces_and_generator_multiples Toy.ec11) as (H1 & H2 & H3).
  split; [exact H1|]. split; [exact H2|].
  apply (H3 11 1 6 (2, 4) 13 1 0 false).
  - vm_compute; reflexivity.
  - exact prime_11.
  - exact prime_13.
  - exact ec11_no_root.
Defined.

Lemma jacobian_agrees_on_reduced_points_witness :
  exists A J,
    Curve._add_aff Toy.ec11 (2, 4) (5, 9) = Ok A /\
    Curve._aff_from_jac Toy.ec11
      (Curve._add_jac Toy.ec11 (_jac_from_aff (2, 4)) (_jac_from_aff (5, 9)))
      = Ok J /\
    same_point A J /\
    (is_inf (2, 4) = false \/ is_inf (5, 9) = false -> A = J).
Proof.
  apply (jacobian_agrees_on_reduced_points Toy.ec11 (2, 4) (5, 9)).
  - exact prime_11.
  - vm_compute; reflexivity.
  - vm_compute; reflexivity.
  - vm_compute; reflexivity.
  - vm_compute. split; [discriminate | reflexivity].
  - vm_compute. split; [discriminate | reflexivity].
Defined.

End GroupWitnesses.

(** * Further properties of the two modules *)

(** ** Powers, bit lengths and square roots *)

Lemma pow_mod_pos_spec (b : Z) (e : positive) (m : Z) :
  pow_mod_pos b e m = (b ^ Z.pos e) mod m.
Proof.
  induction e as [e IH|e IH|]; cbn [pow_mod_pos].
  - rewrite IH, Pos2Z.inj_xI.
    replace (2 * Z.pos e + 1) with (Z.pos e + Z.pos e + 1) by ring.
    rewrite !Z.pow_add_r, Z.pow_1_r by lia.
    rewrite <- Zmult_mod_idemp_l, <- Zmult_mod. rewrite Zmult_mod_idemp_l.
    reflexivity.
  - rewrite IH, Pos2Z.inj_xO.
    replace (2 * Z.pos e) with (Z.pos e + Z.pos e) by ring.
    rewrite Z.pow_add_r by lia. rewrite <- Zmult_mod. reflexivity.
  - rewrite Z.pow_1_r. reflexivity.
Qed.

Lemma pow3_spec (b e m : Z) :
  0 <= e -> m <> 0 -> pow3 b e m = Ok (b ^ e mod m).
Proof.
  intros He Hm. unfold pow3.
  replace (m =? 0) with false by (symmetry; apply Z.eqb_neq; assumption).
  destruct e as [|e|e]; try lia; [reflexivity|].
  rewrite pow_mod_pos_spec. reflexivity.
Qed.

Lemma pow3_ok_1 (b e m : Z) :
  pow3 b e m = Ok 1 -> 0 <= e /\ 1 < m /\ b ^ e mod m = 1.
Proof.
  unfold pow3. destruct (m =? 0) eqn:Em; [discriminate|]. b2p.
  assert (B : forall v, v mod m = 1 -> 1 < m).
  { intros v Hv. destruct (Z_lt_le_dec 0 m) as [Hpos|Hneg].
    - pose proof (Z.mod_pos_bound v m Hpos). lia.
    - pose proof (Z.mod_neg_bound v m ltac:(lia)). lia. }
  destruct e as [|e|e]; intros E; try discriminate; injection E as E.
  - split; [lia|]. split; [exact (B _ E) | exact E].
  - rewrite pow_mod_pos_spec in E.
    split; [lia|]. split; [exact (B _ E) | exact E].
Qed.

Lemma bit_length_spec (z : Z) :
  0 < z -> 2 ^ (bit_length z - 1) <= z < 2 ^ bit_length z.
Proof.
  intros Hz. unfold bit_length. destruct z as [|q|q]; try lia.
  rewrite Z.abs_eq by lia. rewrite Z.add_simpl_r.
  pose proof (Z.log2_spec (Z.pos q) ltac:(lia)) as L.
  replace (Z.log2 (Z.pos q) + 1) with (Z.succ (Z.log2 (Z.pos q))) by lia.
  exact L.
Qed.

(** The search finds the least root. *)
Lemma sqrt_search_sound (fuel : nat) (y a p r : Z) :
  sqrt_search fuel y a p = Ok r ->
  y <= r < y + Z.of_nat fuel /\ (r * r) mod p = a mod p.
Proof.
  revert y. induction fuel as [|fuel IH]; intros y; cbn [sqrt_search];
    [discriminate|].
  destruct ((y * y) mod p =? a mod p) eqn:E; b2p.
  - intros H. injection H as <-. split; [lia | assumption].
  - intros H. apply IH in H. split; [lia | tauto].
Qed.

Lemma sqrt_search_complete (fuel : nat) (y a p r : Z) :
  y <= r < y + Z.of_nat fuel -> (r * r) mod p = a mod p ->
  exists r', sqrt_search fuel y a p = Ok r'.
Proof.
  revert y. induction fuel as [|fuel IH]; intros y Hr E; [lia|].
  cbn [sqrt_search].
  destruct ((y * y) mod p =? a mod p) eqn:Ey; [eauto|]. b2p.
  apply IH; [|assumption].
  assert (y <> r) by (intros ->; contradiction). lia.
Qed.

(** The exhaustive search meets the contract of [mod_sqrt]. *)
Lemma mod_sqrt_search_contract (p : Z) :
  0 < p -> mod_sqrt_contract mod_sqrt_search p.
Proof.
  intros Hp a. split.
  - intros r H. cbn in H. apply sqrt_search_sound in H.
    rewrite Z2Nat.id in H by lia. split; [lia | tauto].
  - intros (r & E). cbn.
    apply (sqrt_search_complete _ _ _ _ (r mod p)).
    + rewrite Z2Nat.id by lia. pose proof (Z.mod_pos_bound r p Hp). lia.
    + rewrite <- Zmult_mod. assumption.
Qed.

(** ** The remaining checks of the constructor *)

Lemma weak_loop_ok (todo : nat) (i p n : Z) :
  0 < i -> 2 <= n ->
  Curve.weak_loop todo i p n = Ok tt ->
  forall j, i <= j < i + Z.of_nat todo -> p ^ j mod n <> 1.
Proof.
  revert i. induction todo as [|todo IH]; intros i Hi Hn H j Hj; [lia|].
  cbn [Curve.weak_loop] in H. rewrite pow3_spec in H by lia.
  cbn [bind] in H.
  destruct (p ^ i mod n =? 1) eqn:E; [discriminate|]. b2p.
  cbn [raise_if bind] in H.
  destruct (Z.eq_dec j i) as [->|Hne]; [assumption|].
  apply (IH (i + 1)); auto; lia.
Qed.

Section Screens.
Context {alias : Alias}.

Lemma init_screens p a b G n h sec_bits weakness_check ec :
  Curve.__init__ p a b G n h sec_bits weakness_check = Ok ec ->
  (sec_bits <> 0 ->
   In sec_bits Curve.t_range /\ sec_bits * 2 <= bit_length p) /\
  (2 < n -> pow3 2 (n - 1) n = Ok 1) /\
  (weakness_check = true -> Curve.weak_loop 99 1 p n = Ok tt).
Proof.
  unfold Curve.__init__, assert. intros H.
  repeat ok_step H.
  repeat match goal with u : unit |- _ => destruct u end.
  split; [|split].
  - intros Hs.
    match goal with
    | E : (if negb (sec_bits =? 0) then _ else _) = Ok tt |- _ =>
        replace (sec_bits =? 0) with false in E
          by (symmetry; apply Z.eqb_neq; assumption);
        cbn [negb] in E; ok_step E; apply raise_if_ok in E
    end.
    b2p.
    match goal with
    | E : existsb _ _ = true |- _ =>
        apply existsb_exists in E; destruct E as (x & Hin & Hx)
    end.
    b2p. subst. split; [assumption | lia].
  - intros Hn.
    match goal with
    | E : (if n <? 2 then _ else _) = Ok false |- _ =>
        replace (n <? 2) with false in E
          by (symmetry; apply Z.ltb_ge; lia);
        replace (2 <? n) with true in E
          by (symmetry; apply Z.ltb_lt; lia);
        destruct (pow3 2 (n - 1) n) as [v|]; [|discriminate E];
        cbn [bind] in E; injection E as E
    end.
    b2p. subst. reflexivity.
  - intros ->.
    match goal with
    | E : Curve.weak_loop _ _ _ _ = Ok _ |- _ => exact E
    end.
Qed.

End Screens.

(** ** The constructor *)

Section Constructor.
Context {alias : Alias}.

(** What the theorems below use of a constructed curve over a prime
    field that has no point with [y = 0]. *)
Lemma init_field_facts p a b G n h sec_bits weakness_check ec :
  Curve.__init__ p a b G n h sec_bits weakness_check = Ok ec ->
  Z.prime p ->
  (forall x, Curve._y2 ec x <> 0) ->
  Curve._p ec = p /\ Curve.n ec = n /\ Curve.G ec = G /\
  Z.prime (Curve._p ec) /\ 2 < Curve._p ec /\ group_laws ec.
Proof.
  intros Hinit Hp Hroot.
  pose proof (init_constructed _ _ _ _ _ _ _ _ _ Hinit) as C.
  pose proof (constructed_laws _ _ _ _ _ _ _ _ C Hp Hroot) as (Hp2 & L).
  destruct C as [Hobj _ _ _ _ _ _ _ _ _ _ _].
  assert (Ep : Curve._p ec = p) by (subst ec; reflexivity).
  assert (En : Curve.n ec = n) by (subst ec; reflexivity).
  assert (EG : Curve.G ec = G) by (subst ec; reflexivity).
  rewrite Ep. auto 10.
Qed.

Lemma init_generator_facts p a b G n h sec_bits weakness_check ec :
  Curve.__init__ p a b G n h sec_bits weakness_check = Ok ec ->
  Z.prime n ->
  is_inf G = false ->
  Z.prime (Curve.n ec) /\
  Curve.is_on_curve ec (Curve.G ec) = Ok true /\
  (exists InfMinusG Infinity,
      Curve._mult_aff ec (Curve.n ec - 1) (Curve.G ec) = Ok InfMinusG /\
      Curve.add ec InfMinusG (Curve.G ec) = Ok Infinity /\
      snd Infinity = 0) /\
  snd (Curve.G ec) <> 0.
Proof.
  intros Hinit Hn HG.
  destruct (init_constructed _ _ _ _ _ _ _ _ _ Hinit)
    as [Hobj _ _ _ _ _ HGon _ _ _ Hord _].
  assert (En : Curve.n ec = n) by (subst ec; reflexivity).
  assert (EG : Curve.G ec = G) by (subst ec; reflexivity).
  unfold is_inf in HG. b2p. rewrite En, EG. auto.
Qed.

(** X1: a construction that succeeds has validated its arguments: [p] is
    odd, at least 3 and passes the Fermat test to the base 2; [a] and
    [b] lie in [[0, p-1]] and the discriminant is not 0 modulo [p]; the
    generator passes [is_on_curve]; [n] is at least 2, passes the Fermat
    test when it is not 2, and differs from [p]; and the attributes of
    the object are the arguments. *)
Theorem init_validates_parameters (p a b : Z) (G : Point)
    (n h sec_bits : Z) (weakness_check : bool) (ec : Curve.t) :
  Curve.__init__ p a b G n h sec_bits weakness_check = Ok ec ->
  ec = Curve.object p a b G n h sec_bits /\
  3 <= p /\ p mod 2 = 1 /\ 2 ^ (p - 1) mod p = 1 /\
  0 <= a < p /\ 0 <= b < p /\
  (4 * a * a * a + 27 * b * b) mod p <> 0 /\
  Curve.is_on_curve ec G = Ok true /\
  2 <= n /\ (n <> 2 -> 2 ^ (n - 1) mod n = 1) /\ n <> p.
Proof.
  intros Hinit.
  destruct (init_screens _ _ _ _ _ _ _ _ _ Hinit) as (_ & Hfn & _).
  destruct (init_constructed _ _ _ _ _ _ _ _ _ Hinit)
    as [Hobj Hodd Hf Ha Hb Hd HG Hn _ _ _ Hnp].
  destruct (pow3_ok_1 _ _ _ Hf) as (_ & Hp1 & Hfp).
  assert (Hm : p mod 2 = 1).
  { pose proof (Z.mod_pos_bound p 2 ltac:(lia)). lia. }
  assert (p <> 2) by (intros ->; discriminate Hm).
  repeat split; try assumption; try lia.
  intros Hn2. destruct (pow3_ok_1 _ _ _ (Hfn ltac:(lia))) as (_ & _ & E).
  exact E.
Qed.

(** X2: a construction at a security level [sec_bits] other than 0 has found
    the level among the nine admitted ones and a field order of at
    least [2 * sec_bits] bits. *)
Theorem init_security_level (p a b : Z) (G : Point)
    (n h sec_bits : Z) (weakness_check : bool) (ec : Curve.t) :
  Curve.__init__ p a b G n h sec_bits weakness_check = Ok ec ->
  sec_bits <> 0 ->
  In sec_bits [56; 64; 80; 96; 112; 128; 160; 192; 256] /\
  2 ^ (2 * sec_bits - 1) <= p.
Proof.
  intros Hinit Hs.
  destruct (init_screens _ _ _ _ _ _ _ _ _ Hinit) as (Hsec & _ & _).
  destruct (Hsec Hs) as (Hin & Hlen). split; [exact Hin|].
  destruct (init_constructed _ _ _ _ _ _ _ _ _ Hinit)
    as [_ _ Hf _ _ _ _ _ _ _ _ _].
  destruct (pow3_ok_1 _ _ _ Hf) as (_ & Hp1 & _).
  pose proof (bit_length_spec p ltac:(lia)) as (Hlo & _).
  assert (0 < sec_bits).
  { unfold Curve.t_range in Hin. cbn [In] in Hin. lia. }
  eapply Z.le_trans; [|exact Hlo].
  apply Z.pow_le_mono_r; lia.
Qed.

(** X3: a construction with the weakness check has found no [i] in
    [[1, 99]] with [p ^ i = 1] modulo [n]. *)
Theorem init_weak_curve_screen (p a b : Z) (G : Point)
    (n h sec_bits : Z) (ec : Curve.t) (i : Z) :
  Curve.__init__ p a b G n h sec_bits true = Ok ec ->
  1 <= i < 100 ->
  p ^ i mod n <> 1.
Proof.
  intros Hinit Hi.
  destruct (init_screens _ _ _ _ _ _ _ _ _ Hinit) as (_ & _ & Hw).
  destruct (init_constructed _ _ _ _ _ _ _ _ _ Hinit)
    as [_ _ _ _ _ _ _ Hn _ _ _ _].
  apply (weak_loop_ok 99 1 p n); auto; lia.
Qed.

(** X4: the attributes [psize] and [nsize] of a constructed curve are the
    numbers of bytes of [p] and of [n]: the least numbers of base-256
    digits that hold them. *)
Theorem init_byte_sizes (p a b : Z) (G : Point)
    (n h sec_bits : Z) (weakness_check : bool) (ec : Curve.t) :
  Curve.__init__ p a b G n h sec_bits weakness_check = Ok ec ->
  256 ^ (Curve.psize ec - 1) <= p < 256 ^ Curve.psize ec /\
  256 ^ (Curve.nsize ec - 1) <= n < 256 ^ Curve.nsize ec.
Proof.
  intros Hinit.
  destruct (init_constructed _ _ _ _ _ _ _ _ _ Hinit)
    as [Hobj _ Hf _ _ _ _ Hn _ _ _ _].
  destruct (pow3_ok_1 _ _ _ Hf) as (_ & Hp1 & _).
  assert (B : forall z, 0 < z ->
            256 ^ ((bit_length z + 7) / 8 - 1) <= z
            < 256 ^ ((bit_length z + 7) / 8)).
  { intros z Hz. pose proof (bit_length_spec z Hz) as (Hlo & Hhi).
    assert (Hl : 0 < bit_length z).
    { unfold bit_length. destruct z; try lia.
      pose proof (Z.log2_nonneg (Z.abs (Z.pos p0))). lia. }
    set (L := bit_length z) in *. clearbody L.
    pose proof (Z.div_mod (L + 7) 8 ltac:(lia)) as Edm.
    pose proof (Z.mod_pos_bound (L + 7) 8 ltac:(lia)) as Bm.
    set (q := (L + 7) / 8) in *. clearbody q.
    change 256 with (2 ^ 8). rewrite <- !Z.pow_mul_r by lia.
    split.
    - eapply Z.le_trans; [|exact Hlo]. apply Z.pow_le_mono_r; lia.
    - eapply Z.lt_le_trans; [exact Hhi|]. apply Z.pow_le_mono_r; lia. }
  subst ec. cbn [Curve.psize Curve.nsize Curve.object].
  split; apply B; lia.
Qed.

(** X5: the checks do not exclude an Infinity generator: when a
    construction succeeds, the construction with the same arguments and
    any pair [(x, 0)] for the generator succeeds as well; the pair passes
    [is_on_curve], and the order check multiplies and adds Infinity. *)
Theorem init_accepts_infinity_generator (p a b : Z) (G : Point)
    (n h sec_bits : Z) (weakness_check : bool) (ec : Curve.t) (x : Z) :
  Curve.__init__ p a b G n h sec_bits weakness_check = Ok ec ->
  Curve.__init__ p a b (x, 0) n h sec_bits weakness_check
  = Ok (Curve.object p a b (x, 0) n h sec_bits).
Proof.
  intros H. unfold Curve.__init__, assert in *.
  repeat ok_step H.
  repeat match goal with u : unit |- _ => destruct u end.
  cbn [raise_if bind].
  repeat match goal with
  | E : ?c = _ |- context [?c] => rewrite E; cbn [raise_if bind]
  end.
  unfold Curve._mult_aff, Curve.add, Curve.require_on_curve,
    Curve.is_on_curve, Curve._add_aff.
  cbn [Curve.G Curve.object snd fst INF Z.eqb negb raise_if bind].
  rewrite orb_true_r. cbn [snd fst INF Z.eqb negb raise_if bind].
  reflexivity.
Qed.

End Constructor.

Lemma secp256k1_constructed :
  Curve.__init__ (alias := Toy.alias) Secp256k1.p Secp256k1.a Secp256k1.b
    Secp256k1.G Secp256k1.n Secp256k1.h Secp256k1.sec_bits true
  = Ok Secp256k1.curve.
Proof. vm_cast_no_check (eq_refl (Ok Secp256k1.curve)). Qed.

Lemma cofactor_check_at_construction_witness :
  (exists delta,
      Curve.hasse_delta Secp256k1.p = Ok delta /\
      Curve.expected_h Secp256k1.p Secp256k1.n delta = Ok 1) /\
  (128 <> 0 -> 1 <= 2 ^ (128 / 8)).
Proof.
  apply (cofactor_check_at_construction (alias := Toy.alias) _ _ _ _ _ _ _ _ _
           secp256k1_constructed).
Defined.

Lemma init_validates_parameters_witness :
  Toy.ec11 = Curve.object 11 1 6 (2, 4) 13 1 0 /\
  3 <= 11 /\ 11 mod 2 = 1 /\ 2 ^ (11 - 1) mod 11 = 1 /\
  0 <= 1 < 11 /\ 0 <= 6 < 11 /\
  (4 * 1 * 1 * 1 + 27 * 6 * 6) mod 11 <> 0 /\
  Curve.is_on_curve Toy.ec11 (2, 4) = Ok true /\
  2 <= 13 /\ (13 <> 2 -> 2 ^ (13 - 1) mod 13 = 1) /\ 13 <> 11.
Proof.
  apply (init_validates_parameters (alias := Toy.alias)
           11 1 6 (2, 4) 13 1 0 false Toy.ec11).
  vm_compute; reflexivity.
Defined.

Lemma init_security_level_witness :
  In Secp256k1.sec_bits [56; 64; 80; 96; 112; 128; 160; 192; 256] /\
  2 ^ (2 * Secp256k1.sec_bits - 1) <= Secp256k1.p.
Proof.
  apply (init_security_level (alias := Toy.alias) _ _ _ _ _ _ _ _ _
           secp256k1_constructed).
  discriminate.
Defined.

Lemma init_weak_curve_screen_witness :
  Secp256k1.p ^ 7 mod Secp256k1.n <> 1.
Proof.
  apply (init_weak_curve_screen (alias := Toy.alias) _ _ _ _ _ _ _ _ 7
           secp256k1_constructed).
  lia.
Defined.

Lemma init_byte_sizes_witness :
  256 ^ (Curve.psize Secp256k1.curve - 1) <= Secp256k1.p
    < 256 ^ Curve.psize Secp256k1.curve /\
  256 ^ (Curve.nsize Secp256k1.curve - 1) <= Secp256k1.n
    < 256 ^ Curve.nsize Secp256k1.curve.
Proof.
  apply (init_byte_sizes (alias := Toy.alias) _ _ _ _ _ _ _ _ _
           secp256k1_constructed).
Defined.

Lemma init_accepts_infinity_generator_witness :
  Curve.__init__ (alias := Toy.alias) 11 1 6 (5, 0) 13 1 0 false
  = Ok (Curve.object 11 1 6 (5, 0) 13 1 0).
Proof.
  apply (init_accepts_infinity_generator (alias := Toy.alias)
           11 1 6 (2, 4) 13 1 0 false Toy.ec11 5).
  vm_compute; reflexivity.
Defined.

(** ** Points and their sums *)

Section Points.
Context {alias : Alias}.

(** X6: [is_on_curve] looks at the abscissa modulo [p] only: a pair and the
    pair with a multiple of [p] added to its abscissa get the same
    answer, or the same exception. *)
Theorem is_on_curve_abscissa_modulo_p (ec : Curve.t) (x y k : Z) :
  Curve.is_on_curve ec (x + k * Curve._p ec, y) = Curve.is_on_curve ec (x, y).
Proof.
  unfold Curve.is_on_curve, Curve._y2. cbn [fst snd].
  replace (((x + k * Curve._p ec) * (x + k * Curve._p ec) + Curve._a ec)
           * (x + k * Curve._p ec) + Curve._b ec)
    with ((x * x + Curve._a ec) * x + Curve._b ec
          + (k * (3 * x * x + Curve._a ec)
             + 3 * x * k * k * Curve._p ec
             + k * k * k * Curve._p ec * Curve._p ec) * Curve._p ec)
    by ring.
  rewrite Z_mod_plus_full. reflexivity.
Qed.

(** X7: the sum of two points of the data model is a point of the data
    model, and [is_on_curve] accepts it. *)
Theorem add_stays_on_curve (p a b : Z) (G : Point) (n h sec_bits : Z)
    (weakness_check : bool) (ec : Curve.t) (P Q : Point) :
  Curve.__init__ p a b G n h sec_bits weakness_check = Ok ec ->
  Z.prime p ->
  (forall x, Curve._y2 ec x <> 0) ->
  gp ec P -> gp ec Q ->
  exists R, Curve.add ec P Q = Ok R /\ gp ec R /\
            Curve.is_on_curve ec R = Ok true.
Proof.
  intros Hinit Hp Hroot HP HQ.
  destruct (init_field_facts _ _ _ _ _ _ _ _ _ Hinit Hp Hroot)
    as (_ & _ & _ & Hp' & Hp2 & L).
  apply add_closed_spec; assumption.
Qed.

(** X8: sums of points of the data model do not depend on the order of the
    operands. *)
Theorem add_commutative (p a b : Z) (G : Point) (n h sec_bits : Z)
    (weakness_check : bool) (ec : Curve.t) (P Q : Point) :
  Curve.__init__ p a b G n h sec_bits weakness_check = Ok ec ->
  Z.prime p ->
  (forall x, Curve._y2 ec x <> 0) ->
  gp ec P -> gp ec Q ->
  Curve.add ec P Q = Curve.add ec Q P /\ is_ok (Curve.add ec P Q) = true.
Proof.
  intros Hinit Hp Hroot HP HQ.
  destruct (init_field_facts _ _ _ _ _ _ _ _ _ Hinit Hp Hroot)
    as (_ & _ & _ & Hp' & Hp2 & L).
  apply add_comm_spec; assumption.
Qed.

(** X9: sums of three points of the data model do not depend on the
    grouping: [add(add(P, Q), R)] and [add(P, add(Q, R))] return the
    same point. *)
Theorem add_associative (p a b : Z) (G : Point) (n h sec_bits : Z)
    (weakness_check : bool) (ec : Curve.t) (P Q R : Point) :
  Curve.__init__ p a b G n h sec_bits weakness_check = Ok ec ->
  Z.prime p ->
  (forall x, Curve._y2 ec x <> 0) ->
  gp ec P -> gp ec Q -> gp ec R ->
  exists S0 T0 U,
    Curve.add ec P Q = Ok S0 /\ Curve.add ec Q R = Ok T0 /\
    Curve.add ec S0 R = Ok U /\ Curve.add ec P T0 = Ok U.
Proof.
  intros Hinit Hp Hroot HP HQ HR.
  destruct (init_field_facts _ _ _ _ _ _ _ _ _ Hinit Hp Hroot)
    as (_ & _ & _ & Hp' & Hp2 & L).
  apply add_assoc_spec; assumption.
Qed.

(** X10: two finite points that [is_on_curve] accepts and whose abscissas are
    different integers with the same residue modulo [p]: [add] raises
    [ValueError]. *)
Theorem add_congruent_abscissas_raises (ec : Curve.t) (P Q : Point) :
  Z.prime (Curve._p ec) -> 2 < Curve._p ec ->
  Curve.is_on_curve ec P = Ok true -> Curve.is_on_curve ec Q = Ok true ->
  snd P <> 0 -> snd Q <> 0 -> fst Q <> fst P ->
  (fst Q - fst P) mod Curve._p ec = 0 ->
  Curve.add ec P Q = Raise ValueError.
Proof. intros Hp Hp2. apply add_congruent_raises; assumption. Qed.

(** X11: [opposite] gives the inverse of a point of the data model, the only
    one, and is its own inverse. *)
Theorem opposite_is_the_inverse (p a b : Z) (G : Point) (n h sec_bits : Z)
    (weakness_check : bool) (ec : Curve.t) (P : Point) :
  Curve.__init__ p a b G n h sec_bits weakness_check = Ok ec ->
  Z.prime p ->
  (forall x, Curve._y2 ec x <> 0) ->
  gp ec P ->
  exists P',
    Curve.opposite ec P = Ok P' /\ gp ec P' /\
    Curve.add ec P P' = Ok INF /\
    Curve.opposite ec P' = Ok P /\
    forall Q, gp ec Q -> Curve.add ec P Q = Ok INF -> Q = P'.
Proof.
  intros Hinit Hp Hroot HP.
  destruct (init_field_facts _ _ _ _ _ _ _ _ _ Hinit Hp Hroot)
    as (_ & _ & _ & Hp' & Hp2 & L).
  destruct (add_opposite_spec ec Hp' Hp2 L P HP) as (P' & Ho & HP' & Ha & Hi).
  exists P'. repeat split; try assumption.
  intros Q HQ E.
  pose proof (add_inverse_unique ec Hp' Hp2 L P Q HP HQ E) as E'.
  rewrite Ho in E'. injection E' as <-. reflexivity.
Qed.

(** X12: [mult] of a point of the data model returns a point of the data
    model, which [is_on_curve] accepts, and is repeated addition: below
    the order, the next multiple of the point is the point added to the
    multiple. *)
Theorem mult_is_repeated_addition (p a b : Z) (G : Point)
    (n h sec_bits : Z) (weakness_check : bool) (ec : Curve.t) (Q : Point) :
  Curve.__init__ p a b G n h sec_bits weakness_check = Ok ec ->
  Z.prime p ->
  (forall x, Curve._y2 ec x <> 0) ->
  gp ec Q ->
  (forall m, exists R,
      Curve.mult ec m (Some Q) = Ok R /\ gp ec R /\
      Curve.is_on_curve ec R = Ok true) /\
  (forall m, 0 <= m -> m + 1 < n ->
     exists R, Curve.mult ec m (Some Q) = Ok R /\
               Curve.mult ec (m + 1) (Some Q) = Curve.add ec Q R /\
               is_ok (Curve.add ec Q R) = true).
Proof.
  intros Hinit Hp Hroot HQ.
  destruct (init_field_facts _ _ _ _ _ _ _ _ _ Hinit Hp Hroot)
    as (_ & En & _ & Hp' & Hp2 & L).
  destruct (init_constructed _ _ _ _ _ _ _ _ _ Hinit)
    as [_ _ _ _ _ _ _ Hn _ _ _ _].
  split.
  - intros m. apply mult_closed_spec; rewrite ?En; auto; lia.
  - intros m Hm Hm1. apply mult_succ_spec; rewrite ?En; auto; lia.
Qed.

(** X13: the multiple of the generator by a sum is the sum of the
    multiples. *)
Theorem mult_generator_additive (p a b : Z) (G : Point)
    (n h sec_bits : Z) (weakness_check : bool) (ec : Curve.t) (j k : Z) :
  Curve.__init__ p a b G n h sec_bits weakness_check = Ok ec ->
  Z.prime p -> Z.prime n ->
  (forall x, Curve._y2 ec x <> 0) ->
  is_inf G = false ->
  exists A B,
    Curve.mult ec j None = Ok A /\ Curve.mult ec k None = Ok B /\
    Curve.mult ec (j + k) None = Curve.add ec A B /\
    is_ok (Curve.add ec A B) = true.
Proof.
  intros Hinit Hp Hn Hroot HG.
  destruct (init_field_facts _ _ _ _ _ _ _ _ _ Hinit Hp Hroot)
    as (_ & _ & _ & Hp' & Hp2 & L).
  destruct (init_generator_facts _ _ _ _ _ _ _ _ _ Hinit Hn HG)
    as (Hn' & HGon & Hord & HGf).
  apply mult_G_add_spec; assumption.
Qed.

(** X14: multiples of multiples of the generator: [mult(j, mult(k, G))] is
    [mult(j * k, G)], and so two parties who exchange [mult(j, G)] and
    [mult(k, G)] compute the same point. *)
Theorem mult_generator_composes (p a b : Z) (G : Point)
    (n h sec_bits : Z) (weakness_check : bool) (ec : Curve.t) (j k : Z) :
  Curve.__init__ p a b G n h sec_bits weakness_check = Ok ec ->
  Z.prime p -> Z.prime n ->
  (forall x, Curve._y2 ec x <> 0) ->
  is_inf G = false ->
  exists A B,
    Curve.mult ec j None = Ok A /\ Curve.mult ec k None = Ok B /\
    Curve.mult ec j (Some B) = Curve.mult ec (j * k) None /\
    Curve.mult ec k (Some A) = Curve.mult ec j (Some B) /\
    is_ok (Curve.mult ec j (Some B)) = true.
Proof.
  intros Hinit Hp Hn Hroot HG.
  destruct (init_field_facts _ _ _ _ _ _ _ _ _ Hinit Hp Hroot)
    as (_ & _ & _ & Hp' & Hp2 & L).
  destruct (init_generator_facts _ _ _ _ _ _ _ _ _ Hinit Hn HG)
    as (Hn' & HGon & Hord & HGf).
  destruct (mult_G_mul_spec ec Hp' Hp2 L Hn' HGon Hord HGf j k)
    as (B & HB & E1 & O1).
  destruct (mult_G_mul_spec ec Hp' Hp2 L Hn' HGon Hord HGf k j)
    as (A & HA & E2 & _).
  exists A, B. repeat split; try assumption.
  rewrite E1, E2, Z.mul_comm. reflexivity.
Qed.

(** X15: the multiple of the generator by [- m] is the opposite of the
    multiple by [m]. *)
Theorem mult_generator_opposite (p a b : Z) (G : Point)
    (n h sec_bits : Z) (weakness_check : bool) (ec : Curve.t) (m : Z) :
  Curve.__init__ p a b G n h sec_bits weakness_check = Ok ec ->
  Z.prime p -> Z.prime n ->
  (forall x, Curve._y2 ec x <> 0) ->
  is_inf G = false ->
  exists A,
    Curve.mult ec m None = Ok A /\
    Curve.opposite ec A = Curve.mult ec (- m) None.
Proof.
  intros Hinit Hp Hn Hroot HG.
  destruct (init_field_facts _ _ _ _ _ _ _ _ _ Hinit Hp Hroot)
    as (_ & _ & _ & Hp' & Hp2 & L).
  destruct (init_generator_facts _ _ _ _ _ _ _ _ _ Hinit Hn HG)
    as (Hn' & HGon & Hord & HGf).
  apply mult_G_opp_spec; assumption.
Qed.

(** X16: two multiples of the generator are the same point exactly when the
    multipliers are congruent modulo [n]: the private keys in
    [[1, n-1]] have different public keys. *)
Theorem mult_generator_injective (p a b : Z) (G : Point)
    (n h sec_bits : Z) (weakness_check : bool) (ec : Curve.t) (j k : Z) :
  Curve.__init__ p a b G n h sec_bits weakness_check = Ok ec ->
  Z.prime p -> Z.prime n ->
  (forall x, Curve._y2 ec x <> 0) ->
  is_inf G = false ->
  (Curve.mult ec j None = Curve.mult ec k None <-> j mod n = k mod n).
Proof.
  intros Hinit Hp Hn Hroot HG.
  destruct (init_field_facts _ _ _ _ _ _ _ _ _ Hinit Hp Hroot)
    as (_ & En & _ & Hp' & Hp2 & L).
  destruct (init_generator_facts _ _ _ _ _ _ _ _ _ Hinit Hn HG)
    as (Hn' & HGon & Hord & HGf).
  rewrite <- En. apply mult_G_inj_spec; assumption.
Qed.

End Points.

Section PointWitnesses.
#[local] Existing Instance Toy.alias.

Lemma ec11_gp_2_4 : gp Toy.ec11 (2, 4).
Proof. right. repeat split; cbn; lia. Qed.

Lemma ec11_gp_5_9 : gp Toy.ec11 (5, 9).
Proof. right. repeat split; cbn; lia. Qed.

Lemma ec11_gp_10_2 : gp Toy.ec11 (10, 2).
Proof. right. repeat split; cbn; lia. Qed.

Lemma add_stays_on_curve_witness :
  exists R, Curve.add Toy.ec11 (2, 4) (5, 9) = Ok R /\ gp Toy.ec11 R /\
            Curve.is_on_curve Toy.ec11 R = Ok true.
Proof.
  apply (add_stays_on_curve 11 1 6 (2, 4) 13 1 0 false Toy.ec11 (2, 4) (5, 9)).
  - vm_compute; reflexivity.
  - exact prime_11.
  - exact ec11_no_root.
  - exact ec11_gp_2_4.
  - exact ec11_gp_5_9.
Defined.

Lemma add_commutative_witness :
  Curve.add Toy.ec11 (2, 4) (5, 9) = Curve.add Toy.ec11 (5, 9) (2, 4) /\
  is_ok (Curve.add Toy.ec11 (2, 4) (5, 9)) = true.
Proof.
  apply (add_commutative 11 1 6 (2, 4) 13 1 0 false Toy.ec11 (2, 4) (5, 9)).
  - vm_compute; reflexivity.
  - exact prime_11.
  - exact ec11_no_root.
  - exact ec11_gp_2_4.
  - exact ec11_gp_5_9.
Defined.

Lemma add_associative_witness :
  exists S0 T0 U,
    Curve.add Toy.ec11 (2, 4) (5, 9) = Ok S0 /\
    Curve.add Toy.ec11 (5, 9) (10, 2) = Ok T0 /\
    Curve.add Toy.ec11 S0 (10, 2) = Ok U /\
    Curve.add Toy.ec11 (2, 4) T0 = Ok U.
Proof.
  apply (add_associative 11 1 6 (2, 4) 13 1 0 false Toy.ec11
           (2, 4) (5, 9) (10, 2)).
  - vm_compute; reflexivity.
  - exact prime_11.
  - exact ec11_no_root.
  - exact ec11_gp_2_4.
  - exact ec11_gp_5_9.
  - exact ec11_gp_10_2.
Defined.

Lemma add_congruent_abscissas_raises_witness :
  Curve.add Toy.ec11 (2, 4) (13, 4) = Raise ValueError.
Proof.
  apply (add_congruent_abscissas_raises Toy.ec11 (2, 4) (13, 4)).
  - exact prime_11.
  - cbn; lia.
  - vm_compute; reflexivity.
  - vm_compute; reflexivity.
  - cbn; lia.
  - cbn; lia.
  - cbn; lia.
  - vm_compute; reflexivity.
Defined.

Lemma opposite_is_the_inverse_witness :
  exists P',
    Curve.opposite Toy.ec11 (2, 4) = Ok P' /\ gp Toy.ec11 P' /\
    Curve.add Toy.ec11 (2, 4) P' = Ok INF /\
    Curve.opposite Toy.ec11 P' = Ok (2, 4) /\
    forall Q, gp Toy.ec11 Q -> Curve.add Toy.ec11 (2, 4) Q = Ok INF ->
              Q = P'.
Proof.
  apply (opposite_is_the_inverse 11 1 6 (2, 4) 13 1 0 false Toy.ec11 (2, 4)).
  - vm_compute; reflexivity.
  - exact prime_11.
  - exact ec11_no_root.
  - exact ec11_gp_2_4.
Defined.

Lemma mult_is_repeated_addition_witness :
  (forall m, exists R,
      Curve.mult Toy.ec11 m (Some (5, 9)) = Ok R /\ gp Toy.ec11 R /\
      Curve.is_on_curve Toy.ec11 R = Ok true) /\
  (forall m, 0 <= m -> m + 1 < 13 ->
     exists R, Curve.mult Toy.ec11 m (Some (5, 9)) = Ok R /\
               Curve.mult Toy.ec11 (m + 1) (Some (5, 9))
                 = Curve.add Toy.ec11 (5, 9) R /\
               is_ok (Curve.add Toy.ec11 (5, 9) R) = true).
Proof.
  apply (mult_is_repeated_addition 11 1 6 (2, 4) 13 1 0 false Toy.ec11
           (5, 9)).
  - vm_compute; reflexivity.
  - exact prime_11.
  - exact ec11_no_root.
  - exact ec11_gp_5_9.
Defined.

Lemma mult_generator_additive_witness :
  exists A B,
    Curve.mult Toy.ec11 7 None = Ok A /\ Curve.mult Toy.ec11 9 None = Ok B /\
    Curve.mult Toy.ec11 (7 + 9) None = Curve.add Toy.ec11 A B /\
    is_ok (Curve.add Toy.ec11 A B) = true.
Proof.
  apply (mult_generator_additive 11 1 6 (2, 4) 13 1 0 false Toy.ec11 7 9).
  - vm_compute; reflexivity.
  - exact prime_11.
  - exact prime_13.
  - exact ec11_no_root.
  - reflexivity.
Defined.

Lemma mult_generator_composes_witness :
  exists A B,
    Curve.mult Toy.ec11 7 None = Ok A /\ Curve.mult Toy.ec11 9 None = Ok B /\
    Curve.mult Toy.ec11 7 (Some B) = Curve.mult Toy.ec11 (7 * 9) None /\
    Curve.mult Toy.ec11 9 (Some A) = Curve.mult Toy.ec11 7 (Some B) /\
    is_ok (Curve.mult Toy.ec11 7 (Some B)) = true.
Proof.
  apply (mult_generator_composes 11 1 6 (2, 4) 13 1 0 false Toy.ec11 7 9).
  - vm_compute; reflexivity.
  - exact prime_11.
  - exact prime_13.
  - exact ec11_no_root.
  - reflexivity.
Defined.

Lemma mult_generator_opposite_witness :
  exists A,
    Curve.mult Toy.ec11 7 None = Ok A /\
    Curve.opposite Toy.ec11 A = Curve.mult Toy.ec11 (- 7) None.
Proof.
  apply (mult_generator_opposite 11 1 6 (2, 4) 13 1 0 false Toy.ec11 7).
  - vm_compute; reflexivity.
  - exact prime_11.
  - exact prime_13.
  - exact ec11_no_root.
  - reflexivity.
Defined.

Lemma mult_generator_injective_witness :
  Curve.mult Toy.ec11 7 None = Curve.mult Toy.ec11 20 None <->
  7 mod 13 = 20 mod 13.
Proof.
  apply (mult_generator_injective 11 1 6 (2, 4) 13 1 0 false Toy.ec11 7 20).
  - vm_compute; reflexivity.
  - exact prime_11.
  - exact prime_13.
  - exact ec11_no_root.
  - reflexivity.
Defined.

End PointWitnesses.

(** ** Jacobian coordinates *)

Section Jacobian.
Context {alias : Alias}.

(** X17: the canonical triple of a point of the data model converts back to
    the point. *)
Theorem jacobian_round_trip (ec : Curve.t) (P : Point) :
  Z.prime (Curve._p ec) -> 2 < Curve._p ec ->
  gp ec P ->
  Curve._aff_from_jac ec (_jac_from_aff P) = Ok P.
Proof. intros Hp Hp2. apply jac_round_trip; assumption. Qed.

Lemma coprime_cube (z m : Z) : Z.gcd (z * z) m = 1 -> Z.gcd (z * z * z) m = 1.
Proof.
  intros H. apply Z.coprime_mul_l; [exact H|].
  assert (D : (Z.gcd z m | 1)).
  { rewrite <- H. apply Z.gcd_greatest.
    - apply Z.divide_mul_l, Z.gcd_divide_l.
    - apply Z.gcd_divide_r. }
  apply Z.divide_1_r_nonneg in D; [exact D | apply Z.gcd_nonneg].
Qed.

(** X18: [_x_aff_from_jac] returns the abscissa of the point that
    [_aff_from_jac] returns and raises when that one raises; at the
    Infinity triple it raises [ValueError] instead of returning the
    abscissa of Infinity. *)
Theorem x_aff_from_jac_agrees (ec : Curve.t) (Q : JacPoint) :
  Curve._x_aff_from_jac ec Q =
  if jac_z Q =? 0 then Raise ValueError
  else (P <- Curve._aff_from_jac ec Q ;; Ok (fst P)).
Proof.
  unfold Curve._x_aff_from_jac, Curve._aff_from_jac.
  destruct (jac_z Q =? 0); [reflexivity|].
  unfold mod_inv. destruct (Curve._p ec <=? 0); [reflexivity|].
  destruct (Z.gcd (jac_z Q * jac_z Q) (Curve._p ec) =? 1) eqn:E;
    [|reflexivity].
  b2p. rewrite (coprime_cube _ _ E). reflexivity.
Qed.

(** X19: two triples that differ by a factor [l] not 0 modulo [p],
    [(l^2 X, l^3 Y, l Z)] and [(X, Y, Z)], convert to the same affine
    point. *)
Theorem aff_from_jac_scaling (ec : Curve.t) (X Y Zj l : Z) :
  Z.prime (Curve._p ec) ->
  Zj mod Curve._p ec <> 0 -> l mod Curve._p ec <> 0 ->
  Curve._aff_from_jac ec (l * l * X, l * l * l * Y, l * Zj) =
  Curve._aff_from_jac ec (X, Y, Zj) /\
  is_ok (Curve._aff_from_jac ec (X, Y, Zj)) = true.
Proof. intros Hp. apply aff_from_jac_scale; assumption. Qed.

(** X20: jacobian addition refines affine addition for every pair of triples
    that denote finite points, whatever their third coordinates: the
    sum of the triples converts to the affine sum of the converted
    points. *)
Theorem add_jac_refines_add_aff (ec : Curve.t) (Qj Rj : JacPoint)
    (P Q : Point) :
  Z.prime (Curve._p ec) -> 2 < Curve._p ec ->
  jac_z Qj mod Curve._p ec <> 0 -> jac_z Rj mod Curve._p ec <> 0 ->
  Curve._aff_from_jac ec Qj = Ok P -> Curve._aff_from_jac ec Rj = Ok Q ->
  snd P <> 0 -> snd Q <> 0 ->
  exists A,
    Curve._add_aff ec P Q = Ok A /\
    Curve._aff_from_jac ec (Curve._add_jac ec Qj Rj) = Ok A.
Proof. intros Hp Hp2. apply add_jac_spec; assumption. Qed.

End Jacobian.

Section JacobianWitnesses.
#[local] Existing Instance Toy.alias.

Lemma jacobian_round_trip_witness :
  Curve._aff_from_jac Toy.ec11 (_jac_from_aff (5, 9)) = Ok (5, 9).
Proof.
  apply (jacobian_round_trip Toy.ec11 (5, 9)).
  - exact prime_11.
  - cbn; lia.
  - exact ec11_gp_5_9.
Defined.

Lemma aff_from_jac_scaling_witness :
  Curve._aff_from_jac Toy.ec11 (3 * 3 * 5, 3 * 3 * 3 * 9, 3 * 1) =
  Curve._aff_from_jac Toy.ec11 (5, 9, 1) /\
  is_ok (Curve._aff_from_jac Toy.ec11 (5, 9, 1)) = true.
Proof.
  apply (aff_from_jac_scaling Toy.ec11 5 9 1 3).
  - exact prime_11.
  - vm_compute; discriminate.
  - vm_compute; discriminate.
Defined.

Lemma add_jac_refines_add_aff_witness :
  exists A,
    Curve._add_aff Toy.ec11 (2, 4) (5, 9) = Ok A /\
    Curve._aff_from_jac Toy.ec11
      (Curve._add_jac Toy.ec11 (2 * 9, 4 * 27, 3) (5 * 4, 9 * 8, 2)) = Ok A.
Proof.
  apply (add_jac_refines_add_aff Toy.ec11 (2 * 9, 4 * 27, 3) (5 * 4, 9 * 8, 2)
           (2, 4) (5, 9)).
  - exact prime_11.
  - cbn; lia.
  - vm_compute; discriminate.
  - vm_compute; discriminate.
  - vm_compute; reflexivity.
  - vm_compute; reflexivity.
  - cbn; lia.
  - cbn; lia.
Defined.

End JacobianWitnesses.

(** ** The ordinates of an abscissa *)

Section Ordinates.
Context {alias : Alias} {number_theory : ModSqrt} {legendre : Legendre}.

Lemma square_opposite (p r : Z) : ((p - r) * (p - r)) mod p = (r * r) mod p.
Proof.
  replace ((p - r) * (p - r)) with (r * r + (p - 2 * r) * p) by ring.
  apply Z_mod_plus_full.
Qed.

Lemma y_spec (ec : Curve.t) (x root : Z) :
  mod_sqrt_contract number_theory (Curve._p ec) ->
  Curve.y ec x = Ok root ->
  0 <= x < Curve._p ec /\ 0 <= root < Curve._p ec /\
  (root * root) mod Curve._p ec = Curve._y2 ec x.
Proof.
  intros C H. unfold Curve.y in H. ok_check H Ex. b2p.
  destruct (C (Curve._y2 ec x)) as [Sound _].
  destruct (Sound root H) as (Br & Er).
  repeat split; try lia. rewrite Er. unfold Curve._y2. apply Zmod_mod.
Qed.

(** X21: every selector returns a square root of [x^3 + a*x + b] modulo [p],
    for an [x] in [[0, p-1]], when [mod_sqrt] meets its contract. *)
Theorem y_selectors_return_roots (ec : Curve.t) (x sel r : Z) :
  mod_sqrt_contract number_theory (Curve._p ec) ->
  Curve.y ec x = Ok r \/ Curve.y_odd ec x sel = Ok r \/
  Curve.y_low ec x sel = Ok r \/ Curve.y_quadratic_residue ec x sel = Ok r ->
  0 <= x < Curve._p ec /\ 0 <= r <= Curve._p ec /\
  (r * r) mod Curve._p ec = Curve._y2 ec x.
Proof.
  intros C [H|[H|[H|H]]].
  - destruct (y_spec ec x r C H) as (Hx & Hr & E). repeat split; auto; lia.
  - unfold Curve.y_odd in H. ok_check H Es. ok_bind H root Hroot.
    injection H as <-. destruct (y_spec ec x root C Hroot) as (Hx & Hr & E).
    destruct (root mod 2 =? sel); repeat split; auto; try lia.
    rewrite square_opposite. exact E.
  - unfold Curve.y_low in H. ok_check H Es. ok_bind H root Hroot.
    injection H as <-. destruct (y_spec ec x root C Hroot) as (Hx & Hr & E).
    destruct (Z.b2z (root <=? Curve._p ec / 2) =? sel);
      repeat split; auto; try lia.
    rewrite square_opposite. exact E.
  - unfold Curve.y_quadratic_residue in H. ok_check H Es.
    ok_step H. ok_bind H root Hroot. ok_bind H l Hl.
    injection H as <-. destruct (y_spec ec x root C Hroot) as (Hx & Hr & Eq).
    destruct (l =? sel); repeat split; auto; try lia.
    rewrite square_opposite. exact Eq.
Qed.

(** X22: over a field of odd order [y_odd] returns an ordinate of the parity
    asked for, and the ordinates of the two parities add up to [p]. *)
Theorem y_odd_parity (ec : Curve.t) (x : Z) :
  Curve._p ec mod 2 = 1 ->
  (forall sel r, Curve.y_odd ec x sel = Ok r -> r mod 2 = sel) /\
  (forall r0 r1, Curve.y_odd ec x 0 = Ok r0 -> Curve.y_odd ec x 1 = Ok r1 ->
                 r0 + r1 = Curve._p ec).
Proof.
  intros Hodd.
  assert (Par : forall root, (Curve._p ec - root) mod 2 = 1 - root mod 2).
  { intros root. pose proof (Z.mod_pos_bound root 2 ltac:(lia)).
    rewrite Zminus_mod, Hodd.
    destruct (Z.eq_dec (root mod 2) 0) as [->| ];
      [reflexivity|].
    replace (root mod 2) with 1 by lia. reflexivity. }
  split.
  - intros sel r H. unfold Curve.y_odd in H. ok_check H Es.
    ok_bind H root Hroot. injection H as <-. b2p.
    destruct (root mod 2 =? sel) eqn:Er; b2p; [assumption|].
    rewrite Par. pose proof (Z.mod_pos_bound root 2 ltac:(lia)).
    destruct Es as [Es|Es]; b2p; lia.
  - intros r0 r1 H0 H1. unfold Curve.y_odd in H0, H1.
    cbn [Z.eqb orb negb raise_if bind] in H0, H1.
    destruct (Curve.y ec x) as [root|]; [|discriminate].
    cbn [bind] in H0, H1. injection H0 as <-. injection H1 as <-.
    pose proof (Z.mod_pos_bound root 2 ltac:(lia)).
    destruct (root mod 2 =? 0) eqn:E0; destruct (root mod 2 =? 1) eqn:E1;
      b2p; lia.
Qed.

(** X23: over a field of odd order [y_low] returns the ordinate in the half
    asked for: at most [p // 2] for the selector 1, above it for 0. *)
Theorem y_low_half (ec : Curve.t) (x r : Z) :
  mod_sqrt_contract number_theory (Curve._p ec) ->
  Curve._p ec mod 2 = 1 ->
  (Curve.y_low ec x 1 = Ok r -> 0 <= r <= Curve._p ec / 2) /\
  (Curve.y_low ec x 0 = Ok r -> Curve._p ec / 2 < r <= Curve._p ec).
Proof.
  intros C Hodd.
  pose proof (Z.div_mod (Curve._p ec) 2 ltac:(lia)) as Edm.
  rewrite Hodd in Edm.
  split; intros H; unfold Curve.y_low in H;
    cbn [Z.eqb orb negb raise_if bind] in H;
    (destruct (Curve.y ec x) as [root|] eqn:Hroot; [|discriminate]);
    cbn [bind] in H; injection H as <-;
    destruct (y_spec ec x root C Hroot) as (_ & Hr & _);
    destruct (root <=? Curve._p ec / 2) eqn:E; cbn [Z.b2z Z.eqb Pos.eqb];
    b2p; lia.
Qed.

End Ordinates.

Section OrdinateWitnesses.
#[local] Existing Instance Toy.alias.
#[local] Existing Instance mod_sqrt_search.

#[local] Existing Instance Toy.legendre.

Lemma y_selectors_return_roots_witness :
  0 <= 5 < Curve._p Toy.ec11 /\ 0 <= 9 <= Curve._p Toy.ec11 /\
  (9 * 9) mod Curve._p Toy.ec11 = Curve._y2 Toy.ec11 5.
Proof.
  apply (y_selectors_return_roots Toy.ec11 5 1 9).
  - apply mod_sqrt_search_contract. cbn; lia.
  - right. left. vm_compute. reflexivity.
Defined.

Lemma y_odd_parity_witness :
  (forall sel r, Curve.y_odd Toy.ec11 5 sel = Ok r -> r mod 2 = sel) /\
  (forall r0 r1, Curve.y_odd Toy.ec11 5 0 = Ok r0 ->
                 Curve.y_odd Toy.ec11 5 1 = Ok r1 ->
                 r0 + r1 = Curve._p Toy.ec11).
Proof.
  apply (y_odd_parity Toy.ec11 5). vm_compute; reflexivity.
Defined.

Lemma y_low_half_witness :
  (Curve.y_low Toy.ec11 5 1 = Ok 2 -> 0 <= 2 <= Curve._p Toy.ec11 / 2) /\
  (Curve.y_low Toy.ec11 5 0 = Ok 2 ->
   Curve._p Toy.ec11 / 2 < 2 <= Curve._p Toy.ec11).
Proof.
  apply (y_low_half Toy.ec11 5 2).
  - apply mod_sqrt_search_contract. cbn; lia.
  - vm_compute; reflexivity.
Defined.

End OrdinateWitnesses.

(** ** Signatures *)

Section Signatures.
Context {alias : Alias} {number_theory : ModSqrt} {env : Ecdsa.Collaborators}.

Lemma to_dsasig_ok_iff (sig : Ecdsa.ECDS) (ec : Curve.t) (r s : Z) :
  Ecdsa.to_dsasig sig ec = Ok (r, s) <->
  sig = [r; s] /\ 0 < r < Curve.n ec /\ 0 < s < Curve.n ec.
Proof.
  split.
  - unfold Ecdsa.to_dsasig.
    destruct sig as [|r0 [|s0 [|t0 sig]]]; try discriminate.
    intros H. ok_check H Er. ok_check H Es. injection H as <- <-. b2p.
    repeat split; lia.
  - intros (-> & Hr & Hs). unfold Ecdsa.to_dsasig.
    replace (negb ((0 <? r) && (r <? Curve.n ec))) with false.
    2:{ symmetry. apply negb_false_iff, andb_true_iff.
        split; apply Z.ltb_lt; lia. }
    replace (negb ((0 <? s) && (s <? Curve.n ec))) with false.
    2:{ symmetry. apply negb_false_iff, andb_true_iff.
        split; apply Z.ltb_lt; lia. }
    reflexivity.
Qed.

(** X24: [to_dsasig] accepts the tuples of two integers in [[1, n-1]] and no
    others; a tuple of another length is a [TypeError], a component out
    of range a [ValueError]. *)
Theorem to_dsasig_accepts_exactly (sig : Ecdsa.ECDS) (ec : Curve.t) :
  (forall r s, Ecdsa.to_dsasig sig ec = Ok (r, s) <->
               sig = [r; s] /\ 0 < r < Curve.n ec /\ 0 < s < Curve.n ec) /\
  (Ecdsa.to_dsasig sig ec = Raise TypeError <-> length sig <> 2%nat) /\
  (forall e, Ecdsa.to_dsasig sig ec = Raise e ->
             e = TypeError \/ e = ValueError).
Proof.
  split; [|split].
  - intros r s. apply to_dsasig_ok_iff.
  - unfold Ecdsa.to_dsasig.
    destruct sig as [|r0 [|s0 [|t0 sig]]]; cbn [length];
      try (split; [intros _; lia | reflexivity]).
    split; [|lia].
    destruct (negb ((0 <? r0) && (r0 <? Curve.n ec)));
      cbn [raise_if bind]; [discriminate|].
    destruct (negb ((0 <? s0) && (s0 <? Curve.n ec)));
      cbn [raise_if bind]; discriminate.
  - intros e. unfold Ecdsa.to_dsasig.
    destruct sig as [|r0 [|s0 [|t0 sig]]];
      try (intros E; injection E as <-; left; reflexivity).
    destruct (negb ((0 <? r0) && (r0 <? Curve.n ec)));
      cbn [raise_if bind];
      [intros E; injection E as <-; right; reflexivity|].
    destruct (negb ((0 <? s0) && (s0 <? Curve.n ec)));
      cbn [raise_if bind];
      [intros E; injection E as <-; right; reflexivity | discriminate].
Qed.

(** X25: a signature that [_ecdsa_sign] returns is well formed: two integers
    in [[1, n-1]], which [to_dsasig] accepts. *)
Theorem sign_output_well_formed (H : Ecdsa.HashDigest) (d : Z)
    (k : option Z) (ec : Curve.t) (sig : Ecdsa.ECDS) :
  0 < Curve.n ec ->
  Ecdsa._ecdsa_sign H d k ec = Ok sig ->
  exists r s,
    sig = [r; s] /\ 0 < r < Curve.n ec /\ 0 < s < Curve.n ec /\
    Ecdsa.to_dsasig sig ec = Ok (r, s).
Proof.
  intros Hn Hs. unfold Ecdsa._ecdsa_sign, Ecdsa.int_from_Scalar in Hs.
  cbn [bind] in Hs.
  ok_check Hs Hd0. ok_bind Hs kk Hkk. ok_bind Hs R HR.
  ok_check Hs HyR. ok_check Hs Hr. ok_bind Hs e He. ok_bind Hs k1 Hk1.
  ok_check Hs Hs0. injection Hs as <-. b2p.
  pose proof (Z.mod_pos_bound (fst R) (Curve.n ec) Hn).
  pose proof (Z.mod_pos_bound
                (k1 * (e + fst R mod Curve.n ec * (d mod Curve.n ec)))
                (Curve.n ec) Hn).
  do 2 eexists. split; [reflexivity|].
  split; [lia|]. split; [lia|].
  apply to_dsasig_ok_iff. repeat split; lia.
Qed.

(** X26: signing raises [ValueError] for a private key that is 0 modulo [n]
    and for a supplied nonce that is 0 modulo [n]. *)
Theorem sign_rejects_zero_scalars (H : Ecdsa.HashDigest) (d : Z)
    (k : option Z) (ec : Curve.t) :
  d mod Curve.n ec = 0 \/ (exists k0, k = Some k0 /\ k0 mod Curve.n ec = 0) ->
  Ecdsa._ecdsa_sign H d k ec = Raise ValueError.
Proof.
  intros Hz. unfold Ecdsa._ecdsa_sign, Ecdsa.int_from_Scalar. cbn [bind].
  destruct (d mod Curve.n ec =? 0) eqn:Ed; [reflexivity|].
  cbn [raise_if bind]. b2p.
  destruct Hz as [Hz|(k0 & -> & Hk)]; [contradiction|].
  cbn [bind]. unfold Ecdsa.pointMultiply, Curve.mult, Curve.require_on_curve.
  unfold Curve.is_on_curve.
  destruct (snd (Curve.G ec) =? 0) eqn:EG.
  - cbn [negb raise_if bind]. unfold Curve._mult_aff.
    cbv zeta. rewrite Zmod_mod, Hk. reflexivity.
  - destruct (negb ((0 <? snd (Curve.G ec)) &&
                    (snd (Curve.G ec) <? Curve._p ec)));
      cbn [raise_if bind]; [reflexivity|].
    destruct (Curve._y2 ec (fst (Curve.G ec)) =?
              (snd (Curve.G ec) * snd (Curve.G ec)) mod Curve._p ec);
      cbn [negb raise_if bind]; [|reflexivity].
    unfold Curve._mult_aff. cbv zeta. rewrite Zmod_mod, Hk. reflexivity.
Qed.

(** X27: [ecdsa_verify] answers [False] for a signature that [to_dsasig] does
    not accept and for a public key that [is_on_curve] does not
    accept. *)
Theorem verify_rejects_malformed (sig : Ecdsa.ECDS) (M : Ecdsa.Message)
    (Q : Point) (ec : Curve.t) :
  (forall r s, Ecdsa.to_dsasig sig ec <> Ok (r, s)) \/
  Curve.is_on_curve ec Q <> Ok true ->
  Ecdsa.ecdsa_verify sig M Q ec = Ok false.
Proof.
  intros Hbad. unfold Ecdsa.ecdsa_verify.
  destruct (Ecdsa.digest M) as [H|]; [|reflexivity]. cbn [bind].
  unfold Ecdsa._ecdsa_verify.
  destruct (Ecdsa.to_dsasig sig ec) as [[r s]|] eqn:Esig; [|reflexivity].
  destruct Hbad as [Hbad|Hbad]; [exfalso; apply (Hbad r s); reflexivity|].
  cbn [bind fst snd].
  destruct (Ecdsa.int_from_hash H ec); [|reflexivity]. cbn [bind].
  unfold Ecdsa.to_Point, Curve.require_on_curve.
  destruct (Curve.is_on_curve ec Q) as [[|]|]; try reflexivity.
  contradiction.
Qed.

(** X28: ECDSA signatures are malleable: with a signature [(r, s)] that
    signing returns, [(r, n - s)] verifies as well, for the same digest
    and public key. *)
Theorem signature_malleable (p a b : Z) (G : Point) (n h sec_bits : Z)
    (weakness_check : bool) (ec : Curve.t)
    (H : Ecdsa.HashDigest) (d : Z) (k : option Z) (r s : Z) :
  Curve.__init__ p a b G n h sec_bits weakness_check = Ok ec ->
  Z.prime p -> Z.prime n ->
  (forall x, Curve._y2 ec x <> 0) ->
  Ecdsa._ecdsa_sign H d k ec = Ok [r; s] ->
  exists P,
    Ecdsa.pointMultiply ec d (Curve.G ec) = Ok P /\
    Ecdsa._ecdsa_verify [r; n - s] H P ec = Ok true.
Proof.
  intros Hinit Hp Hn Hroot Hsign.
  destruct (init_field_facts _ _ _ _ _ _ _ _ _ Hinit Hp Hroot)
    as (_ & En & EG & Hp' & Hp2 & L).
  assert (HG : is_inf G = false).
  { unfold is_inf. apply Z.eqb_neq. rewrite <- EG.
    exact (sign_generator_finite _ _ _ _ _ Hsign). }
  destruct (init_generator_facts _ _ _ _ _ _ _ _ _ Hinit Hn HG)
    as (Hn' & HGon & Hord & HGf).
  rewrite <- En.
  apply (malleable_spec ec) with (k := k); assumption.
Qed.

(** X29: the round trip of the public functions: a signature that
    [ecdsa_sign] returns for a message and a private key, of any integer
    value, verifies with [ecdsa_verify] for the message and the public
    key. *)
Theorem message_round_trip (p a b : Z) (G : Point) (n h sec_bits : Z)
    (weakness_check : bool) (ec : Curve.t)
    (M : Ecdsa.Message) (d : Z) (k : option Z) (sig : Ecdsa.ECDS) :
  Curve.__init__ p a b G n h sec_bits weakness_check = Ok ec ->
  Z.prime p -> Z.prime n ->
  (forall x, Curve._y2 ec x <> 0) ->
  Ecdsa.ecdsa_sign M d k ec = Ok sig ->
  exists P,
    Ecdsa.pointMultiply ec d (Curve.G ec) = Ok P /\
    Ecdsa.ecdsa_verify sig M P ec = Ok true.
Proof.
  intros Hinit Hp Hn Hroot Hsign.
  unfold Ecdsa.ecdsa_sign in Hsign. ok_bind Hsign H HH.
  destruct (init_field_facts _ _ _ _ _ _ _ _ _ Hinit Hp Hroot)
    as (_ & En & EG & Hp' & Hp2 & L).
  assert (HG : is_inf G = false).
  { unfold is_inf. apply Z.eqb_neq. rewrite <- EG.
    exact (sign_generator_finite _ _ _ _ _ Hsign). }
  destruct (init_generator_facts _ _ _ _ _ _ _ _ _ Hinit Hn HG)
    as (Hn' & HGon & Hord & HGf).
  destruct (round_trip ec Hp' Hp2 L Hn' HGon Hord HGf H d k sig Hsign)
    as (P & HP & HV).
  exists P. split; [exact HP|].
  unfold Ecdsa.ecdsa_verify. rewrite HH. cbn [bind]. rewrite HV.
  reflexivity.
Qed.

(** X30: with the ordinate selector [yOdd] of the recovery loop as the
    spec has it, the [y_odd] of the curve, on a curve with [p <= 2 * n],
    as the curves of cofactor 1 are, recovery of the public key from a
    signature that signing returns yields a list that holds the public
    key of the signer. *)
Theorem recovery_contains_key (p a b : Z) (G : Point) (n h sec_bits : Z)
    (weakness_check : bool) (ec : Curve.t)
    (H : Ecdsa.HashDigest) (d : Z) (k : option Z) (sig : Ecdsa.ECDS) :
  Curve.__init__ p a b G n h sec_bits weakness_check = Ok ec ->
  Z.prime p -> Z.prime n ->
  (forall x, Curve._y2 ec x <> 0) ->
  mod_sqrt_contract number_theory p ->
  p <= 2 * n ->
  Ecdsa._ecdsa_sign H d k ec = Ok sig ->
  exists P keys,
    Ecdsa.pointMultiply ec d (Curve.G ec) = Ok P /\
    Ecdsa._ecdsa_pubkey_recovery sig H ec = Ok keys /\
    In P keys.
Proof.
  intros Hinit Hp Hn Hroot Hsqrt Hpn Hsign.
  destruct (init_field_facts _ _ _ _ _ _ _ _ _ Hinit Hp Hroot)
    as (Ep & En & EG & Hp' & Hp2 & L).
  assert (HG : is_inf G = false).
  { unfold is_inf. apply Z.eqb_neq. rewrite <- EG.
    exact (sign_generator_finite _ _ _ _ _ Hsign). }
  destruct (init_generator_facts _ _ _ _ _ _ _ _ _ Hinit Hn HG)
    as (Hn' & HGon & Hord & HGf).
  rewrite <- Ep in Hsqrt, Hpn. rewrite <- En in Hpn.
  apply (recovery_spec ec) with (k := k); assumption.
Qed.

End Signatures.

Section SignatureWitnesses.
#[local] Existing Instance Toy.alias.
#[local] Existing Instance mod_sqrt_search.
#[local] Existing Instance Toy.env.

Lemma sign_output_well_formed_witness :
  exists r s,
    [10; 1] = [r; s] /\ 0 < r < Curve.n Toy.ec11 /\
    0 < s < Curve.n Toy.ec11 /\
    Ecdsa.to_dsasig [10; 1] Toy.ec11 = Ok (r, s).
Proof.
  apply (sign_output_well_formed (env := Toy.env) (5 : Z) 3 None Toy.ec11).
  - cbn; lia.
  - vm_compute; reflexivity.
Defined.

Lemma sign_rejects_zero_scalars_witness :
  Ecdsa._ecdsa_sign (env := Toy.env) (5 : Z) 26 None Toy.ec11
  = Raise ValueError.
Proof.
  apply (sign_rejects_zero_scalars (env := Toy.env) (5 : Z) 26 None Toy.ec11).
  left. vm_compute; reflexivity.
Defined.

Lemma verify_rejects_malformed_witness :
  Ecdsa.ecdsa_verify (env := Toy.env) [10; 13] (5 : Z) (8, 3) Toy.ec11
  = Ok false.
Proof.
  apply (verify_rejects_malformed (env := Toy.env) [10; 13] (5 : Z) (8, 3)
           Toy.ec11).
  left. intros r s. vm_compute. discriminate.
Defined.

Lemma signature_malleable_witness :
  exists P,
    Ecdsa.pointMultiply Toy.ec11 3 (Curve.G Toy.ec11) = Ok P /\
    Ecdsa._ecdsa_verify [10; 13 - 1] (5 : Z) P Toy.ec11 = Ok true.
Proof.
  apply (signature_malleable (env := Toy.env)
           11 1 6 (2, 4) 13 1 0 false Toy.ec11 (5 : Z) 3 None 10 1).
  - vm_compute; reflexivity.
  - exact prime_11.
  - exact prime_13.
  - exact ec11_no_root.
  - vm_compute; reflexivity.
Defined.

Lemma message_round_trip_witness :
  exists P,
    Ecdsa.pointMultiply Toy.ec11 3 (Curve.G Toy.ec11) = Ok P /\
    Ecdsa.ecdsa_verify [10; 1] (5 : Z) P Toy.ec11 = Ok true.
Proof.
  apply (message_round_trip (env := Toy.env)
           11 1 6 (2, 4) 13 1 0 false Toy.ec11 (5 : Z) 3 None [10; 1]).
  - vm_compute; reflexivity.
  - exact prime_11.
  - exact prime_13.
  - exact ec11_no_root.
  - vm_compute; reflexivity.
Defined.

Lemma recovery_contains_key_witness :
  exists P keys,
    Ecdsa.pointMultiply Toy.ec11 3 (Curve.G Toy.ec11) = Ok P /\
    Ecdsa._ecdsa_pubkey_recovery [10; 1] (5 : Z) Toy.ec11 = Ok keys /\
    In P keys.
Proof.
  apply (recovery_contains_key (env := Toy.env)
           (number_theory := mod_sqrt_search)
           11 1 6 (2, 4) 13 1 0 false Toy.ec11 (5 : Z) 3 None [10; 1]).
  - vm_compute; reflexivity.
  - exact prime_11.
  - exact prime_13.
  - exact ec11_no_root.
  - apply mod_sqrt_search_contract. lia.
  - lia.
  - vm_compute; reflexivity.
Defined.

End SignatureWitnesses.
